(** * Boot-overlay capture-and-correlate engine (tools/boot_overlay_poc.py)

    A shallow embedding of the log-line decoder, the line-splicing repair,
    the boot-window capture loop, the health-history parser, the
    nearest-previous join and the joined-table writer, with the properties
    of the specification stated and settled over it.

    Conventions of the embedding.
    - A Python [str] is a [list ascii]; a character is read as the code
      point of the same number (U+0000..U+00FF).  On that range [\d] is
      [0-9], [\s] is Python's white space (9-13, 28-32, 133, 160) and
      [str.splitlines] breaks at 10-13, 28-30 and 133.
    - A Python [int] is a [Z].
    - [re] patterns are kept as syntax trees and run by a small
      backtracking matcher with Python's greedy, leftmost semantics.
    - Code that may raise returns a [result]; the capture loop is run over
      a script of what each turn of the loop meets (the clock at the loop
      guard, the outcome of the read).
    - Limits of the interpreter that a setting lifts (the number of digits
      [int()] accepts, the field size limit of [csv.reader]) are left
      out. *)

From Stdlib Require Import ZArith Ascii String DecimalString DecimalPos List Lia Bool.
From Stdlib Require Import Sorting.Sorted Sorting.Permutation.
From stdpp Require Import base option list strings gmap.
Import ListNotations.

Local Open Scope Z_scope.
Local Open Scope list_scope.

(** ** Characters and strings *)

Abbreviation str := (list ascii).

(** A string literal as a [str]. *)
Definition txt (x : string) : str := list_ascii_of_string x.

Definition LF : ascii := "010"%char.
Definition CR : ascii := "013"%char.

Definition code (c : ascii) : nat := nat_of_ascii c.

(** [\d] of a [str] pattern, on code points below 256. *)
Definition is_digit (c : ascii) : bool :=
  ((48 <=? code c) && (code c <=? 57))%nat.

(** [\s] of a [str] pattern (Py_UNICODE_ISSPACE), on code points below 256. *)
Definition is_space (c : ascii) : bool :=
  (((9 <=? code c) && (code c <=? 13)) || ((28 <=? code c) && (code c <=? 32))
   || (code c =? 133) || (code c =? 160))%nat.

(** The line boundaries of [str.splitlines], on code points below 256. *)
Definition is_linebreak (c : ascii) : bool :=
  (((10 <=? code c) && (code c <=? 13)) || ((28 <=? code c) && (code c <=? 30))
   || (code c =? 133))%nat.

(** [.] without DOTALL: anything but a line feed. *)
Definition is_dot (c : ascii) : bool := negb (Ascii.eqb c LF).

(** [[^\]]]. *)
Definition not_rbracket (c : ascii) : bool := negb (Ascii.eqb c "]"%char).

(** [int(x)] for a string of decimal digits (Horner's rule). *)
Definition digit_val (c : ascii) : Z := Z.of_nat (code c) - 48.

Definition int_of_digits (ds : str) : Z :=
  fold_left (fun acc c => 10 * acc + digit_val c) ds 0.

(** ** A backtracking matcher for the patterns of the module *)

Inductive re : Type :=
| Bol                          (* ^ *)
| Eol                          (* $ : at the end, or before a final line feed *)
| Lit (c : ascii)              (* a literal character *)
| Star (cls : ascii -> bool)   (* cls*  (greedy) *)
| Plus (cls : ascii -> bool)   (* cls+  (greedy) *)
| Group (i : nat) (r : re)     (* ( r ), capture group number i *)
| Seq (r1 r2 : re).

Record mstate : Type := MState {
  m_pos : nat;                 (* offset reached in the subject *)
  m_rest : str;                (* the subject from that offset on *)
  m_groups : list (nat * str)  (* captured groups, latest first *)
}.

Fixpoint star_k {A : Type} (cls : ascii -> bool) (rest : str) (pos : nat)
    (k : nat -> str -> option A) : option A :=
  match rest with
  | c :: rest' =>
      if cls c then
        match star_k cls rest' (S pos) k with
        | Some r => Some r
        | None => k pos rest
        end
      else k pos rest
  | [] => k pos rest
  end.

Fixpoint rmatch (r : re) (st : mstate) (k : mstate -> option mstate)
    : option mstate :=
  match r with
  | Bol => if (m_pos st =? 0)%nat then k st else None
  | Eol =>
      match m_rest st with
      | [] => k st
      | [c] => if Ascii.eqb c LF then k st else None
      | _ => None
      end
  | Lit c =>
      match m_rest st with
      | c' :: rest' =>
          if Ascii.eqb c c'
          then k (MState (S (m_pos st)) rest' (m_groups st))
          else None
      | [] => None
      end
  | Star cls =>
      star_k cls (m_rest st) (m_pos st)
        (fun p rest => k (MState p rest (m_groups st)))
  | Plus cls =>
      match m_rest st with
      | c :: rest' =>
          if cls c
          then star_k cls rest' (S (m_pos st))
                 (fun p rest => k (MState p rest (m_groups st)))
          else None
      | [] => None
      end
  | Group i r' =>
      rmatch r' st
        (fun st' =>
           k (MState (m_pos st') (m_rest st')
                ((i, take (m_pos st' - m_pos st) (m_rest st)) :: m_groups st')))
  | Seq r1 r2 => rmatch r1 st (fun st' => rmatch r2 st' k)
  end.

(** [pattern.match(subject)]: a match anchored at offset 0. *)
Definition re_match (r : re) (subject : str) : option mstate :=
  rmatch r (MState 0 subject []) Some.

(** [m.group(i)]. *)
Fixpoint group_in (gs : list (nat * str)) (i : nat) : str :=
  match gs with
  | [] => []
  | (j, v) :: gs' => if (i =? j)%nat then v else group_in gs' i
  end.

Definition group (m : mstate) (i : nat) : str := group_in (m_groups m) i.

Fixpoint seq_of (rs : list re) (last : re) : re :=
  match rs with
  | [] => last
  | r :: rs' => Seq r (seq_of rs' last)
  end.

(** LOG_PREFIX_RE, the pattern  ^ \[ (\d+) ms \] \s* ( .* ) $  (written
    here with blanks between its parts). *)
Definition LOG_PREFIX_RE : re :=
  seq_of [Bol; Lit "["; Group 1 (Plus is_digit); Lit "m"; Lit "s"; Lit "]";
          Star is_space; Group 2 (Star is_dot)] Eol.

(** MODULE_RE, the pattern  ^ \s* \[ ([^\]]+) \] \s* ( .* ) $ . *)
Definition MODULE_RE : re :=
  seq_of [Bol; Star is_space; Lit "["; Group 1 (Plus not_rbracket); Lit "]";
          Star is_space; Group 2 (Star is_dot)] Eol.

(** EMBEDDED_LOG_PREFIX_RE, the pattern  \[ (\d+) ms \] . *)
Definition EMBEDDED_LOG_PREFIX_RE : re :=
  seq_of [Lit "["; Group 1 (Plus is_digit); Lit "m"; Lit "s"] (Lit "]").

(** ** The log line decoder *)

Record LogEvent : Type := mkLogEvent {
  t_ms : Z;
  module : str;
  message : str;
  raw : str
}.

(** [line.startswith(CR)] *)
Definition startswith_cr (line : str) : bool :=
  match line with
  | c :: _ => Ascii.eqb c CR
  | [] => false
  end.

(** [line.lstrip(CR)]: every leading carriage return goes. *)
Fixpoint lstrip_cr (line : str) : str :=
  match line with
  | c :: line' => if Ascii.eqb c CR then lstrip_cr line' else line
  | [] => []
  end.

Definition parse_log_line (line : str) : option LogEvent :=
  let line := if startswith_cr line then lstrip_cr line else line in
  match re_match LOG_PREFIX_RE line with
  | None => None
  | Some m =>
      let t := int_of_digits (group m 1) in
      let rest := group m 2 in
      match re_match MODULE_RE rest with
      | Some mm => Some (mkLogEvent t (group mm 1) (group mm 2) line)
      | None => Some (mkLogEvent t [] rest line)
      end
  end.

(** ** Line-splicing repair *)

(** [text.splitlines()]: lines without their terminators; CR LF is one
    boundary, and no empty last line is produced after a final boundary. *)
Fixpoint splitlines_aux (cur : str) (text : str) : list str :=
  match text with
  | [] => match cur with [] => [] | _ => [cur] end
  | c :: text' =>
      if Ascii.eqb c CR then
        match text' with
        | c2 :: text'' =>
            if Ascii.eqb c2 LF
            then cur :: splitlines_aux [] text''
            else cur :: splitlines_aux [] text'
        | [] => [cur]
        end
      else if is_linebreak c then cur :: splitlines_aux [] text'
      else splitlines_aux (cur ++ [c]) text'
  end.

Definition splitlines (text : str) : list str := splitlines_aux [] text.

(** [pattern.finditer(line)]: the non-overlapping matches from left to
    right, each with the offset it starts at.  [skip] counts the characters
    still covered by the previous match.  (None of the patterns here
    matches the empty string, so nothing is tried at the end of the
    subject.) *)
Fixpoint finditer_aux (r : re) (rest : str) (p skip : nat)
    : list (nat * mstate) :=
  match rest with
  | [] => []
  | _ :: rest' =>
      match skip with
      | S skip' => finditer_aux r rest' (S p) skip'
      | O =>
          match rmatch r (MState p rest []) Some with
          | Some m => (p, m) :: finditer_aux r rest' (S p) (m_pos m - p - 1)
          | None => finditer_aux r rest' (S p) 0
          end
      end
  end.

Definition finditer (r : re) (line : str) : list (nat * mstate) :=
  finditer_aux r line 0 0.

(** [m.start()] *)
Definition m_start (m : nat * mstate) : nat := fst m.

(** [line[a:b]] for [0 <= a], [0 <= b]. *)
Definition slice (line : str) (a b : nat) : str := take (b - a) (drop a line).

(** The [for i, m in enumerate(matches)] loop, over the start offsets. *)
Fixpoint chunks (line : str) (starts : list nat) : list str :=
  match starts with
  | [] => []
  | a :: rest =>
      let b := match rest with b :: _ => b | [] => length line end in
      let chunk := slice line a b in
      match chunk with
      | [] => chunks line rest
      | _ => chunk :: chunks line rest
      end
  end.

(** The body of [for line in text.splitlines()]: what one physical line
    adds to [out]. *)
Definition split_line (line : str) : list str :=
  let matches := finditer EMBEDDED_LOG_PREFIX_RE line in
  if (length matches <=? 1)%nat then [line]
  else
    match matches with
    | m0 :: _ =>
        if negb (m_start m0 =? 0)%nat then [line]
        else chunks line (map m_start matches)
    | [] => [line]
    end.

Definition split_embedded_timestamp_lines (text : str) : list str :=
  flat_map split_line (splitlines text).

(** ** The boot-window capture loop *)

(** The mutable locals of [read_boot_window_events], with the content of
    the file at [out_logs_txt_path] as the list of strings written to it. *)
Record capture : Type := mkCapture {
  boot_started : bool;
  boot_start_t_ms : option Z;
  last_t_ms : option Z;
  events : list LogEvent;
  raw_lines : list str;
  logs_txt : list str
}.

Definition boot_start_max_ms : Z := 3000.

(** The state before the loop: nothing seen, the logs file truncated. *)
Definition capture_init : capture := mkCapture false None None [] [] [].

(** [flush_raw()] *)
Definition flush_raw (st : capture) : capture :=
  match raw_lines st with
  | [] => st
  | _ =>
      mkCapture (boot_started st) (boot_start_t_ms st) (last_t_ms st)
        (events st) [] (logs_txt st ++ raw_lines st)
  end.

(** [if len(raw_lines) >= 200: flush_raw()] *)
Definition flush_if_full (st : capture) : capture :=
  if (200 <=? length (raw_lines st))%nat then flush_raw st else st.

(** The window test that closes the body of the [for] loop; the boolean
    tells whether [break] was executed. *)
Definition window_check (window_ms : Z) (ev : LogEvent) (st : capture)
    : capture * bool :=
  match boot_start_t_ms st with
  | Some b =>
      if (window_ms <=? t_ms ev - b) then (flush_raw st, true) else (st, false)
  | None => (st, false)
  end.

(** One pass through the body of [for line in split_embedded_timestamp_lines(text)].
    The boolean is [true] when the pass ends in [break], [false] when it
    ends normally or in [continue]. *)
Definition process_line (window_ms : Z) (triggered_reboot : bool)
    (st : capture) (line : str) : capture * bool :=
  let st1 :=
    mkCapture (boot_started st) (boot_start_t_ms st) (last_t_ms st)
      (events st) (raw_lines st ++ [line ++ [LF]]) (logs_txt st) in
  match parse_log_line line with
  | None => (flush_if_full st1, false)
  | Some ev =>
      if negb (boot_started st1) then
        if triggered_reboot && (boot_start_max_ms <? t_ms ev) then
          (mkCapture (boot_started st1) (boot_start_t_ms st1) (Some (t_ms ev))
             (events st1) (raw_lines st1) (logs_txt st1), false)
        else
          window_check window_ms ev
            (mkCapture true (Some (t_ms ev)) (Some (t_ms ev))
               (events st1 ++ [ev]) (raw_lines st1) (logs_txt st1))
      else
        let st2 :=
          match last_t_ms st1 with
          | Some l =>
              if (t_ms ev + 5000 <? l)
              then mkCapture (boot_started st1) (Some (t_ms ev)) (last_t_ms st1)
                     [] (raw_lines st1) (logs_txt st1)
              else st1
          | None => st1
          end in
        window_check window_ms ev
          (mkCapture (boot_started st2) (boot_start_t_ms st2) (Some (t_ms ev))
             (events st2 ++ [ev]) (raw_lines st2) (logs_txt st2))
  end.

(** The [for] loop over the logical lines of one read. *)
Fixpoint process_lines (window_ms : Z) (triggered_reboot : bool)
    (st : capture) (lines : list str) : capture :=
  match lines with
  | [] => st
  | line :: lines' =>
      match process_line window_ms triggered_reboot st line with
      | (st', true) => st'
      | (st', false) => process_lines window_ms triggered_reboot st' lines'
      end
  end.

(** What one turn of [while True] meets: the clock at the loop guard and
    the result of [src.readline()]. *)
Inductive tick : Type :=
| Deadline                      (* time.time() >= deadline_wall *)
| NoData                        (* readline() returned no bytes *)
| Data (text : str)             (* readline() returned bytes; [text] is their decoding *)
| Disconnected (reconnected : bool).
                                (* readline() raised; the port came back within
                                   the grace period, or did not *)

Inductive outcome : Type :=
| Returned                      (* [return events] *)
| Raised.                       (* the transport error was re-raised *)

(** The [while True] loop over a script of turns.  A script that ends
    without [Deadline] is cut at the deadline. *)
Fixpoint capture_loop (window_ms : Z) (triggered_reboot : bool)
    (st : capture) (script : list tick) : outcome * capture * list tick :=
  match script with
  | [] => (Returned, flush_raw st, [])
  | Deadline :: rest => (Returned, flush_raw st, rest)
  | NoData :: rest =>
      capture_loop window_ms triggered_reboot (flush_raw st) rest
  | Data text :: rest =>
      let st' :=
        process_lines window_ms triggered_reboot st
          (split_embedded_timestamp_lines text) in
      capture_loop window_ms triggered_reboot (flush_if_full st') rest
  | Disconnected true :: rest =>
      capture_loop window_ms triggered_reboot (flush_raw st) rest
  | Disconnected false :: rest => (Raised, flush_raw st, rest)
  end.

(** [read_boot_window_events]: the outcome, the final state (its [events]
    are the returned list) and the turns of the script never reached. *)
Definition read_boot_window_events (window_ms : Z) (triggered_reboot : bool)
    (script : list tick) : outcome * capture * list tick :=
  capture_loop window_ms triggered_reboot capture_init script.

(** ** Python values, errors and sorting *)

Inductive pyerr : Type :=
| ValueError (msg : string)
| TypeError
| OverflowError
| IndexError.

(** Results of code that may raise. *)
Abbreviation result := (sum pyerr).

#[export] Instance result_ret : MRet result := fun _ x => inr x.
#[export] Instance result_bind : MBind result :=
  fun _ _ f m => match m with inl e => inl e | inr x => f x end.

Definition is_ok {A : Type} (r : result A) : bool :=
  match r with inr _ => true | inl _ => false end.

(** [sorted(l, key=key)] and [l.sort(key=key)]: the stable sort, as the
    insertion of each element before the first one with a key that is not
    smaller. *)
Fixpoint insert_by {A : Type} (key : A -> Z) (x : A) (l : list A) : list A :=
  match l with
  | [] => [x]
  | y :: l' => if (key x <=? key y) then x :: l else y :: insert_by key x l'
  end.

Fixpoint sorted_by {A : Type} (key : A -> Z) (l : list A) : list A :=
  match l with
  | [] => []
  | x :: l' => insert_by key x (sorted_by key l')
  end.

(** A value of a decoded JSON document.  A float is kept as what [int()]
    makes of it: its truncation, or nothing for nan and the infinities. *)
#[warnings="-register-all"] Inductive json : Type :=
| JNull
| JBool (b : bool)
| JInt (n : Z)
| JFloat (trunc : option Z)
| JStr (v : str)
| JList (items : list json)
| JDict (items : list (string * json)).

(** The leading white space of [v], as [\s*] takes it. *)
Fixpoint lstrip_space (v : str) : str :=
  match v with
  | c :: v' => if is_space c then lstrip_space v' else v
  | [] => []
  end.

(** The white space [int()] strips from a string: the C white space
    (9-13, 32) and, beyond ASCII, 133 and 160; not 28-31. *)
Definition is_int_space (c : ascii) : bool :=
  (((9 <=? code c) && (code c <=? 13)) || (code c =? 32)
   || (code c =? 133) || (code c =? 160))%nat.

Fixpoint lstrip_int_space (v : str) : str :=
  match v with
  | c :: v' => if is_int_space c then lstrip_int_space v' else v
  | [] => []
  end.

Definition strip_int_space (v : str) : str :=
  rev (lstrip_int_space (rev (lstrip_int_space v))).

(** The digits of a decimal literal, with single underscores between them. *)
Fixpoint digits_value (after_digit : bool) (v : str) (acc : Z) : option Z :=
  match v with
  | [] => if after_digit then Some acc else None
  | c :: v' =>
      if is_digit c then digits_value true v' (10 * acc + digit_val c)
      else if Ascii.eqb c "_"
           then (if after_digit then digits_value false v' acc else None)
           else None
  end.

(** [int(v)] for a string. *)
Definition int_of_str (v : str) : result Z :=
  let body := strip_int_space v in
  let parsed :=
    match body with
    | c :: body' =>
        if Ascii.eqb c "-" then Z.opp <$> digits_value false body' 0
        else if Ascii.eqb c "+" then digits_value false body' 0
        else digits_value false body 0
    | [] => None
    end in
  match parsed with
  | Some n => inr n
  | None => inl (ValueError "invalid literal for int() with base 10")
  end.

(** [int(x)] for a value of a JSON document. *)
Definition py_int (x : json) : result Z :=
  match x with
  | JInt n => inr n
  | JBool b => inr (if b then 1 else 0)
  | JFloat (Some n) => inr n
  | JFloat None => inl OverflowError
  | JStr v => int_of_str v
  | JNull | JList _ | JDict _ => inl TypeError
  end.

(** ** The health history parser *)

Record HealthSample : Type := mkHealthSample {
  uptime_ms : Z;
  cpu_usage : option Z;
  heap_internal_free : Z;
  heap_internal_largest : Z;
  psram_free : Z
}.

(** The local function [arr] of [parse_health_history]. *)
Definition arr (hist : gmap string json) (n : nat) (name : string)
    : result (list json) :=
  match hist !! name with
  | Some (JList v) =>
      if (length v =? n)%nat then inr v
      else inl (ValueError ("health history missing " +:+ name +:+ "[] or length mismatch"))
  | _ => inl (ValueError ("health history missing " +:+ name +:+ "[] or length mismatch"))
  end.

(** [cpu]: the cpu_usage array, or [[None] * n] when it is not a list of
    length [n]. *)
Definition cpu_column (hist : gmap string json) (n : nat) : list json :=
  match hist !! "cpu_usage" with
  | Some (JList v) => if (length v =? n)%nat then v else replicate n JNull
  | _ => replicate n JNull
  end.

(** [l[i]] *)
Definition item {A : Type} (l : list A) (i : nat) : result A :=
  match l !! i with
  | Some x => inr x
  | None => inl IndexError
  end.

(** The body of [for i in range(n)]: the sample built at index [i]. *)
Definition sample_at (uptime cpu heap_free largest psram : list json) (i : nat)
    : result HealthSample :=
  u ← item uptime i;
  t ← py_int u;
  c ← item cpu i;
  let c_int :=
    match c with
    | JNull => None
    | _ => match py_int c with inr n => Some n | inl _ => None end
    end in
  hf ← item heap_free i;
  f ← py_int hf;
  lg ← item largest i;
  l ← py_int lg;
  ps ← item psram i;
  p ← py_int ps;
  mret (mkHealthSample t c_int f l p).

(** The loop [for i in range(n)] from index [i] on, [count] turns. *)
Fixpoint samples_from (body : nat -> result HealthSample) (i count : nat)
    : result (list HealthSample) :=
  match count with
  | O => inr []
  | S count' =>
      x ← body i;
      rest ← samples_from body (S i) count';
      mret (x :: rest)
  end.

Definition parse_health_history (hist : gmap string json)
    : result (list HealthSample) :=
  match hist !! "uptime_ms" with
  | Some (JList uptime) =>
      let n := length uptime in
      let cpu := cpu_column hist n in
      heap_free ← arr hist n "heap_internal_free";
      largest ← arr hist n "heap_internal_largest";
      psram ← arr hist n "psram_free";
      samples ← samples_from (sample_at uptime cpu heap_free largest psram) 0 n;
      mret (sorted_by uptime_ms samples)
  | _ => inl (ValueError "health history missing uptime_ms[]")
  end.

(** ** The event/sample join *)

(** The inner [while] of [join_events_to_samples]; [fuel] bounds its
    turns, and [length samples] turns are always enough. *)
Fixpoint advance (samples : list HealthSample) (t : Z) (fuel idx : nat) : nat :=
  match fuel with
  | O => idx
  | S fuel' =>
      match samples !! (idx + 1)%nat with
      | Some sm =>
          if (uptime_ms sm <=? t) then advance samples t fuel' (idx + 1)%nat
          else idx
      | None => idx
      end
  end.

(** The [for ev in sorted(events, ...)] loop with its cursor. *)
Fixpoint join_loop (samples : list HealthSample) (evs : list LogEvent)
    (samples_idx : nat) : list (LogEvent * option HealthSample) :=
  match evs with
  | [] => []
  | ev :: evs' =>
      let idx := advance samples (t_ms ev) (length samples) samples_idx in
      let row :=
        match samples !! idx with
        | Some sm => if (uptime_ms sm <=? t_ms ev) then (ev, Some sm) else (ev, None)
        | None => (ev, None)
        end in
      row :: join_loop samples evs' idx
  end.

Definition join_events_to_samples (events : list LogEvent)
    (samples : list HealthSample) : list (LogEvent * option HealthSample) :=
  match samples with
  | [] => map (fun e => (e, None)) events
  | _ => join_loop samples (sorted_by t_ms events) 0
  end.

(** ** The joined table *)



Definition COMMA : ascii := ","%char.
Definition DQUOTE : ascii := "034"%char.

(** [str(n)] for an [int]. *)
Definition str_int (n : Z) : str :=
  list_ascii_of_string (NilZero.string_of_int (Z.to_int n)).

(** A value handed to [writerow]. *)
Inductive cell : Type :=
| CInt (n : Z)
| CStr (v : str).

(** The text [csv.writer] makes of a value: a string as it is, anything
    else through [str()]. *)
Definition cell_text (c : cell) : str :=
  match c with
  | CInt n => str_int n
  | CStr v => v
  end.

(** The characters that make the writer quote a field (QUOTE_MINIMAL):
    the delimiter, the quote character and the characters of the line
    terminator. *)
Definition needs_quote (c : ascii) : bool :=
  Ascii.eqb c COMMA || Ascii.eqb c DQUOTE || Ascii.eqb c CR || Ascii.eqb c LF.

(** The field body, every quote character doubled. *)
Fixpoint csv_escape (v : str) : str :=
  match v with
  | [] => []
  | c :: v' =>
      if Ascii.eqb c DQUOTE then DQUOTE :: DQUOTE :: csv_escape v'
      else c :: csv_escape v'
  end.

Definition csv_field (v : str) : str :=
  if existsb needs_quote v then DQUOTE :: csv_escape v ++ [DQUOTE] else v.

Fixpoint csv_join (fields : list str) : str :=
  match fields with
  | [] => []
  | [f] => csv_field f
  | f :: rest => csv_field f ++ COMMA :: csv_join rest
  end.

(** What [writerow] writes for the texts of a row: the fields joined by
    commas, then CR LF; a row of one empty field is written as a pair of
    quotes. *)
Definition csv_record (fields : list str) : str :=
  match fields with
  | [[]] => [DQUOTE; DQUOTE; CR; LF]
  | _ => csv_join fields ++ [CR; LF]
  end.

Definition writerow (row : list cell) : str := csv_record (map cell_text row).

Definition overlay_header : list cell :=
  map (fun x => CStr (txt x))
    ["log_t_ms"; "sample_uptime_ms"; "heap_internal_free";
     "heap_internal_largest"; "psram_free"; "cpu_usage"; "module"; "message"]%string.

(** The list handed to [writerow] for one joined row. *)
Definition overlay_row (r : LogEvent * option HealthSample) : list cell :=
  let (ev, sm) := r in
  match sm with
  | None =>
      [CInt (t_ms ev); CStr []; CStr []; CStr []; CStr []; CStr [];
       CStr (module ev); CStr (message ev)]
  | Some sm =>
      [CInt (t_ms ev); CInt (uptime_ms sm); CInt (heap_internal_free sm);
       CInt (heap_internal_largest sm); CInt (psram_free sm);
       match cpu_usage sm with None => CStr [] | Some c => CInt c end;
       CStr (module ev); CStr (message ev)]
  end.

(** [write_overlay_csv]: the content of the file it leaves at [path]. *)
Definition write_overlay_csv (joined : list (LogEvent * option HealthSample))
    : str :=
  writerow overlay_header ++ flat_map (fun r => writerow (overlay_row r)) joined.

(** *** Reading the table back

    The repository only writes the table.  Reading it back is taken to be
    the standard library's side of the same module: [csv.reader] with the
    default dialect over the file opened with [newline=''], as the [csv]
    documentation prescribes.  The reader's limit on the length of a field
    is not modelled. *)

(** The lines of a text file opened with [newline='']: a line ends after
    LF, after CR LF, or after a CR alone, and keeps its terminator. *)
Fixpoint file_lines_aux (cur : str) (text : str) : list str :=
  match text with
  | [] => match cur with [] => [] | _ => [cur] end
  | c :: text' =>
      if Ascii.eqb c LF then (cur ++ [LF]) :: file_lines_aux [] text'
      else if Ascii.eqb c CR then
        match text' with
        | c2 :: text'' =>
            if Ascii.eqb c2 LF
            then (cur ++ [CR; LF]) :: file_lines_aux [] text''
            else (cur ++ [CR]) :: file_lines_aux [] text'
        | [] => [cur ++ [CR]]
        end
      else file_lines_aux (cur ++ [c]) text'
  end.

Definition file_lines (text : str) : list str := file_lines_aux [] text.

(** The states of the reader that the default dialect can reach (it has
    no escape character). *)
Inductive ParserState : Type :=
| START_RECORD
| START_FIELD
| IN_FIELD
| IN_QUOTED_FIELD
| QUOTE_IN_QUOTED_FIELD
| EAT_CRNL.

Record Reader : Type := mkReader {
  state : ParserState;
  field : str;
  fields : list str
}.

Definition set_state (st : ParserState) (rd : Reader) : Reader :=
  mkReader st (field rd) (fields rd).

Definition parse_add_char (rd : Reader) (c : ascii) : Reader :=
  mkReader (state rd) (field rd ++ [c]) (fields rd).

Definition parse_save_field (rd : Reader) : Reader :=
  mkReader (state rd) [] (fields rd ++ [field rd]).

(** [parse_reset] *)
Definition reader_reset : Reader := mkReader START_RECORD [] [].

Definition is_nl (c : ascii) : bool := Ascii.eqb c LF || Ascii.eqb c CR.

(** The START_FIELD case, which START_RECORD falls through to. *)
Definition start_field (rd : Reader) (c : option ascii) : option Reader :=
  match c with
  | None => Some (set_state START_RECORD (parse_save_field rd))
  | Some ch =>
      if is_nl ch then Some (set_state EAT_CRNL (parse_save_field rd))
      else if Ascii.eqb ch DQUOTE then Some (set_state IN_QUOTED_FIELD rd)
      else if Ascii.eqb ch COMMA then Some (parse_save_field rd)
      else Some (set_state IN_FIELD (parse_add_char rd ch))
  end.

(** [parse_process_char] for the default dialect; [None] as input is the
    end-of-line mark fed after each line, [None] as result an error. *)
Definition parse_process_char (rd : Reader) (c : option ascii) : option Reader :=
  match state rd with
  | START_RECORD =>
      match c with
      | None => Some rd
      | Some ch =>
          if is_nl ch then Some (set_state EAT_CRNL rd)
          else start_field (set_state START_FIELD rd) c
      end
  | START_FIELD => start_field rd c
  | IN_FIELD =>
      match c with
      | None => Some (set_state START_RECORD (parse_save_field rd))
      | Some ch =>
          if is_nl ch then Some (set_state EAT_CRNL (parse_save_field rd))
          else if Ascii.eqb ch COMMA
               then Some (set_state START_FIELD (parse_save_field rd))
               else Some (parse_add_char rd ch)
      end
  | IN_QUOTED_FIELD =>
      match c with
      | None => Some rd
      | Some ch =>
          if Ascii.eqb ch DQUOTE then Some (set_state QUOTE_IN_QUOTED_FIELD rd)
          else Some (parse_add_char rd ch)
      end
  | QUOTE_IN_QUOTED_FIELD =>
      match c with
      | None => Some (set_state START_RECORD (parse_save_field rd))
      | Some ch =>
          if Ascii.eqb ch DQUOTE
          then Some (set_state IN_QUOTED_FIELD (parse_add_char rd ch))
          else if Ascii.eqb ch COMMA
               then Some (set_state START_FIELD (parse_save_field rd))
               else if is_nl ch
                    then Some (set_state EAT_CRNL (parse_save_field rd))
                    else Some (set_state IN_FIELD (parse_add_char rd ch))
      end
  | EAT_CRNL =>
      match c with
      | None => Some (set_state START_RECORD rd)
      | Some ch => if is_nl ch then Some rd else None
      end
  end.

(** The characters of one line, then the end-of-line mark. *)
Fixpoint feed (rd : Reader) (line : str) : option Reader :=
  match line with
  | [] => Some rd
  | c :: line' => rd' ← parse_process_char rd (Some c); feed rd' line'
  end.

Definition feed_line (rd : Reader) (line : str) : option Reader :=
  rd' ← feed rd line; parse_process_char rd' None.

(** [list(csv.reader(lines))]: a record is complete when a line leaves the
    reader in START_RECORD; at the end of the input an open quoted field
    or a pending field still gives a last record. *)
Fixpoint read_rows (rd : Reader) (lines : list str) : option (list (list str)) :=
  match lines with
  | [] =>
      match state rd, field rd with
      | IN_QUOTED_FIELD, _ | _, _ :: _ => Some [fields (parse_save_field rd)]
      | _, [] => Some []
      end
  | line :: rest =>
      rd' ← feed_line rd line;
      match state rd' with
      | START_RECORD => rows ← read_rows reader_reset rest; Some (fields rd' :: rows)
      | _ => read_rows rd' rest
      end
  end.

Definition csv_reader (lines : list str) : option (list (list str)) :=
  read_rows reader_reset lines.

(** Reading back the content of the table file. *)
Definition read_overlay_csv (content : str) : option (list (list str)) :=
  csv_reader (file_lines content).

(** ** The report: log context, top drops and minima *)

(** [bisect_right(a, x)]: the binary search of the [bisect] module.  Each
    turn shortens the interval, so [length a] turns are enough. *)
Fixpoint bisect_right_loop (a : list Z) (x : Z) (fuel lo hi : nat) : nat :=
  match fuel with
  | O => lo
  | S fuel' =>
      if (lo <? hi)%nat then
        let mid := ((lo + hi) / 2)%nat in
        match a !! mid with
        | Some am =>
            if (x <? am) then bisect_right_loop a x fuel' lo mid
            else bisect_right_loop a x fuel' (mid + 1)%nat hi
        | None => lo
        end
      else lo
  end.

Definition bisect_right (a : list Z) (x : Z) : nat :=
  bisect_right_loop a x (length a) 0 (length a).

(** [_event_context_lines(events_sorted, t_ms, before, after)]; the
    comprehension over [range(start, end)] is the slice of the events from
    [start] to [end]. *)
Definition _event_context_lines (events_sorted : list LogEvent) (t : Z)
    (before after : Z) : list str :=
  match events_sorted with
  | [] => []
  | _ =>
      let times := map t_ms events_sorted in
      let idx := Z.of_nat (bisect_right times t) - 1 in
      let idx := if idx <? 0 then 0 else idx in
      let start := Z.max 0 (idx - before) in
      let stop := Z.min (Z.of_nat (length events_sorted)) (idx + after + 1) in
      map raw (take (Z.to_nat (stop - start)) (drop (Z.to_nat start) events_sorted))
  end.

(** The turn [i] of the loop of [build_boot_summary] that collects the
    drops: the pair (delta, index) when the internal free heap fell from
    sample [i - 1] to sample [i]. *)
Definition drop_at (samples_sorted : list HealthSample) (i : nat)
    : list (Z * nat) :=
  match samples_sorted !! i, samples_sorted !! (i - 1)%nat with
  | Some cur, Some prev =>
      let delta := heap_internal_free cur - heap_internal_free prev in
      if delta <? 0 then [(delta, i)] else []
  | _, _ => []
  end.

(** [drops] of [build_boot_summary], after [drops.sort(key=lambda x: x[0])]. *)
Definition sorted_drops (samples_sorted : list HealthSample) : list (Z * nat) :=
  sorted_by fst
    (flat_map (drop_at samples_sorted) (seq 1 (length samples_sorted - 1))).

(** The drops that the section Top Drops of [build_boot_summary] goes
    through, [drops[: max(1, int(top_n))]] over the samples sorted by
    uptime; none when there is no sample (the summary ends before).  The
    text made of them is not modelled (it formats floating-point numbers). *)
Definition top_drops (samples : list HealthSample) (top_n : Z) : list (Z * nat) :=
  match samples with
  | [] => []
  | _ =>
      take (Z.to_nat (Z.max 1 top_n)) (sorted_drops (sorted_by uptime_ms samples))
  end.

(** [min(l, key=key)] on a list with first element [x]: the first element
    of smallest key. *)
Fixpoint min_from {A : Type} (key : A -> Z) (x : A) (l : list A) : A :=
  match l with
  | [] => x
  | y :: l' => min_from key (if key y <? key x then y else x) l'
  end.

(** [min_heap_sample] and [min_largest_sample] of [build_boot_summary]:
    [min(samples_sorted, key=...)] for the two keys; nothing when there is
    no sample (the summary ends before the section Minimums). *)
Definition summary_minima (samples : list HealthSample)
    : option (HealthSample * HealthSample) :=
  match samples with
  | [] => None
  | _ =>
      match sorted_by uptime_ms samples with
      | x :: l =>
          Some (min_from heap_internal_free x l,
                min_from heap_internal_largest x l)
      | [] => None
      end
  end.

(** ** The colours of the modules in the plot *)

Definition palette : list string :=
  ["#1f77b4"; "#ff7f0e"; "#2ca02c"; "#d62728"; "#9467bd"; "#8c564b";
   "#e377c2"; "#7f7f7f"; "#bcbd22"; "#17becf"]%string.

(** The variables [module_to_color] and [next_color] that the local
    function [color_for_module] of [_maybe_write_plot_html] updates. *)
Record colors : Type := mkColors {
  module_to_color : gmap str string;
  next_color : nat
}.

Definition colors_init : colors := mkColors ∅ 0.

(** [module.strip()]: white space off both ends. *)
Definition strip (v : str) : str := rev (lstrip_space (rev (lstrip_space v))).

(** [module.strip() or '(none)'] *)
Definition color_key (module : str) : str :=
  match strip module with
  | [] => txt "(none)"
  | key => key
  end.

(** [color_for_module(module)]: the colour returned and the variables
    after the call. *)
Definition color_for_module (st : colors) (module : str) : string * colors :=
  let key := color_key module in
  match module_to_color st !! key with
  | Some c => (c, st)
  | None =>
      let c := nth (next_color st mod length palette) palette ""%string in
      (c, mkColors (<[key := c]> (module_to_color st)) (S (next_color st)))
  end.

(** [[color_for_module(e.module) for e in events_sorted]], over the
    modules of the events. *)
Fixpoint ev_colors_from (st : colors) (modules : list str) : list string :=
  match modules with
  | [] => []
  | m :: modules' =>
      let (c, st') := color_for_module st m in
      c :: ev_colors_from st' modules'
  end.

Definition ev_colors (modules : list str) : list string :=
  ev_colors_from colors_init modules.

(** ** The calls to the device, with their retries *)

(** [device_url.rstrip('/')] *)
Fixpoint lstrip_slash (v : str) : str :=
  match v with
  | c :: v' => if Ascii.eqb c "/" then lstrip_slash v' else v
  | [] => []
  end.

Definition rstrip_slash (v : str) : str := rev (lstrip_slash (rev v)).

(** The [url] of [http_post_reboot] and of [http_get_health_history]. *)
Definition reboot_url (device_url : str) : str :=
  rstrip_slash device_url ++ txt "/api/reboot".

Definition health_history_url (device_url : str) : str :=
  rstrip_slash device_url ++ txt "/api/health/history".

(** The errors of the calls are kept as their texts. *)
Abbreviation exn := string.

(** The loop of [http_post_reboot] from its turn [i] on, [count] turns
    left: [post i] is what the [i]-th call of
    [http_post_fire_and_forget] does, nothing or an exception.  The result
    is the number of calls made with, when every call failed, the value of
    [last_err] that the RuntimeError reports. *)
Fixpoint post_reboot_loop (post : nat -> option exn) (count i : nat)
    (last_err : option exn) : nat * option (option exn) :=
  match count with
  | O => (i, Some last_err)
  | S count' =>
      match post i with
      | None => (S i, None)
      | Some e => post_reboot_loop post count' (S i) (Some e)
      end
  end.

(** [http_post_reboot]: [range(retries)] is empty for a negative
    [retries]. *)
Definition http_post_reboot (post : nat -> option exn) (retries : Z)
    : nat * option (option exn) :=
  post_reboot_loop post (Z.to_nat retries) 0 None.

(** What one turn of the loop of [http_get_health_history] meets. *)
Inductive fetch : Type :=
| FetchRaised (e : exn)        (* the request or the decoding raised *)
| FetchUnavailable             (* a document that is not a dict with available true *)
| FetchAvailable (hist : gmap string json).

(** The loop of [http_get_health_history]; the result is the number of
    requests made and the document, or the value of [last_err] that the
    RuntimeError reports. *)
Fixpoint health_history_loop (get : nat -> fetch) (count i : nat)
    (last_err : option exn) : nat * (option exn + gmap string json) :=
  match count with
  | O => (i, inl last_err)
  | S count' =>
      match get i with
      | FetchAvailable hist => (S i, inr hist)
      | FetchUnavailable => health_history_loop get count' (S i) last_err
      | FetchRaised e => health_history_loop get count' (S i) (Some e)
      end
  end.

Definition http_get_health_history (get : nat -> fetch) (retries : Z)
    : nat * (option exn + gmap string json) :=
  health_history_loop get (Z.to_nat retries) 0 None.

(** ** The warning of an early boot lost *)

(** [try: int(v) except Exception: 0] *)
Definition int_or_zero (v : json) : Z :=
  match py_int v with
  | inr n => n
  | inl _ => 0
  end.

(** The truth value of a value of a JSON document.  A float is given by
    the integer it truncates to: one that truncates to 0 is taken as
    false, as 0.0 is; the others that do give 0 through [int] as well. *)
Definition truthy (v : json) : bool :=
  match v with
  | JNull => false
  | JBool b => b
  | JInt n => negb (n =? 0)
  | JFloat (Some 0) => false
  | JFloat _ => true
  | JStr v => match v with [] => false | _ => true end
  | JList l => match l with [] => false | _ => true end
  | JDict l => match l with [] => false | _ => true end
  end.

(** [period_ms] of [build_boot_summary]: [int(hist.get('period_ms') or 0)],
    0 when that raises. *)
Definition summary_period_ms (hist : gmap string json) : Z :=
  match hist !! "period_ms" with
  | Some v => int_or_zero (if truthy v then v else JInt 0)
  | None => int_or_zero (JInt 0)
  end.

(** [period_ms] of [main]: [int(p) if p is not None else 0], 0 when that
    raises. *)
Definition main_period_ms (hist : gmap string json) : Z :=
  match hist !! "period_ms" with
  | None | Some JNull => 0
  | Some v => int_or_zero v
  end.

(** [period_ms > 0 and oldest_ms > (period_ms * 10)] *)
Definition early_boot_lost (period_ms oldest_ms : Z) : bool :=
  (0 <? period_ms) && (period_ms * 10 <? oldest_ms).

(** Whether [build_boot_summary] writes its warning: [oldest_ms] is the
    uptime of [samples_sorted[0]]. *)
Definition summary_warning (hist : gmap string json)
    (samples : list HealthSample) : bool :=
  match samples with
  | [] => false
  | _ =>
      match sorted_by uptime_ms samples with
      | s0 :: _ => early_boot_lost (summary_period_ms hist) (uptime_ms s0)
      | [] => false
      end
  end.

(** Whether [main] prints its warning: [oldest_ms] is the uptime of
    [samples[0]]. *)
Definition main_warning (hist : gmap string json)
    (samples : list HealthSample) : bool :=
  match samples with
  | [] => false
  | s0 :: _ => early_boot_lost (main_period_ms hist) (uptime_ms s0)
  end.

(** ** The table of a run *)

(** What [main] does with the events of the capture and the history
    document: the content of overlay.csv, or the error of the parser. *)
Definition overlay_of (events : list LogEvent) (hist : gmap string json)
    : result str :=
  samples ← parse_health_history hist;
  mret (write_overlay_csv (join_events_to_samples events samples)).

(** * Vocabulary of the statements *)

(** ** Patterns and the decoder *)

(** The subject is exhausted, or its next character is outside [cls]. *)
Definition stops (cls : ascii -> bool) (r : str) : Prop :=
  match r with
  | [] => True
  | c :: _ => cls c = false
  end.

(** [l] starts with the timestamp prefix: an opening bracket, the decimal
    digits [ds], then ms and a closing bracket; [tail] is what follows. *)
Definition ts_prefix (l ds tail : str) : Prop :=
  l = "["%char :: ds ++ txt "ms]" ++ tail /\ ds <> [] /\
  forallb is_digit ds = true.

(** [body] starts with a bracketed module tag [md]; [msg] is what follows
    the closing bracket. *)
Definition module_tag (body md msg : str) : Prop :=
  body = "["%char :: md ++ "]"%char :: msg /\ md <> [] /\
  forallb not_rbracket md = true.

(** The spec's reading of the first step of the decoder: one leading
    carriage return is dropped, if there is one. *)
Definition strip_one_cr (line : str) : str :=
  match line with
  | c :: line' => if Ascii.eqb c CR then line' else line
  | [] => []
  end.

(** The value of a decimal number read from its first digit on, after the
    digits worth [acc]. *)
Fixpoint uint_val (d : Decimal.uint) (acc : Z) : Z :=
  match d with
  | Decimal.Nil => acc
  | Decimal.D0 d => uint_val d (10 * acc)
  | Decimal.D1 d => uint_val d (10 * acc + 1)
  | Decimal.D2 d => uint_val d (10 * acc + 2)
  | Decimal.D3 d => uint_val d (10 * acc + 3)
  | Decimal.D4 d => uint_val d (10 * acc + 4)
  | Decimal.D5 d => uint_val d (10 * acc + 5)
  | Decimal.D6 d => uint_val d (10 * acc + 6)
  | Decimal.D7 d => uint_val d (10 * acc + 7)
  | Decimal.D8 d => uint_val d (10 * acc + 8)
  | Decimal.D9 d => uint_val d (10 * acc + 9)
  end.

(** A line with two leading carriage returns. *)
Definition two_cr_line : str := CR :: CR :: txt "[5ms] x".

(** ** Samples of log lines and events *)

(** The event logged at uptime [t] with the message [msg] and no module
    tag, and the line it is decoded from. *)
Definition ev_at (t : Z) (msg : string) : LogEvent :=
  mkLogEvent t [] (txt msg) (txt "[" ++ str_int t ++ txt "ms] " ++ txt msg).

Definition line_at (t : Z) (msg : string) : str :=
  txt "[" ++ str_int t ++ txt "ms] " ++ txt msg.

(** ** Line-splicing repair *)

(** A timestamp prefix occurs in [line] at offset [i]. *)
Definition ts_at (line : str) (i : nat) : Prop :=
  exists ds tail, ts_prefix (drop i line) ds tail.

(** The spec's condition for the line-splicing repair: more than one
    timestamp prefix in the line, and the first of them at offset 0. *)
Definition spliced (line : str) : Prop :=
  ts_at line 0 /\ exists j, (0 < j)%nat /\ ts_at line j.

(** The sub-lines of [line] that start at the offsets [offs], each running
    to the next offset, the last one to the end of the line. *)
Fixpoint pieces (line : str) (offs : list nat) : list str :=
  match offs with
  | [] => []
  | a :: rest =>
      slice line a (match rest with b :: _ => b | [] => length line end)
      :: pieces line rest
  end.

(** The characters at which [str.splitlines] ends a line are the newline
    characters of the statements. *)
Definition no_newline (text : str) : Prop :=
  forallb (fun c => negb (is_linebreak c)) text = true.

(** ** The capture loop *)

(** Everything written to the logs file so far, with what is still
    buffered. *)
Definition raw_log (st : capture) : list str := logs_txt st ++ raw_lines st.

(** Timestamps that never step back by more than [slack] from one event
    to the next. *)
Fixpoint sorted_within (slack : Z) (evs : list LogEvent) : Prop :=
  match evs with
  | e1 :: (e2 :: _) as rest => t_ms e1 <= t_ms e2 + slack /\ sorted_within slack rest
  | _ => True
  end.

(** The states the capture loop passes through: the initial one, and the
    ones after each logical line and each flush. *)
Inductive reachable (window_ms : Z) (triggered_reboot : bool) : capture -> Prop :=
| reach_init : reachable window_ms triggered_reboot capture_init
| reach_line st line :
    reachable window_ms triggered_reboot st ->
    reachable window_ms triggered_reboot
      (fst (process_line window_ms triggered_reboot st line))
| reach_flush st :
    reachable window_ms triggered_reboot st ->
    reachable window_ms triggered_reboot (flush_raw st).

(** What the loop keeps true of its locals. *)
Definition capture_inv (st : capture) : Prop :=
  (boot_started st = false -> events st = [] /\ boot_start_t_ms st = None) /\
  (boot_started st = true ->
   exists evs e, events st = evs ++ [e] /\ last_t_ms st = Some (t_ms e) /\
                 boot_start_t_ms st <> None) /\
  sorted_within 5000 (events st).

(** A capture that started at uptime 48000 and last saw uptime 50000. *)
Definition late_capture : capture :=
  mkCapture true (Some 48000) (Some 50000)
    [ev_at 48000 "a"; ev_at 50000 "b"]
    [line_at 50000 "b" ++ [LF]] [line_at 48000 "a" ++ [LF]].

(** A turn of the loop that is neither the deadline nor a lost port. *)
Definition keeps_reading (tk : tick) : bool :=
  match tk with
  | Deadline | Disconnected false => false
  | NoData | Data _ | Disconnected true => true
  end.

(** Three reads, one second apart on the device clock, the second of them
    at the end of a window of 1000 ms. *)
Definition overrun_script : list tick :=
  [Data (line_at 0 "a" ++ [LF]); Data (line_at 1000 "b" ++ [LF]);
   Data (line_at 1100 "c" ++ [LF])].

(** Two reads, the second 4000 ms behind the first on the device clock. *)
Definition backstep_script : list tick :=
  [Data (line_at 6000 "a" ++ [LF]); Data (line_at 2000 "b" ++ [LF])].

(** ** Sorting and the join *)

(** [l] is in ascending order of [key]. *)
Definition ascending {A : Type} (key : A -> Z) (l : list A) : Prop :=
  Sorted (fun a b => key a <= key b) l.

(** The spec's nearest-previous pairing: [pick] is a sample of greatest
    uptime among those at or before [t], and it is nothing exactly when
    every sample is later than [t]. *)
Definition nearest_previous (samples : list HealthSample) (t : Z)
    (pick : option HealthSample) : Prop :=
  match pick with
  | Some sm =>
      sm ∈ samples /\ uptime_ms sm <= t /\
      forall sm', sm' ∈ samples -> uptime_ms sm' <= t ->
                  uptime_ms sm' <= uptime_ms sm
  | None => forall sm', sm' ∈ samples -> t < uptime_ms sm'
  end.

(** Two events out of timestamp order. *)
Definition unordered_events : list LogEvent := [ev_at 5 "late"; ev_at 3 "early"].

(** The samples of the spec's join example. *)
Definition spec_samples : list HealthSample :=
  [mkHealthSample 0 None 10000 9000 0; mkHealthSample 100 None 9000 8000 0;
   mkHealthSample 300 None 10500 9000 0].

(** ** The health history *)

(** The message of [arr] for the array [name]. *)
Definition arr_message (name : string) : string :=
  "health history missing " +:+ name +:+ "[] or length mismatch".

(** The field [name] of the document is not an array of [n] entries. *)
Definition not_array_of (hist : gmap string json) (n : nat) (name : string) : Prop :=
  forall v, hist !! name = Some (JList v) -> length v <> n.


(** A small well-formed document, three samples out of order; the same
    with a column one entry short; and the same without cpu_usage. *)
Definition sample_history : gmap string json :=
  list_to_map
    [("uptime_ms", JList [JInt 300; JInt 0; JInt 100]);
     ("cpu_usage", JList [JInt 12; JNull; JInt 40]);
     ("heap_internal_free", JList [JInt 10500; JInt 10000; JInt 9000]);
     ("heap_internal_largest", JList [JInt 9000; JInt 9000; JInt 8000]);
     ("psram_free", JList [JInt 0; JInt 0; JInt 0])].

Definition short_history : gmap string json :=
  <["psram_free" := JList [JInt 0; JInt 0]]> sample_history.

Definition no_cpu_history : gmap string json := delete "cpu_usage" sample_history.

(** ** The joined table *)

(** The texts of the rows of the table. *)
Definition overlay_texts (joined : list (LogEvent * option HealthSample))
    : list (list str) :=
  map cell_text overlay_header
  :: map (fun r => map cell_text (overlay_row r)) joined.

(** Two joined rows: an event before every sample, with a message that
    needs quoting, and an event paired with a sample. *)
Definition sample_joined : list (LogEvent * option HealthSample) :=
  [(mkLogEvent 5 (txt "Boot") (txt "a,b " ++ [DQUOTE] ++ txt "c" ++ [CR; LF] ++ txt "d") [],
    None);
   (mkLogEvent 250 [] (txt "ready") [],
    Some (mkHealthSample 100 None 9000 8000 0))].

(** Reading back: the reader [rd] with the unfinished line [cur], over the
    rest [text] of the file. *)
Definition run (rd : Reader) (cur text : str) : option (list (list str)) :=
  read_rows rd (file_lines_aux cur text).

(** [text] does not go on with a line feed. *)
Definition no_LF_next (text : str) : Prop :=
  match text with
  | c :: _ => Ascii.eqb c LF = false
  | [] => True
  end.

(** The ways a line ends, with what follows it. *)
Inductive line_end : str -> str -> Prop :=
| end_LF text : line_end [LF] text
| end_CRLF text : line_end [CR; LF] text
| end_CR text : no_LF_next text -> line_end [CR] text.

(** The reader stands at the start of a field, after the fields [fs] of
    the record. *)
Definition field_start (rd : Reader) (fs : list str) : Prop :=
  field rd = [] /\ fields rd = fs /\
  (state rd = START_FIELD \/ (state rd = START_RECORD /\ fs = [])).

(** The reader has taken the text of the field [v] that follows the
    fields [fs], and not yet what ends it. *)
Definition field_taken (rd : Reader) (fs : list str) (v : str) : Prop :=
  fields rd = fs /\
  ((state rd = IN_FIELD /\ field rd = v) \/
   (state rd = QUOTE_IN_QUOTED_FIELD /\ field rd = v) \/
   (field rd = [] /\ v = [] /\ state rd = START_FIELD) \/
   (field rd = [] /\ v = [] /\ state rd = START_RECORD /\ fs = [])).

(** ** The report *)

(** The last [n] elements of [l]. *)
Definition last_n {A : Type} (n : nat) (l : list A) : list A :=
  drop (length l - n) l.


(** ** The colours *)

(** The position of the first occurrence of [k] in [keys] (the length of
    [keys] when it does not occur). *)
Fixpoint first_index (k : str) (keys : list str) : nat :=
  match keys with
  | [] => 0
  | k' :: keys' => if decide (k' = k) then 0 else S (first_index k keys')
  end.

(** The number of distinct keys that occur before the first occurrence of
    [k]. *)
Definition rank (k : str) (keys : list str) : nat :=
  length (remove_dups (take (first_index k keys) keys)).

(** The colour of the key of rank [r]: the palette is taken round and
    round. *)
Definition colour_of_rank (r : nat) : string :=
  nth (r mod 10) palette ""%string.

(** The variables of [color_for_module] after the keys [done] have been
    asked for: a colour for each of them, by its rank. *)
Definition colors_inv (done : list str) (st : colors) : Prop :=
  next_color st = length (remove_dups done) /\
  forall k, module_to_color st !! k =
            if decide (k ∈ done) then Some (colour_of_rank (rank k done)) else None.

(** ** The capture as a whole *)

(** The locals of [read_boot_window_events] when it returns or raises. *)
Definition capture_result (window_ms : Z) (triggered_reboot : bool)
    (script : list tick) : capture :=
  snd (fst (read_boot_window_events window_ms triggered_reboot script)).

(** The lines [lines] as they stand in the logs file. *)
Definition logged (lines : list str) : list str :=
  map (fun l => l ++ [LF]) lines.

(** The events are the decodable lines of the end of the raw log, and
    the boot start is the time of the first of them. *)
Definition logged_inv (st : capture) : Prop :=
  boot_start_t_ms st = option_map t_ms (head (events st)) /\
  exists pre suf,
    raw_log st = pre ++ logged suf /\ events st = omap parse_log_line suf.

(** ** The documents that are accepted *)



(** The cpu usage read from an entry: unknown for null and for what
    [int] refuses. *)
Definition cpu_value (c : json) : option Z :=
  match c with
  | JNull => None
  | _ => match py_int c with inr n => Some n | inl _ => None end
  end.



(** A document with a cpu_usage array one entry short. *)
Definition short_cpu_history : gmap string json :=
  <["cpu_usage" := JList [JInt 12; JInt 40]]> sample_history.

(** ** The lines of the table *)

(** A text without carriage return and line feed. *)
Definition plain (v : str) : Prop := forallb (fun c => negb (is_nl c)) v = true.

(** A history document of period 100 ms whose samples start late. *)
Definition late_history : gmap string json :=
  list_to_map
    [("period_ms", JInt 100);
     ("uptime_ms", JList [JInt 5000; JInt 5100]);
     ("heap_internal_free", JList [JInt 10500; JInt 10000]);
     ("heap_internal_largest", JList [JInt 9000; JInt 9000]);
     ("psram_free", JList [JInt 0; JInt 0])].
(** * Properties *)

(** ** The matcher *)

Section Matcher.
Context {A : Type}.
Implicit Types (k : nat -> str -> option A) (cls : ascii -> bool).

(** A successful [cls*] consumed some run of [cls] and went on from there. *)
Lemma star_k_sound cls rest pos k x :
  star_k cls rest pos k = Some x ->
  exists w r', rest = w ++ r' /\ forallb cls w = true /\
               k (pos + length w)%nat r' = Some x.
Proof.
  revert pos; induction rest as [|c rest IH]; intros pos H; simpl in H.
  - exists [], []. rewrite Nat.add_0_r. auto.
  - destruct (cls c) eqn:Hc.
    + destruct (star_k cls rest (S pos) k) as [y|] eqn:Hs.
      * injection H as ->.
        destruct (IH _ Hs) as (w & r' & -> & Hw & Hk).
        exists (c :: w), r'. simpl. rewrite Hc, Hw.
        replace (pos + S (length w))%nat with (S pos + length w)%nat by lia.
        auto.
      * exists [], (c :: rest). rewrite Nat.add_0_r. auto.
    + exists [], (c :: rest). rewrite Nat.add_0_r. auto.
Qed.

(** When the continuation accepts the longest run, [cls*] takes it. *)
Lemma star_k_greedy cls w r' pos k x :
  forallb cls w = true -> stops cls r' ->
  k (pos + length w)%nat r' = Some x ->
  star_k cls (w ++ r') pos k = Some x.
Proof.
  revert pos; induction w as [|c w IH]; intros pos Hw Hr Hk; simpl in *.
  - rewrite Nat.add_0_r in Hk. destruct r' as [|c r']; simpl; [exact Hk|].
    simpl in Hr. rewrite Hr. exact Hk.
  - apply andb_prop in Hw as [Hc Hw]. rewrite Hc.
    rewrite (IH (S pos) Hw Hr); [reflexivity|].
    replace (S pos + length w)%nat with (pos + S (length w))%nat by lia.
    exact Hk.
Qed.
End Matcher.

(** ** Strings *)

Lemma lstrip_space_stops v : stops is_space (lstrip_space v).
Proof.
  induction v as [|c v IH]; simpl; [exact I|].
  destruct (is_space c) eqn:Hc; [exact IH|]. simpl. exact Hc.
Qed.

Lemma lstrip_space_split v :
  exists ws, v = ws ++ lstrip_space v /\ forallb is_space ws = true.
Proof.
  induction v as [|c v (ws & IH & Hws)]; simpl.
  - exists []. auto.
  - destruct (is_space c) eqn:Hc.
    + exists (c :: ws). simpl. rewrite Hc, Hws. split; [congruence|reflexivity].
    + exists []. auto.
Qed.

Lemma lstrip_space_stable v : stops is_space v -> lstrip_space v = v.
Proof. destruct v as [|c v]; simpl; [reflexivity|]. intros ->. reflexivity. Qed.

Lemma lstrip_space_app ws v :
  forallb is_space ws = true -> lstrip_space (ws ++ v) = lstrip_space v.
Proof.
  induction ws as [|c ws IH]; simpl; [reflexivity|].
  intros [Hc Hws]%andb_prop. rewrite Hc. auto.
Qed.

Lemma lstrip_cr_suffix line : exists crs, line = crs ++ lstrip_cr line.
Proof.
  induction line as [|c line [crs IH]]; simpl.
  - exists []. reflexivity.
  - destruct (Ascii.eqb c CR); [exists (c :: crs); simpl; congruence|].
    exists []. reflexivity.
Qed.

(** The two tests of [parse_log_line] on its argument amount to
    [lstrip_cr]. *)
Lemma strip_leading_cr line :
  (if startswith_cr line then lstrip_cr line else line) = lstrip_cr line.
Proof.
  destruct line as [|c line]; simpl; [reflexivity|].
  destruct (Ascii.eqb c CR); reflexivity.
Qed.

Lemma no_LF_is_dot v : LF ∉ v -> forallb is_dot v = true.
Proof.
  induction v as [|c v IH]; simpl; [reflexivity|]. intros H.
  apply not_elem_of_cons in H as [Hc Hv]. rewrite (IH Hv), andb_true_r.
  unfold is_dot. destruct (Ascii.eqb_spec c LF); [congruence|reflexivity].
Qed.

(** ** The patterns *)

#[local] Arguments Ascii.eqb : simpl never.

(** Character tests on a literal, by computation. *)
Ltac char_tests :=
  repeat match goal with
  | |- context [Ascii.eqb ?a ?b] =>
      let v := eval vm_compute in (Ascii.eqb a b) in
      match v with
      | true => change (Ascii.eqb a b) with true
      | false => change (Ascii.eqb a b) with false
      end
  end.

Lemma log_prefix_sound l m :
  re_match LOG_PREFIX_RE l = Some m -> exists ds tail, ts_prefix l ds tail.
Proof.
  unfold re_match, LOG_PREFIX_RE. simpl. intros H.
  destruct l as [|c0 l]; [discriminate|].
  destruct (Ascii.eqb_spec "[" c0) as [<-|]; [|discriminate].
  destruct l as [|d l]; [discriminate|].
  destruct (is_digit d) eqn:Hd; [|discriminate].
  apply star_k_sound in H as (w & r & -> & Hw & H). simpl in H.
  destruct r as [|c1 r]; [discriminate|].
  destruct (Ascii.eqb_spec "m" c1) as [<-|]; [|discriminate].
  destruct r as [|c2 r]; [discriminate|].
  destruct (Ascii.eqb_spec "s" c2) as [<-|]; [|discriminate].
  destruct r as [|c3 r]; [discriminate|].
  destruct (Ascii.eqb_spec "]" c3) as [<-|]; [|discriminate].
  exists (d :: w), r. unfold ts_prefix. simpl. rewrite Hd, Hw.
  split; [reflexivity|]. split; [discriminate|reflexivity].
Qed.

Lemma log_prefix_complete l ds tail :
  ts_prefix l ds tail -> LF ∉ tail ->
  exists m, re_match LOG_PREFIX_RE l = Some m /\ group m 1 = ds /\
            group m 2 = lstrip_space tail.
Proof.
  intros (-> & Hne & Hds) HLF.
  destruct ds as [|d ds]; [congruence|]. simpl in Hds.
  apply andb_prop in Hds as [Hd Hds].
  destruct (lstrip_space_split tail) as (ws & Htail & Hws).
  assert (Hbody : forallb is_dot (lstrip_space tail) = true).
  { apply no_LF_is_dot. intros Hin. apply HLF. rewrite Htail.
    apply elem_of_app. right. exact Hin. }
  eexists. split.
  - unfold re_match, LOG_PREFIX_RE. cbn [txt list_ascii_of_string]. simpl. char_tests. simpl. rewrite Hd.
    apply star_k_greedy; [exact Hds|reflexivity|]. simpl.
    rewrite Htail at 1.
    apply star_k_greedy; [exact Hws|apply lstrip_space_stops|].
    rewrite <- (app_nil_r (lstrip_space tail)) at 1.
    apply star_k_greedy; [exact Hbody|exact I|]. simpl. reflexivity.
  - unfold group. simpl. split.
    + replace (2 + length ds - 1)%nat with (S (length ds)) by lia.
      simpl. f_equal. apply take_app_length.
    + apply take_ge. lia.
Qed.

Lemma module_sound body mm :
  re_match MODULE_RE body = Some mm -> stops is_space body ->
  exists md msg, module_tag body md msg.
Proof.
  unfold re_match, MODULE_RE. simpl. intros H Hstop.
  apply star_k_sound in H as (ws & r & -> & Hws & H). simpl in H.
  destruct ws as [|c ws].
  2:{ simpl in Hstop, Hws. rewrite Hstop in Hws. discriminate. }
  simpl in *.
  destruct r as [|c0 r]; [discriminate|].
  destruct (Ascii.eqb_spec "[" c0) as [<-|]; [|discriminate].
  destruct r as [|d r]; [discriminate|].
  destruct (not_rbracket d) eqn:Hd; [|discriminate].
  apply star_k_sound in H as (w & r' & -> & Hw & H). simpl in H.
  destruct r' as [|c1 r']; [discriminate|].
  destruct (Ascii.eqb_spec "]" c1) as [<-|]; [|discriminate].
  exists (d :: w), r'. unfold module_tag. simpl. rewrite Hd, Hw.
  split; [reflexivity|]. split; [discriminate|reflexivity].
Qed.

Lemma module_complete body md msg :
  module_tag body md msg -> LF ∉ msg ->
  exists mm, re_match MODULE_RE body = Some mm /\ group mm 1 = md /\
             group mm 2 = lstrip_space msg.
Proof.
  intros (-> & Hne & Hmd) HLF.
  destruct md as [|d md]; [congruence|]. simpl in Hmd.
  apply andb_prop in Hmd as [Hd Hmd].
  destruct (lstrip_space_split msg) as (ws & Hmsg & Hws).
  assert (Hbody : forallb is_dot (lstrip_space msg) = true).
  { apply no_LF_is_dot. intros Hin. apply HLF. rewrite Hmsg.
    apply elem_of_app. right. exact Hin. }
  eexists. split.
  - unfold re_match, MODULE_RE. simpl. char_tests. simpl. rewrite Hd.
    apply star_k_greedy; [exact Hmd|reflexivity|]. simpl. char_tests.
    rewrite Hmsg at 1.
    apply star_k_greedy; [exact Hws|apply lstrip_space_stops|].
    rewrite <- (app_nil_r (lstrip_space msg)) at 1.
    apply star_k_greedy; [exact Hbody|exact I|]. simpl. reflexivity.
  - unfold group. simpl. split.
    + replace (2 + length md - 1)%nat with (S (length md)) by lia.
      simpl. f_equal. apply take_app_length.
    + apply take_ge. lia.
Qed.
(** ** Decimal numbers *)

Lemma digits_of_uint d acc :
  fold_left (fun a c => 10 * a + digit_val c)
    (list_ascii_of_string (NilEmpty.string_of_uint d)) acc = uint_val d acc.
Proof.
  revert acc; induction d; intros acc; simpl; try reflexivity;
    rewrite IHd; f_equal;
    match goal with
    | |- context [digit_val ?c] =>
        let v := eval vm_compute in (digit_val c) in
        change (digit_val c) with v
    end; lia.
Qed.

Lemma uint_val_of_lu d acc :
  uint_val d acc =
  Z.of_N (DecimalPos.Unsigned.of_lu (Decimal.rev d)) +
  acc * 10 ^ Z.of_N (DecimalPos.Unsigned.usize d).
Proof.
  revert acc; induction d; intros acc; simpl uint_val; simpl DecimalPos.Unsigned.usize.
  1: { simpl. lia. }
  all: unfold Decimal.rev at 1; simpl Decimal.revapp;
    match goal with
    | |- context [Decimal.revapp ?d0 (?f Decimal.Nil)] =>
        rewrite (DecimalPos.Unsigned.of_lu_revapp d0 (f Decimal.Nil))
    end;
    simpl DecimalPos.Unsigned.of_lu; rewrite IHd;
    rewrite N2Z.inj_succ, Z.pow_succ_r by lia;
    rewrite N2Z.inj_add, N2Z.inj_mul, N2Z.inj_pow; simpl Z.of_N; ring.
Qed.

Lemma int_of_digits_str_int n : 0 <= n -> int_of_digits (str_int n) = n.
Proof.
  intros Hn. destruct n as [|p|p]; [reflexivity| |lia].
  unfold int_of_digits, str_int. simpl Z.to_int. simpl NilZero.string_of_int.
  unfold NilZero.string_of_uint.
  pose proof (DecimalPos.Unsigned.to_uint_nonnil p) as Hnil.
  destruct (Pos.to_uint p) eqn:Hp; [congruence|..];
    rewrite <- Hp, digits_of_uint, uint_val_of_lu,
      <- DecimalPos.Unsigned.of_uint_alt, DecimalPos.Unsigned.of_to; simpl; lia.
Qed.

Lemma digits_of_uint_are_digits d :
  forallb is_digit (list_ascii_of_string (NilEmpty.string_of_uint d)) = true.
Proof. induction d; simpl; auto. Qed.

Lemma str_int_digits n :
  0 <= n -> str_int n <> [] /\ forallb is_digit (str_int n) = true.
Proof.
  intros Hn. destruct n as [|p|p]; [split; [discriminate|reflexivity]| |lia].
  unfold str_int. simpl Z.to_int. simpl NilZero.string_of_int.
  unfold NilZero.string_of_uint.
  pose proof (DecimalPos.Unsigned.to_uint_nonnil p) as Hnil.
  destruct (Pos.to_uint p) eqn:Hp; [congruence|..]; rewrite <- Hp;
    (split; [rewrite Hp; discriminate|apply digits_of_uint_are_digits]).
Qed.
(** ** The log line decoder *)

Example parse_plain :
  parse_log_line (txt "[100ms] hello") =
  Some (mkLogEvent 100 [] (txt "hello") (txt "[100ms] hello")).
Proof. reflexivity. Qed.

Example parse_module :
  parse_log_line (txt "[67696ms] [WiFi] connected ok") =
  Some (mkLogEvent 67696 (txt "WiFi") (txt "connected ok")
          (txt "[67696ms] [WiFi] connected ok")).
Proof. reflexivity. Qed.

Example parse_no_prefix : parse_log_line (txt "x[100ms] A") = None.
Proof. reflexivity. Qed.

Lemma no_LF_lstrip_space v : LF ∉ v -> LF ∉ lstrip_space v.
Proof.
  destruct (lstrip_space_split v) as (ws & Hv & _). intros H Hin. apply H.
  rewrite Hv. apply elem_of_app. right. exact Hin.
Qed.

Lemma no_LF_lstrip_cr line : LF ∉ line -> LF ∉ lstrip_cr line.
Proof.
  destruct (lstrip_cr_suffix line) as (crs & Hl). intros H Hin. apply H.
  rewrite Hl. apply elem_of_app. right. exact Hin.
Qed.

Lemma no_LF_ts_tail l ds tail : LF ∉ l -> ts_prefix l ds tail -> LF ∉ tail.
Proof.
  intros H (-> & _) Hin. apply H. apply elem_of_cons. right.
  apply elem_of_app. right. apply elem_of_app. right. exact Hin.
Qed.

Lemma no_LF_module_msg body md msg :
  LF ∉ body -> module_tag body md msg -> LF ∉ msg.
Proof.
  intros H (-> & _) Hin. apply H. apply elem_of_cons. right.
  apply elem_of_app. right. apply elem_of_cons. right. exact Hin.
Qed.

(** A decoded line starts with the timestamp prefix (any line). *)
Lemma parse_log_line_sound line ev :
  parse_log_line line = Some ev ->
  exists ds tail, ts_prefix (lstrip_cr line) ds tail.
Proof.
  unfold parse_log_line. rewrite strip_leading_cr.
  destruct (re_match LOG_PREFIX_RE (lstrip_cr line)) as [m|] eqn:Hm;
    [|discriminate].
  intros _. exact (log_prefix_sound _ _ Hm).
Qed.

(** C3 (amended): for a line without a line feed, after stripping ALL its
    leading carriage returns, [parse_log_line] returns a LogEvent exactly
    when the line starts with the timestamp prefix (decimal milliseconds,
    then ms, then a closing bracket).  The event carries the exact integer
    timestamp and the stripped line as [raw]; when a bracketed module tag
    follows the prefix (after optional white space), module and message
    are split at the bracket boundary, the message without its leading
    white space; otherwise module is empty and message is the whole
    remainder after the white space.  A line that does not start with
    the prefix decodes to nothing. *)
Theorem parse_log_line_decodes (line : str) :
  LF ∉ line ->
  (is_Some (parse_log_line line) <->
   exists ds tail, ts_prefix (lstrip_cr line) ds tail) /\
  (forall ds tail, ts_prefix (lstrip_cr line) ds tail ->
     exists ev, parse_log_line line = Some ev /\
       t_ms ev = int_of_digits ds /\
       (forall n, 0 <= n -> ds = str_int n -> t_ms ev = n) /\
       raw ev = lstrip_cr line /\
       (forall md msg, module_tag (lstrip_space tail) md msg ->
          module ev = md /\ message ev = lstrip_space msg) /\
       ((forall md msg, ~ module_tag (lstrip_space tail) md msg) ->
          module ev = [] /\ message ev = lstrip_space tail)) /\
  ((forall ds tail, ~ ts_prefix (lstrip_cr line) ds tail) ->
   parse_log_line line = None).
Proof.
  intros HLF.
  assert (Hmain : forall ds tail, ts_prefix (lstrip_cr line) ds tail ->
     exists ev, parse_log_line line = Some ev /\
       t_ms ev = int_of_digits ds /\
       (forall n, 0 <= n -> ds = str_int n -> t_ms ev = n) /\
       raw ev = lstrip_cr line /\
       (forall md msg, module_tag (lstrip_space tail) md msg ->
          module ev = md /\ message ev = lstrip_space msg) /\
       ((forall md msg, ~ module_tag (lstrip_space tail) md msg) ->
          module ev = [] /\ message ev = lstrip_space tail)).
  { intros ds tail Hpre.
    pose proof (no_LF_ts_tail _ _ _ (no_LF_lstrip_cr _ HLF) Hpre) as Htail.
    destruct (log_prefix_complete _ _ _ Hpre Htail) as (m & Hm & Hg1 & Hg2).
    unfold parse_log_line. rewrite strip_leading_cr, Hm, Hg1, Hg2.
    pose proof (no_LF_lstrip_space _ Htail) as Hbody.
    destruct (re_match MODULE_RE (lstrip_space tail)) as [mm|] eqn:Hmm.
    - eexists. split; [reflexivity|]. simpl.
      split; [reflexivity|]. split; [intros n Hn ->; apply int_of_digits_str_int, Hn|].
      split; [reflexivity|]. split.
      + intros md msg Htag.
        destruct (module_complete _ _ _ Htag (no_LF_module_msg _ _ _ Hbody Htag))
          as (mm' & Hmm' & H1 & H2).
        rewrite Hmm in Hmm'. injection Hmm' as <-. auto.
      + intros Hno.
        destruct (module_sound _ _ Hmm (lstrip_space_stops tail))
          as (md & msg & Htag).
        destruct (Hno _ _ Htag).
    - eexists. split; [reflexivity|]. simpl.
      split; [reflexivity|]. split; [intros n Hn ->; apply int_of_digits_str_int, Hn|].
      split; [reflexivity|]. split.
      + intros md msg Htag.
        destruct (module_complete _ _ _ Htag (no_LF_module_msg _ _ _ Hbody Htag))
          as (mm' & Hmm' & _).
        congruence.
      + auto. }
  split; [split|split].
  - intros [ev Hev]. exact (parse_log_line_sound _ _ Hev).
  - intros (ds & tail & Hpre).
    destruct (Hmain _ _ Hpre) as (ev & -> & _). eexists. reflexivity.
  - exact Hmain.
  - intros Hno. destruct (parse_log_line line) as [ev|] eqn:Hev; [|reflexivity].
    destruct (parse_log_line_sound _ _ Hev) as (ds & tail & Hpre).
    destruct (Hno _ _ Hpre).
Qed.

(** The theorem at the line [[67696ms] [WiFi] connected ok]. *)
Lemma parse_log_line_decodes_witness :
  (LF ∉ txt "[67696ms] [WiFi] connected ok") /\
  (is_Some (parse_log_line (txt "[67696ms] [WiFi] connected ok")) <->
   exists ds tail,
     ts_prefix (lstrip_cr (txt "[67696ms] [WiFi] connected ok")) ds tail).
Proof.
  assert (H : LF ∉ txt "[67696ms] [WiFi] connected ok").
  { apply (bool_decide_unpack _). vm_compute. exact I. }
  split; [exact H|]. exact (proj1 (parse_log_line_decodes _ H)).
Defined.
(** C3, as the spec states it, fails: with two leading carriage returns
    the line is decoded although, after stripping a single one, it starts
    with a carriage return and not with the timestamp prefix; and a string
    with a line feed inside its message starts with the prefix and is not
    decoded. *)
Lemma parse_log_line_single_cr_counterexample :
  parse_log_line two_cr_line
    = Some (mkLogEvent 5 [] (txt "x") (txt "[5ms] x")) /\
  (forall ds tail, ~ ts_prefix (strip_one_cr two_cr_line) ds tail) /\
  (forall ds tail, ~ ts_prefix two_cr_line ds tail) /\
  ts_prefix (txt "[5ms] a" ++ LF :: txt "b") (txt "5") (txt " a" ++ LF :: txt "b") /\
  parse_log_line (txt "[5ms] a" ++ LF :: txt "b") = None.
Proof.
  split; [reflexivity|]. split; [|split; [|split]].
  - intros ds tail [H _]. discriminate H.
  - intros ds tail [H _]. discriminate H.
  - split; [reflexivity|]. split; [discriminate|reflexivity].
  - reflexivity.
Qed.

(** ** Line-splicing repair *)

Lemma embedded_match_sound p rest m :
  rmatch EMBEDDED_LOG_PREFIX_RE (MState p rest []) Some = Some m ->
  exists ds tail, ts_prefix rest ds tail /\ m_pos m = (p + 4 + length ds)%nat.
Proof.
  unfold EMBEDDED_LOG_PREFIX_RE. simpl. intros H.
  destruct rest as [|c0 l]; [discriminate|].
  destruct (Ascii.eqb_spec "[" c0) as [<-|]; [|discriminate].
  destruct l as [|d l]; [discriminate|].
  destruct (is_digit d) eqn:Hd; [|discriminate].
  apply star_k_sound in H as (w & r & -> & Hw & H). simpl in H.
  destruct r as [|c1 r]; [discriminate|].
  destruct (Ascii.eqb_spec "m" c1) as [<-|]; [|discriminate].
  destruct r as [|c2 r]; [discriminate|].
  destruct (Ascii.eqb_spec "s" c2) as [<-|]; [|discriminate].
  destruct r as [|c3 r]; [discriminate|].
  destruct (Ascii.eqb_spec "]" c3) as [<-|]; [|discriminate].
  injection H as <-.
  exists (d :: w), r. unfold ts_prefix. simpl. rewrite Hd, Hw.
  split; [split; [reflexivity|split; [discriminate|reflexivity]]|]. lia.
Qed.

Lemma embedded_match_complete p rest ds tail :
  ts_prefix rest ds tail ->
  exists m, rmatch EMBEDDED_LOG_PREFIX_RE (MState p rest []) Some = Some m.
Proof.
  intros (-> & Hne & Hds).
  destruct ds as [|d ds]; [congruence|]. simpl in Hds.
  apply andb_prop in Hds as [Hd Hds].
  eexists. unfold EMBEDDED_LOG_PREFIX_RE. cbn [txt list_ascii_of_string].
  simpl. char_tests. simpl. rewrite Hd.
  apply star_k_greedy; [exact Hds|reflexivity|]. simpl. char_tests. reflexivity.
Qed.
Lemma ts_at_nil i : ~ ts_at [] i.
Proof. intros (ds & tail & H & _). rewrite drop_nil in H. discriminate. Qed.

Lemma ts_at_lt line i : ts_at line i -> (i < length line)%nat.
Proof.
  intros (ds & tail & H & _).
  destruct (Nat.lt_ge_cases i (length line)) as [Hlt|Hge]; [exact Hlt|].
  rewrite drop_ge in H by lia. discriminate.
Qed.

(** No timestamp prefix starts inside the digits or the ms] of another. *)
Lemma no_ts_inside ds tail i :
  forallb is_digit ds = true -> (i < length ds + 3)%nat ->
  ~ ts_at (ds ++ txt "ms]" ++ tail) i.
Proof.
  revert i; induction ds as [|d ds IH]; intros i Hds Hi (ds' & tail' & Hpre);
    pose proof (proj1 Hpre) as H.
  - simpl in Hi. cbn [txt list_ascii_of_string app] in H.
    destruct i as [|[|[|i]]]; [discriminate H..|lia].
  - simpl in Hds. apply andb_prop in Hds as [Hd Hds].
    destruct i as [|i].
    + simpl in H. injection H as -> _. discriminate Hd.
    + apply (IH i Hds); [simpl in Hi; lia|].
      exists ds', tail'. exact Hpre.
Qed.

Lemma ts_at_shift c rest i : ts_at (c :: rest) (S i) <-> ts_at rest i.
Proof. reflexivity. Qed.

(** The offsets found by [finditer] are exactly the offsets of a
    timestamp prefix, in increasing order. *)
Lemma finditer_aux_spec rest : forall p skip,
  (forall i, (i < skip)%nat -> ~ ts_at rest i) ->
  StronglySorted lt (map m_start (finditer_aux EMBEDDED_LOG_PREFIX_RE rest p skip)) /\
  (forall q, q ∈ map m_start (finditer_aux EMBEDDED_LOG_PREFIX_RE rest p skip) <->
             exists i, q = (p + i)%nat /\ ts_at rest i).
Proof.
  induction rest as [|c rest IH]; intros p skip Hskip.
  - simpl. split; [constructor|]. intros q. split.
    + intros H. inversion H.
    + intros (i & _ & H). destruct (ts_at_nil _ H).
  - destruct skip as [|skip].
    + cbn [finditer_aux].
      destruct (rmatch EMBEDDED_LOG_PREFIX_RE (MState p (c :: rest) []) Some)
        as [m|] eqn:Hm.
      * destruct (embedded_match_sound _ _ _ Hm) as (ds & tail & Hpre & Hpos).
        assert (Hrest : rest = ds ++ txt "ms]" ++ tail).
        { destruct Hpre as [Heq _]. injection Heq as _ ->. reflexivity. }
        destruct (IH (S p) (m_pos m - p - 1)%nat) as [Hsorted Hmem].
        { intros i Hi. rewrite Hrest. apply no_ts_inside; [apply Hpre|lia]. }
        cbn [map m_start fst]. split.
        -- constructor; [exact Hsorted|]. apply Forall_forall. intros q Hq.
           apply Hmem in Hq as (i & -> & _). lia.
        -- intros q. rewrite elem_of_cons, Hmem. split.
           ++ intros [->|(i & -> & Hi)].
              ** exists 0%nat. split; [lia|]. exists ds, tail. exact Hpre.
              ** exists (S i). split; [lia|]. apply ts_at_shift, Hi.
           ++ intros ([|i] & -> & Hi); [left; lia|].
              right. exists i. split; [lia|]. apply ts_at_shift in Hi. exact Hi.
      * destruct (IH (S p) 0%nat) as [Hsorted Hmem]; [intros i Hi; lia|].
        split; [exact Hsorted|]. intros q. rewrite Hmem. split.
        -- intros (i & -> & Hi). exists (S i). split; [lia|]. apply ts_at_shift, Hi.
        -- intros ([|i] & -> & Hi).
           ++ destruct Hi as (ds & tail & Hpre). simpl in Hpre.
              destruct (embedded_match_complete p _ _ _ Hpre) as [m Hm'].
              congruence.
           ++ exists i. split; [lia|]. apply ts_at_shift in Hi. exact Hi.
    + cbn [finditer_aux].
      destruct (IH (S p) skip) as [Hsorted Hmem].
      { intros i Hi. rewrite <- (ts_at_shift c). apply Hskip. lia. }
      split; [exact Hsorted|]. intros q. rewrite Hmem. split.
      * intros (i & -> & Hi). exists (S i). split; [lia|]. apply ts_at_shift, Hi.
      * intros ([|i] & -> & Hi); [destruct (Hskip 0%nat ltac:(lia) Hi)|].
        exists i. split; [lia|]. apply ts_at_shift in Hi. exact Hi.
Qed.

Lemma finditer_spec line :
  StronglySorted lt (map m_start (finditer EMBEDDED_LOG_PREFIX_RE line)) /\
  (forall q, q ∈ map m_start (finditer EMBEDDED_LOG_PREFIX_RE line) <-> ts_at line q).
Proof.
  destruct (finditer_aux_spec line 0 0) as [Hs Hm]; [intros i Hi; lia|].
  split; [exact Hs|]. intros q. unfold finditer. rewrite Hm. split.
  - intros (i & -> & Hi). exact Hi.
  - intros Hq. exists q. auto.
Qed.
Lemma slice_to_end line a : slice line a (length line) = drop a line.
Proof. unfold slice. apply take_ge. rewrite length_drop. lia. Qed.

Lemma slice_nonempty line a b :
  (a < b)%nat -> (a < length line)%nat -> slice line a b <> [].
Proof.
  intros Hab Ha H. apply (f_equal length) in H. unfold slice in H.
  rewrite length_take, length_drop in H. simpl in H. lia.
Qed.

Lemma slice_drop line a b :
  (a <= b)%nat -> slice line a b ++ drop b line = drop a line.
Proof.
  intros Hab. unfold slice.
  replace (drop b line) with (drop (b - a) (drop a line)).
  - apply take_drop.
  - rewrite drop_drop. f_equal. lia.
Qed.

(** On increasing offsets inside the line no chunk is empty: the loop
    keeps one chunk per offset. *)
Lemma chunks_pieces line offs :
  StronglySorted lt offs -> Forall (fun a => (a < length line)%nat) offs ->
  chunks line offs = pieces line offs.
Proof.
  induction offs as [|a rest IH]; intros Hs Hlt; [reflexivity|].
  apply StronglySorted_inv in Hs as [Hs Ha].
  apply Forall_cons in Hlt as [Hla Hlt].
  cbn [chunks pieces]. rewrite (IH Hs Hlt).
  set (b := match rest with b :: _ => b | [] => length line end).
  assert (Hab : (a < b)%nat).
  { subst b. destruct rest as [|b rest]; [exact Hla|].
    apply Forall_cons in Ha as [Hab _]. exact Hab. }
  pose proof (slice_nonempty line a b Hab Hla) as Hne.
  destruct (slice line a b); [congruence|reflexivity].
Qed.

(** The pieces from an offset on make up the line from that offset on. *)
Lemma concat_pieces line a rest :
  StronglySorted lt (a :: rest) ->
  concat (pieces line (a :: rest)) = drop a line.
Proof.
  revert a; induction rest as [|b rest IH]; intros a Hs.
  - simpl. rewrite app_nil_r. apply slice_to_end.
  - apply StronglySorted_inv in Hs as [Hs Ha].
    apply Forall_cons in Ha as [Hab _].
    change (concat (pieces line (a :: b :: rest)))
      with (slice line a b ++ concat (pieces line (b :: rest))).
    rewrite (IH b Hs). apply slice_drop. lia.
Qed.

Lemma is_linebreak_CR c : Ascii.eqb c CR = true -> is_linebreak c = true.
Proof. intros H. apply Ascii.eqb_eq in H as ->. reflexivity. Qed.

Lemma splitlines_aux_single text : forall cur,
  no_newline text ->
  splitlines_aux cur text = match cur ++ text with [] => [] | l => [l] end.
Proof.
  unfold no_newline.
  induction text as [|c text IH]; intros cur H.
  - simpl. rewrite app_nil_r. destruct cur; reflexivity.
  - simpl in H. apply andb_prop in H as [Hc H].
    apply negb_true_iff in Hc. simpl.
    destruct (Ascii.eqb c CR) eqn:Hcr.
    { apply is_linebreak_CR in Hcr. congruence. }
    rewrite Hc, (IH _ H), <- app_assoc. reflexivity.
Qed.

(** A non-empty text without newline characters is one physical line. *)
Lemma splitlines_single text :
  text <> [] -> no_newline text -> splitlines text = [text].
Proof.
  intros Hne H. unfold splitlines. rewrite (splitlines_aux_single _ _ H).
  simpl. destruct text; [congruence|reflexivity].
Qed.

Lemma split_embedded_single text :
  text <> [] -> no_newline text ->
  split_embedded_timestamp_lines text = split_line text.
Proof.
  intros Hne H. unfold split_embedded_timestamp_lines.
  rewrite (splitlines_single _ Hne H). simpl. apply app_nil_r.
Qed.

(** The two ways through the body of the loop. *)
Lemma split_line_cases line :
  (spliced line /\
   (2 <= length (finditer EMBEDDED_LOG_PREFIX_RE line))%nat /\
   split_line line = pieces line (map m_start (finditer EMBEDDED_LOG_PREFIX_RE line)))
  \/ (~ spliced line /\ split_line line = [line]).
Proof.
  destruct (finditer_spec line) as [Hs Hm]. unfold split_line.
  destruct (finditer EMBEDDED_LOG_PREFIX_RE line) as [|m0 [|m1 ms]] eqn:Hf.
  - right. split; [|reflexivity]. intros [H0 _]. apply Hm in H0. inversion H0.
  - right. split; [|reflexivity]. intros (H0 & j & Hj & Hj').
    apply Hm in H0, Hj'. simpl in H0, Hj'.
    apply list_elem_of_singleton in H0, Hj'. lia.
  - cbn [length Nat.leb]. simpl in Hs.
    apply StronglySorted_inv in Hs as [Hs H01].
    destruct (m_start m0 =? 0)%nat eqn:H0; cbn [negb].
    + apply Nat.eqb_eq in H0. left. split; [|split; [simpl; lia|]].
      * split; [apply Hm; rewrite <- H0; simpl; left|].
        exists (m_start m1). apply Forall_cons in H01 as [H01 _].
        split; [lia|]. apply Hm. simpl. right. left.
      * apply chunks_pieces.
        -- simpl. constructor; assumption.
        -- apply Forall_forall. intros q Hq. apply ts_at_lt, Hm, Hq.
    + apply Nat.eqb_neq in H0. right. split; [|reflexivity].
      intros [Hz _]. apply Hm in Hz. simpl in Hz.
      apply elem_of_cons in Hz as [Hz|Hz]; [lia|].
      rewrite Forall_forall in H01. apply H01 in Hz. lia.
Qed.
(** A piece that runs from one timestamp prefix to the next, or to the
    end of the line, starts with its timestamp prefix. *)
Lemma piece_has_prefix line a b :
  ts_at line a -> (a < b)%nat -> ts_at line b \/ b = length line ->
  exists ds tail, ts_prefix (slice line a b) ds tail.
Proof.
  intros (ds & tail & Hpre) Hab [Hb| ->].
  2:{ rewrite slice_to_end. exists ds, tail. exact Hpre. }
  pose proof Hpre as (Hdrop & Hne & Hds).
  assert (Hfar : (length ds + 3 <= b - a - 1)%nat).
  { apply Nat.le_ngt. intros Hlt.
    apply (no_ts_inside ds tail (b - a - 1) Hds Hlt).
    destruct Hb as (ds' & tail' & Hb). exists ds', tail'.
    replace (drop (b - a - 1) (ds ++ txt "ms]" ++ tail))
      with (drop b line); [exact Hb|].
    replace b with (a + S (b - a - 1))%nat at 1 by lia.
    rewrite <- drop_drop, Hdrop. reflexivity. }
  exists ds, (take (b - a - 4 - length ds) tail).
  split; [|split; assumption].
  unfold slice. rewrite Hdrop.
  remember (b - a - 4 - length ds)%nat as n eqn:Hn.
  replace (b - a)%nat with (S (length ds + (3 + n)))%nat by lia.
  cbn [take]. f_equal. rewrite take_app_add'; [|reflexivity]. f_equal.
Qed.

Lemma pieces_have_prefix line offs :
  StronglySorted lt offs -> (forall q, q ∈ offs -> ts_at line q) ->
  Forall (fun p => exists ds tail, ts_prefix p ds tail) (pieces line offs).
Proof.
  induction offs as [|a rest IH]; intros Hs Hm; [constructor|].
  apply StronglySorted_inv in Hs as [Hs Ha]. cbn [pieces]. constructor.
  - destruct rest as [|b rest].
    + apply piece_has_prefix; [apply Hm; left| |right; reflexivity].
      apply ts_at_lt, Hm. left.
    + apply Forall_cons in Ha as [Hab _].
      apply piece_has_prefix; [apply Hm; left|exact Hab|left].
      apply Hm. right. left.
  - apply IH; [exact Hs|]. intros q Hq. apply Hm. right. exact Hq.
Qed.

Lemma length_pieces line offs : length (pieces line offs) = length offs.
Proof. induction offs as [|a rest IH]; simpl; congruence. Qed.

(** C4: on a physical line (a non-empty text without newline characters)
    [split_embedded_timestamp_lines] performs a split exactly when the line
    holds more than one timestamp prefix and the first of them is at
    offset 0.  Then it returns one sub-line per occurrence of the prefix,
    in order, each running from its occurrence to the next and starting
    with its timestamp prefix; otherwise it returns the line unsplit.  The
    two lines of the spec are split, and left alone, as it says. *)
Theorem split_embedded_timestamp_lines_spec (text : str) :
  text <> [] -> no_newline text ->
  (split_embedded_timestamp_lines text <> [text] <-> spliced text) /\
  (spliced text ->
   exists offs,
     StronglySorted lt offs /\ (forall i, i ∈ offs <-> ts_at text i) /\
     split_embedded_timestamp_lines text = pieces text offs /\
     length (split_embedded_timestamp_lines text) = length offs /\
     (2 <= length offs)%nat /\
     Forall (fun p => exists ds tail, ts_prefix p ds tail)
       (split_embedded_timestamp_lines text)) /\
  (~ spliced text -> split_embedded_timestamp_lines text = [text]) /\
  split_embedded_timestamp_lines (txt "[100ms] A[200ms] B")
    = [txt "[100ms] A"; txt "[200ms] B"] /\
  split_embedded_timestamp_lines (txt "x[100ms] A[200ms] B")
    = [txt "x[100ms] A[200ms] B"].
Proof.
  intros Hne Hnl. rewrite (split_embedded_single _ Hne Hnl).
  destruct (finditer_spec text) as [Hs Hm].
  assert (Hyes : spliced text ->
   exists offs,
     StronglySorted lt offs /\ (forall i, i ∈ offs <-> ts_at text i) /\
     split_line text = pieces text offs /\
     length (split_line text) = length offs /\
     (2 <= length offs)%nat /\
     Forall (fun p => exists ds tail, ts_prefix p ds tail) (split_line text)).
  { intros Hsp. destruct (split_line_cases text) as [(_ & Hlen & ->)|[Hno _]];
      [|destruct (Hno Hsp)].
    exists (map m_start (finditer EMBEDDED_LOG_PREFIX_RE text)).
    rewrite length_pieces, length_map.
    repeat split; try assumption; try apply Hm.
    apply pieces_have_prefix; [exact Hs|]. intros q. apply Hm. }
  assert (Hno : ~ spliced text -> split_line text = [text]).
  { intros Hno. destruct (split_line_cases text) as [(Hsp & _)|[_ H]];
      [destruct (Hno Hsp)|exact H]. }
  split; [split|split; [exact Hyes|split; [exact Hno|split; reflexivity]]].
  - intros Hsplit. destruct (split_line_cases text) as [(Hsp & _)|[_ H]];
      [exact Hsp|congruence].
  - intros Hsp Heq. destruct (Hyes Hsp) as (offs & _ & _ & _ & Hlen & H2 & _).
    rewrite Heq in Hlen. simpl in Hlen. lia.
Qed.

(** The theorem at the spliced line of the spec. *)
Lemma split_embedded_timestamp_lines_spec_witness :
  txt "[100ms] A[200ms] B" <> [] /\ no_newline (txt "[100ms] A[200ms] B") /\
  (split_embedded_timestamp_lines (txt "[100ms] A[200ms] B")
     <> [txt "[100ms] A[200ms] B"] <-> spliced (txt "[100ms] A[200ms] B")).
Proof.
  assert (H1 : txt "[100ms] A[200ms] B" <> []) by discriminate.
  assert (H2 : no_newline (txt "[100ms] A[200ms] B")) by reflexivity.
  split; [exact H1|]. split; [exact H2|].
  exact (proj1 (split_embedded_timestamp_lines_spec _ H1 H2)).
Defined.


(** ** The capture loop *)

Lemma flush_raw_fields st :
  boot_started (flush_raw st) = boot_started st /\
  boot_start_t_ms (flush_raw st) = boot_start_t_ms st /\
  last_t_ms (flush_raw st) = last_t_ms st /\
  events (flush_raw st) = events st /\
  raw_log (flush_raw st) = raw_log st.
Proof.
  unfold flush_raw, raw_log. destruct (raw_lines st) eqn:H; simpl;
    rewrite ?H, ?app_nil_r; auto.
Qed.

Lemma flush_if_full_fields st :
  boot_started (flush_if_full st) = boot_started st /\
  boot_start_t_ms (flush_if_full st) = boot_start_t_ms st /\
  last_t_ms (flush_if_full st) = last_t_ms st /\
  events (flush_if_full st) = events st /\
  raw_log (flush_if_full st) = raw_log st.
Proof.
  unfold flush_if_full. destruct (200 <=? length (raw_lines st))%nat;
    [apply flush_raw_fields|auto].
Qed.

Lemma window_check_fields w ev st :
  boot_started (fst (window_check w ev st)) = boot_started st /\
  boot_start_t_ms (fst (window_check w ev st)) = boot_start_t_ms st /\
  last_t_ms (fst (window_check w ev st)) = last_t_ms st /\
  events (fst (window_check w ev st)) = events st /\
  raw_log (fst (window_check w ev st)) = raw_log st.
Proof.
  unfold window_check. destruct (boot_start_t_ms st) as [b|] eqn:Hb; [|simpl; auto].
  destruct (w <=? t_ms ev - b); simpl; [|auto].
  rewrite <- Hb. apply flush_raw_fields.
Qed.

(** The raw log only grows: each logical line adds itself, whatever is
    done with its event. *)
Lemma process_line_raw_log w trig st line :
  raw_log (fst (process_line w trig st line)) = raw_log st ++ [line ++ [LF]].
Proof.
  unfold process_line.
  destruct (parse_log_line line) as [ev|].
  2:{ simpl. destruct (flush_if_full_fields
        (mkCapture (boot_started st) (boot_start_t_ms st) (last_t_ms st)
           (events st) (raw_lines st ++ [line ++ [LF]]) (logs_txt st)))
        as (_ & _ & _ & _ & ->).
      unfold raw_log. simpl. apply app_assoc. }
  cbn [boot_started boot_start_t_ms last_t_ms events raw_lines logs_txt].
  destruct (boot_started st).
  - cbn [negb].
    match goal with
    | |- raw_log (fst (window_check _ _ ?s)) = _ =>
        destruct (window_check_fields w ev s) as (_ & _ & _ & _ & ->)
    end.
    destruct (last_t_ms st) as [l|]; [destruct (t_ms ev + 5000 <? l)|];
      unfold raw_log; simpl; apply app_assoc.
  - cbn [negb]. destruct (trig && (boot_start_max_ms <? t_ms ev)).
    + unfold raw_log. simpl. apply app_assoc.
    + match goal with
      | |- raw_log (fst (window_check _ _ ?s)) = _ =>
          destruct (window_check_fields w ev s) as (_ & _ & _ & _ & ->)
      end.
      unfold raw_log. simpl. apply app_assoc.
Qed.

(** C5: while [boot_started] is false, a decoded event above the 3000 ms
    threshold after a triggered reboot is ignored: it is not appended,
    boot does not start, and only [last_t_ms] takes its timestamp; any
    number of such lines leaves the capture unstarted and [events] as it
    was.  The first decoded event at or under the threshold (any decoded
    event when no reboot was triggered) sets [boot_started], sets
    [boot_start_t_ms] to its timestamp and is appended to [events]. *)
Theorem boot_start_detection (w : Z) (trig : bool) (st : capture)
    (line : str) (ev : LogEvent) :
  boot_started st = false ->
  parse_log_line line = Some ev ->
  (trig = true -> 3000 < t_ms ev ->
   let st' := fst (process_line w trig st line) in
   snd (process_line w trig st line) = false /\
   boot_started st' = false /\
   boot_start_t_ms st' = boot_start_t_ms st /\
   events st' = events st /\
   last_t_ms st' = Some (t_ms ev)) /\
  (trig = false \/ t_ms ev <= 3000 ->
   let st' := fst (process_line w trig st line) in
   boot_started st' = true /\
   boot_start_t_ms st' = Some (t_ms ev) /\
   events st' = events st ++ [ev] /\
   last_t_ms st' = Some (t_ms ev)) /\
  (forall stale,
     (forall l e, l ∈ stale -> parse_log_line l = Some e -> 3000 < t_ms e) ->
     let st' := process_lines w true st stale in
     boot_started st' = false /\
     boot_start_t_ms st' = boot_start_t_ms st /\
     events st' = events st).
Proof.
  intros Hns Hev. split; [|split].
  - intros -> Ht. unfold process_line. rewrite Hev.
    cbn [boot_started boot_start_t_ms last_t_ms events raw_lines logs_txt].
    rewrite Hns. cbn [negb andb]. unfold boot_start_max_ms.
    destruct (Z.ltb_spec 3000 (t_ms ev)); [|lia]. simpl. auto.
  - intros Hcase. unfold process_line. rewrite Hev.
    cbn [boot_started boot_start_t_ms last_t_ms events raw_lines logs_txt].
    rewrite Hns. cbn [negb]. unfold boot_start_max_ms.
    assert (Hc : trig && (3000 <? t_ms ev) = false).
    { destruct Hcase as [->|Ht]; [reflexivity|].
      destruct (Z.ltb_spec 3000 (t_ms ev)); [lia|apply andb_false_r]. }
    rewrite Hc. cbv zeta.
    match goal with
    | |- context [window_check w ev ?s] =>
        destruct (window_check_fields w ev s) as (-> & -> & -> & -> & _)
    end.
    simpl. auto.
  - clear line ev Hev. intros stale. revert st Hns.
    induction stale as [|l stale IH]; intros st Hns Hall; [simpl; auto|].
    cbn [process_lines]. cbv zeta.
    assert (Hstep : snd (process_line w true st l) = false /\
                    boot_started (fst (process_line w true st l)) = false /\
                    boot_start_t_ms (fst (process_line w true st l)) = boot_start_t_ms st /\
                    events (fst (process_line w true st l)) = events st).
    { unfold process_line.
      destruct (parse_log_line l) as [e|] eqn:He.
      - cbn [boot_started boot_start_t_ms last_t_ms events raw_lines logs_txt].
        rewrite Hns. cbn [negb andb]. unfold boot_start_max_ms.
        pose proof (Hall l e ltac:(left) He) as Ht.
        destruct (Z.ltb_spec 3000 (t_ms e)); [|lia]. simpl. auto.
      - cbn [fst snd].
        match goal with
        | |- context [flush_if_full ?s] =>
            destruct (flush_if_full_fields s) as (-> & -> & _ & -> & _)
        end.
        simpl. auto. }
    destruct (process_line w true st l) as [st1 br]. simpl in Hstep.
    destruct Hstep as (-> & Hb & Hs & He).
    destruct (IH st1 Hb) as (H1 & H2 & H3).
    { intros l' e' Hin. apply Hall. right. exact Hin. }
    cbv zeta in H1, H2, H3. rewrite H1, H2, H3. auto.
Qed.
(** The theorem at a heartbeat of uptime 9000 that arrives after the
    reboot was triggered. *)
Lemma boot_start_detection_witness :
  boot_started capture_init = false /\
  parse_log_line (line_at 9000 "tick") = Some (ev_at 9000 "tick") /\
  events (fst (process_line 15000 true capture_init (line_at 9000 "tick"))) = [] /\
  last_t_ms (fst (process_line 15000 true capture_init (line_at 9000 "tick")))
    = Some 9000.
Proof.
  split; [reflexivity|]. split; [reflexivity|].
  pose proof (proj1 (boot_start_detection 15000 true capture_init
                       (line_at 9000 "tick") (ev_at 9000 "tick")
                       eq_refl eq_refl) eq_refl ltac:(simpl; lia)) as H.
  cbv zeta in H. destruct H as (_ & _ & _ & He & Hl). split; assumption.
Defined.

(** C6: once boot has started, a decoded event whose timestamp is below
    [last_t_ms] minus 5000 ms is taken for a new boot: [boot_start_t_ms]
    becomes its timestamp, [events] is cleared as a whole and restarts
    with exactly this event, and nothing of the raw log (written or still
    buffered) is dropped: the line is added to it like any other. *)
Theorem reset_detection (w : Z) (trig : bool) (st : capture) (line : str)
    (ev : LogEvent) (l : Z) :
  boot_started st = true ->
  last_t_ms st = Some l ->
  parse_log_line line = Some ev ->
  t_ms ev < l - 5000 ->
  let st' := fst (process_line w trig st line) in
  boot_started st' = true /\
  boot_start_t_ms st' = Some (t_ms ev) /\
  events st' = [ev] /\
  last_t_ms st' = Some (t_ms ev) /\
  raw_log st' = raw_log st ++ [line ++ [LF]].
Proof.
  intros Hs Hl Hev Ht. cbv zeta.
  split; [|split; [|split; [|split; [|apply process_line_raw_log]]]];
    unfold process_line; rewrite Hev;
    cbn [boot_started boot_start_t_ms last_t_ms events raw_lines logs_txt];
    rewrite Hs, Hl; cbn [negb];
    (destruct (Z.ltb_spec (t_ms ev + 5000) l); [|lia]);
    match goal with
    | |- context [window_check w ev ?s] =>
        destruct (window_check_fields w ev s) as (H1 & H2 & H3 & H4 & _)
    end; rewrite ?H1, ?H2, ?H3, ?H4; reflexivity.
Qed.

(** The theorem at the reset of the spec: last seen uptime 50000, then an
    event at uptime 200. *)
Lemma reset_detection_witness :
  boot_started late_capture = true /\
  last_t_ms late_capture = Some 50000 /\
  parse_log_line (line_at 200 "boot") = Some (ev_at 200 "boot") /\
  t_ms (ev_at 200 "boot") < 50000 - 5000 /\
  events (fst (process_line 15000 true late_capture (line_at 200 "boot")))
    = [ev_at 200 "boot"].
Proof.
  split; [reflexivity|]. split; [reflexivity|]. split; [reflexivity|].
  split; [simpl; lia|].
  pose proof (reset_detection 15000 true late_capture (line_at 200 "boot")
                (ev_at 200 "boot") 50000 eq_refl eq_refl eq_refl
                ltac:(simpl; lia)) as H.
  cbv zeta in H. destruct H as (_ & _ & He & _). exact He.
Defined.
Lemma sorted_within_snoc slack evs e ev :
  sorted_within slack (evs ++ [e]) -> t_ms e <= t_ms ev + slack ->
  sorted_within slack ((evs ++ [e]) ++ [ev]).
Proof.
  induction evs as [|a evs IH]; intros Hs Hle; [simpl; auto|].
  destruct evs as [|b evs].
  - simpl in *. destruct Hs as [Hab _]. auto.
  - change (t_ms a <= t_ms b + slack /\
            sorted_within slack (((b :: evs) ++ [e]) ++ [ev])).
    destruct Hs as [Hab Hs]. split; [exact Hab|]. apply IH; assumption.
Qed.

(** What one logical line can do to [events]: nothing, an append at the
    end, or the replacement of the whole list by the new event when a
    reset is detected. *)
Lemma process_line_events w trig st line :
  events (fst (process_line w trig st line)) = events st \/
  exists ev, parse_log_line line = Some ev /\
    (events (fst (process_line w trig st line)) = events st ++ [ev] \/
     (events (fst (process_line w trig st line)) = [ev] /\
      boot_started st = true /\
      exists l, last_t_ms st = Some l /\ t_ms ev + 5000 < l)).
Proof.
  unfold process_line. destruct (parse_log_line line) as [ev|].
  2:{ left. cbn [fst].
      match goal with
      | |- context [flush_if_full ?s] =>
          destruct (flush_if_full_fields s) as (_ & _ & _ & -> & _)
      end. reflexivity. }
  cbn [boot_started boot_start_t_ms last_t_ms events raw_lines logs_txt].
  destruct (boot_started st) eqn:Hs; cbn [negb].
  - right. exists ev. split; [reflexivity|].
    match goal with
    | |- context [window_check w ev ?s] =>
        destruct (window_check_fields w ev s) as (_ & _ & _ & -> & _)
    end.
    destruct (last_t_ms st) as [l|] eqn:Hl; [|left; reflexivity].
    destruct (Z.ltb_spec (t_ms ev + 5000) l); [|left; reflexivity].
    right. split; [reflexivity|]. split; [reflexivity|]. exists l. auto.
  - destruct (trig && (boot_start_max_ms <? t_ms ev)); [left; reflexivity|].
    right. exists ev. split; [reflexivity|]. left.
    match goal with
    | |- context [window_check w ev ?s] =>
        destruct (window_check_fields w ev s) as (_ & _ & _ & -> & _)
    end. reflexivity.
Qed.

Lemma flush_raw_inv st : capture_inv st -> capture_inv (flush_raw st).
Proof.
  unfold capture_inv.
  destruct (flush_raw_fields st) as (-> & -> & -> & -> & _). auto.
Qed.

Lemma process_line_inv w trig st line :
  capture_inv st -> capture_inv (fst (process_line w trig st line)).
Proof.
  intros (Hoff & Hon & Hsorted). unfold process_line.
  destruct (parse_log_line line) as [ev|].
  2:{ cbn [fst]. unfold capture_inv.
      match goal with
      | |- context [flush_if_full ?s] =>
          destruct (flush_if_full_fields s) as (-> & -> & -> & -> & _)
      end. simpl. auto. }
  cbn [boot_started boot_start_t_ms last_t_ms events raw_lines logs_txt].
  destruct (boot_started st) eqn:Hs; cbn [negb].
  - destruct (Hon eq_refl) as (evs & e & Hevs & Hlast & Hb).
    unfold capture_inv.
    match goal with
    | |- context [window_check w ev ?s] =>
        destruct (window_check_fields w ev s) as (-> & -> & -> & -> & _)
    end.
    rewrite Hlast.
    destruct (Z.ltb_spec (t_ms ev + 5000) (t_ms e)); simpl.
    + split; [discriminate|]. split; [|exact I].
      intros _. exists [], ev. split; [reflexivity|]. split; [reflexivity|discriminate].
    + split; [discriminate|]. split.
      * intros _. exists (events st), ev. split; [reflexivity|]. split; [reflexivity|exact Hb].
      * rewrite Hevs in *. apply sorted_within_snoc; [exact Hsorted|lia].
  - destruct (Hoff eq_refl) as [Hevs Hb].
    destruct (trig && (boot_start_max_ms <? t_ms ev)).
    + unfold capture_inv. simpl. rewrite Hevs, Hb. split; [auto|].
      split; [discriminate|exact I].
    + unfold capture_inv.
      match goal with
      | |- context [window_check w ev ?s] =>
          destruct (window_check_fields w ev s) as (-> & -> & -> & -> & _)
      end.
      simpl. rewrite Hevs. split; [discriminate|]. split; [|exact I].
      intros _. exists [], ev. split; [reflexivity|]. split; [reflexivity|discriminate].
Qed.

Lemma reachable_inv w trig st : reachable w trig st -> capture_inv st.
Proof.
  induction 1 as [|st line _ IH|st _ IH].
  - unfold capture_inv. simpl. split; [auto|]. split; [discriminate|exact I].
  - apply process_line_inv, IH.
  - apply flush_raw_inv, IH.
Qed.

Lemma flush_if_full_reachable w trig st :
  reachable w trig st -> reachable w trig (flush_if_full st).
Proof.
  unfold flush_if_full. destruct (200 <=? length (raw_lines st))%nat;
    [apply reach_flush|auto].
Qed.

Lemma process_lines_reachable w trig lines : forall st,
  reachable w trig st -> reachable w trig (process_lines w trig st lines).
Proof.
  induction lines as [|line lines IH]; intros st H; [exact H|].
  cbn [process_lines]. pose proof (reach_line w trig st line H) as H'.
  destruct (process_line w trig st line) as [st' [|]]; [exact H'|].
  apply IH, H'.
Qed.

(** Every state the loop ends in, whatever the script, is one of the
    reachable states. *)
Lemma capture_loop_reachable w trig script : forall st,
  reachable w trig st ->
  reachable w trig (snd (fst (capture_loop w trig st script))).
Proof.
  induction script as [|tk script IH]; intros st H.
  - simpl. apply reach_flush, H.
  - destruct tk as [| |text|[|]]; cbn [capture_loop].
    + simpl. apply reach_flush, H.
    + apply IH, reach_flush, H.
    + apply IH, flush_if_full_reachable, process_lines_reachable, H.
    + apply IH, reach_flush, H.
    + simpl. apply reach_flush, H.
Qed.

(** C7 (amended): in every state the capture loop can reach, whatever the
    script of reads, [events] is only ever cleared as a whole: a logical
    line leaves it as it is, appends its event at the end, or, when a
    reset is detected, replaces the whole list by the new event alone; a
    flush does not touch it.  Whenever [events] is non-empty, every event's
    timestamp is at least its predecessor's minus 5000 ms (a backward step
    of more than that is a reset, a smaller one is kept in arrival
    order). *)
Theorem events_cleared_only_as_a_whole (w : Z) (trig : bool) :
  (forall script,
     reachable w trig (snd (fst (read_boot_window_events w trig script)))) /\
  (forall st, reachable w trig st -> sorted_within 5000 (events st)) /\
  (forall st line, reachable w trig st ->
     events (fst (process_line w trig st line)) = events st \/
     exists ev, parse_log_line line = Some ev /\
       (events (fst (process_line w trig st line)) = events st ++ [ev] \/
        (events (fst (process_line w trig st line)) = [ev] /\
         boot_started st = true /\
         exists l, last_t_ms st = Some l /\ t_ms ev + 5000 < l))) /\
  (forall st, reachable w trig st -> events (flush_raw st) = events st).
Proof.
  split; [|split; [|split]].
  - intros script. apply capture_loop_reachable, reach_init.
  - intros st H. apply (reachable_inv _ _ _ H).
  - intros st line _. apply process_line_events.
  - intros st _. apply flush_raw_fields.
Qed.

(** C7, as the spec states it, fails: after a read at uptime 6000 and one
    at uptime 2000 (a backward step under 5000 ms, so no reset is
    detected and nothing is cleared) [events] holds both events in arrival
    order, and is not sorted by timestamp. *)
Lemma events_not_sorted_counterexample :
  events (snd (fst (read_boot_window_events 15000 false backstep_script)))
    = [ev_at 6000 "a"; ev_at 2000 "b"] /\
  ~ Sorted (fun e1 e2 => t_ms e1 <= t_ms e2)
      (events (snd (fst (read_boot_window_events 15000 false backstep_script)))).
Proof.
  split; [reflexivity|]. intros H.
  change (events (snd (fst (read_boot_window_events 15000 false backstep_script))))
    with [ev_at 6000 "a"; ev_at 2000 "b"] in H.
  apply Sorted_inv in H as [_ H]. apply HdRel_inv in H. simpl in H. lia.
Qed.

(** Nothing but the deadline or a lost port ends the read loop: whatever
    the window and the events, every other turn of the script is taken. *)
Lemma capture_loop_reads_on w trig script : forall st,
  forallb keeps_reading script = true ->
  fst (fst (capture_loop w trig st script)) = Returned /\
  snd (capture_loop w trig st script) = [].
Proof.
  induction script as [|tk script IH]; intros st H; [simpl; auto|].
  simpl in H. apply andb_prop in H as [Htk H].
  destruct tk as [| |text|[|]]; try discriminate Htk; cbn [capture_loop]; apply IH, H.
Qed.

(** C1 on the code: the window test does not stop the capture.  With a
    window of 1000 ms, the read at uptime 1000 meets the window test and
    executes [break], which only leaves the loop over the logical lines of
    that read; the outer loop goes on, the next read is taken from the line
    source and its event is appended.  In general every read of a script
    is taken, whatever the window, until the deadline or a lost port. *)
Theorem capture_reads_past_window :
  snd (process_line 1000 false
         (fst (process_line 1000 false capture_init (line_at 0 "a")))
         (line_at 1000 "b")) = true /\
  fst (fst (read_boot_window_events 1000 false overrun_script)) = Returned /\
  snd (read_boot_window_events 1000 false overrun_script) = [] /\
  events (snd (fst (read_boot_window_events 1000 false overrun_script)))
    = [ev_at 0 "a"; ev_at 1000 "b"; ev_at 1100 "c"] /\
  (forall w trig script,
     forallb keeps_reading script = true ->
     snd (read_boot_window_events w trig script) = []).
Proof.
  repeat split; try reflexivity.
  intros w trig script H. apply (capture_loop_reads_on w trig script _ H).
Qed.
(** ** Sorting *)

Section Sorting.
Context {A : Type} (key : A -> Z).

Lemma insert_by_perm x l : Permutation (insert_by key x l) (x :: l).
Proof.
  induction l as [|y l IH]; simpl; [reflexivity|].
  destruct (key x <=? key y); [reflexivity|].
  rewrite IH. apply perm_swap.
Qed.

Lemma sorted_by_perm l : Permutation (sorted_by key l) l.
Proof.
  induction l as [|x l IH]; simpl; [reflexivity|].
  rewrite insert_by_perm, IH. reflexivity.
Qed.

Lemma sorted_by_length l : length (sorted_by key l) = length l.
Proof. apply Permutation_length, sorted_by_perm. Qed.

Lemma insert_by_ascending x l :
  ascending key l -> ascending key (insert_by key x l).
Proof.
  unfold ascending. induction l as [|y l IH]; intros Hs; simpl.
  - repeat constructor.
  - destruct (Z.leb_spec (key x) (key y)).
    + constructor; [exact Hs|]. constructor. assumption.
    + apply Sorted_inv in Hs as [Hs Hhd]. constructor; [apply IH, Hs|].
      destruct l as [|z l]; simpl.
      * constructor. lia.
      * destruct (key x <=? key z); constructor; [lia|].
        apply HdRel_inv in Hhd. exact Hhd.
Qed.

Lemma sorted_by_ascending l : ascending key (sorted_by key l).
Proof.
  induction l as [|x l IH]; simpl; [constructor|].
  apply insert_by_ascending, IH.
Qed.

(** In an ascending list a later element has no smaller key. *)
Lemma ascending_lookup l i j x y :
  ascending key l -> (i <= j)%nat -> l !! i = Some x -> l !! j = Some y ->
  key x <= key y.
Proof.
  intros Hs. apply Sorted_StronglySorted in Hs; [|intros a b c; lia].
  revert i j. induction Hs as [|a l Hs IH Ha]; intros i j Hij Hi Hj.
  - rewrite lookup_nil in Hi. discriminate.
  - destruct i as [|i], j as [|j]; simpl in *; try lia.
    + injection Hi as <-. injection Hj as <-. lia.
    + injection Hi as <-. rewrite Forall_forall in Ha.
      apply Ha. eapply list_elem_of_lookup_2, Hj.
    + apply (IH i j); [lia|assumption..].
Qed.

End Sorting.
(** ** The event/sample join *)

(** The inner loop leaves the cursor where the loop condition fails: on
    the last sample, or before a sample later than [t]; it only moves the
    cursor forward, over samples at or before [t]. *)
Lemma advance_spec samples t : forall fuel idx,
  (length samples <= idx + 1 + fuel)%nat ->
  (idx <= advance samples t fuel idx)%nat /\
  (advance samples t fuel idx = idx \/
   exists sm, samples !! advance samples t fuel idx = Some sm /\ uptime_ms sm <= t) /\
  (forall sm, samples !! (advance samples t fuel idx + 1)%nat = Some sm ->
              t < uptime_ms sm).
Proof.
  induction fuel as [|fuel IH]; intros idx Hfuel; simpl.
  - split; [lia|]. split; [left; reflexivity|]. intros sm Hsm.
    apply lookup_lt_Some in Hsm. lia.
  - destruct (samples !! (idx + 1)%nat) as [sm|] eqn:Hnext.
    + destruct (Z.leb_spec (uptime_ms sm) t) as [Hle|Hgt].
      * destruct (IH (idx + 1)%nat ltac:(lia)) as (Hmono & Hat & Hexit).
        split; [lia|]. split; [|exact Hexit]. right.
        destruct Hat as [->|Hat]; [exists sm; auto|exact Hat].
      * split; [lia|]. split; [left; reflexivity|]. intros sm' Hsm'.
        rewrite Hnext in Hsm'. injection Hsm' as <-. exact Hgt.
    + split; [lia|]. split; [left; reflexivity|]. intros sm' Hsm'. congruence.
Qed.

(** The row built at the cursor the inner loop leaves. *)
Lemma cursor_row samples t idx sm :
  ascending uptime_ms samples ->
  samples !! idx = Some sm ->
  (idx = 0%nat \/ uptime_ms sm <= t) ->
  (forall nx, samples !! (idx + 1)%nat = Some nx -> t < uptime_ms nx) ->
  nearest_previous samples t (if uptime_ms sm <=? t then Some sm else None).
Proof.
  intros Hs Hsm Hq Hexit.
  destruct (Z.leb_spec (uptime_ms sm) t) as [Hle|Hgt]; simpl.
  - split; [eapply list_elem_of_lookup_2, Hsm|]. split; [exact Hle|].
    intros sm' Hin Hle'. apply list_elem_of_lookup in Hin as [j Hj].
    destruct (Nat.le_gt_cases j idx) as [Hji|Hji].
    + exact (ascending_lookup uptime_ms _ _ _ _ _ Hs Hji Hj Hsm).
    + destruct (samples !! (idx + 1)%nat) as [nx|] eqn:Hnx.
      * pose proof (Hexit nx eq_refl).
        pose proof (ascending_lookup uptime_ms _ (idx + 1) j _ _ Hs
                      ltac:(lia) Hnx Hj).
        lia.
      * apply lookup_ge_None in Hnx. apply lookup_lt_Some in Hj. lia.
  - destruct Hq as [->|Hq]; [|lia].
    intros sm' Hin. apply list_elem_of_lookup in Hin as [j Hj].
    pose proof (ascending_lookup uptime_ms _ 0 j _ _ Hs ltac:(lia) Hsm Hj).
    lia.
Qed.

Lemma join_loop_spec samples :
  ascending uptime_ms samples ->
  forall evs idx,
    StronglySorted (fun a b => t_ms a <= t_ms b) evs ->
    (idx < length samples)%nat ->
    (idx = 0%nat \/
     exists sm, samples !! idx = Some sm /\
                Forall (fun e => uptime_ms sm <= t_ms e) evs) ->
    map fst (join_loop samples evs idx) = evs /\
    Forall (fun r => nearest_previous samples (t_ms (fst r)) (snd r))
      (join_loop samples evs idx).
Proof.
  intros Hs. induction evs as [|ev evs IH]; intros idx Hevs Hidx Hq.
  - simpl. split; [reflexivity|constructor].
  - apply StronglySorted_inv in Hevs as [Hevs Hev].
    cbn [join_loop]. cbv zeta.
    destruct (advance_spec samples (t_ms ev) (length samples) idx ltac:(lia))
      as (Hmono & Hat & Hexit).
    set (idx' := advance samples (t_ms ev) (length samples) idx) in *.
    assert (Hlt : (idx' < length samples)%nat).
    { destruct Hat as [->|(sm & Hsm & _)]; [exact Hidx|].
      apply lookup_lt_Some in Hsm. exact Hsm. }
    destruct (lookup_lt_is_Some_2 _ _ Hlt) as [sm Hsm]. rewrite Hsm.
    assert (Hq' : idx' = 0%nat \/ uptime_ms sm <= t_ms ev).
    { destruct Hat as [Heq|(sm' & Hsm' & Hle)].
      - rewrite Heq in *. destruct Hq as [->|(sm' & Hsm' & Hall)]; [left; reflexivity|].
        right. apply Forall_cons in Hall as [Hle _]. congruence.
      - right. congruence. }
    destruct (IH idx' Hevs Hlt) as [Hfst Hrows].
    { destruct Hq' as [->|Hle]; [left; reflexivity|]. right.
      exists sm. split; [exact Hsm|]. eapply Forall_impl; [exact Hev|].
      simpl. intros e He. lia. }
    split.
    + cbn [map]. rewrite Hfst. f_equal.
      destruct (uptime_ms sm <=? t_ms ev); reflexivity.
    + constructor; [|exact Hrows].
      pose proof (cursor_row samples (t_ms ev) idx' sm Hs Hsm Hq' Hexit) as Hrow.
      destruct (uptime_ms sm <=? t_ms ev); exact Hrow.
Qed.

(** C2 (amended): for samples in ascending order of uptime,
    [join_events_to_samples] returns exactly one row per input event, each
    pairing its event with the sample of greatest uptime at or before the
    event's timestamp, and with no sample exactly when every sample is
    later than the event (so always when there is no sample).  With at
    least one sample the rows are in ascending order of event timestamp,
    whatever the order of the input; with no sample at all they are the
    events in the order given. *)
Theorem join_events_to_samples_spec (evs : list LogEvent)
    (samples : list HealthSample) :
  ascending uptime_ms samples ->
  Permutation (map fst (join_events_to_samples evs samples)) evs /\
  length (join_events_to_samples evs samples) = length evs /\
  Forall (fun r => nearest_previous samples (t_ms (fst r)) (snd r))
    (join_events_to_samples evs samples) /\
  (samples <> [] ->
   map fst (join_events_to_samples evs samples) = sorted_by t_ms evs /\
   ascending t_ms (map fst (join_events_to_samples evs samples))) /\
  (samples = [] ->
   join_events_to_samples evs samples = map (fun e => (e, None)) evs).
Proof.
  intros Hs.
  destruct samples as [|sm0 samples].
  - simpl. rewrite map_map, map_id, length_map. split; [reflexivity|].
    split; [reflexivity|]. split; [|split; [congruence|reflexivity]].
    apply Forall_forall. intros r Hr. apply list_elem_of_fmap in Hr as (e & -> & _).
    simpl. intros sm' Hin. inversion Hin.
  - cbn [join_events_to_samples].
    pose proof (sorted_by_ascending t_ms evs) as Hasc.
    destruct (join_loop_spec _ Hs (sorted_by t_ms evs) 0%nat) as [Hfst Hrows].
    { apply Sorted_StronglySorted; [intros a b c; lia|exact Hasc]. }
    { simpl. lia. }
    { left. reflexivity. }
    split; [rewrite Hfst; apply sorted_by_perm|].
    split; [rewrite <- (length_map fst), Hfst; apply sorted_by_length|].
    split; [exact Hrows|]. split; [|discriminate].
    intros _. rewrite Hfst. split; [reflexivity|exact Hasc].
Qed.
(** The theorem at the samples of the spec and an event at uptime 250. *)
Lemma join_events_to_samples_spec_witness :
  ascending uptime_ms spec_samples /\
  join_events_to_samples [ev_at 250 "x"] spec_samples
    = [(ev_at 250 "x", Some (mkHealthSample 100 None 9000 8000 0))] /\
  Forall (fun r => nearest_previous spec_samples (t_ms (fst r)) (snd r))
    (join_events_to_samples [ev_at 250 "x"] spec_samples).
Proof.
  assert (H : ascending uptime_ms spec_samples).
  { unfold ascending, spec_samples. repeat constructor; simpl; lia. }
  split; [exact H|]. split; [reflexivity|].
  exact (proj1 (proj2 (proj2 (join_events_to_samples_spec [ev_at 250 "x"] spec_samples H)))).
Defined.

(** C2, as the spec states it, fails when there is no sample: the rows
    keep the order of the input events, which need not be the order of
    their timestamps. *)
Lemma join_no_samples_counterexample :
  join_events_to_samples unordered_events []
    = [(ev_at 5 "late", None); (ev_at 3 "early", None)] /\
  ~ ascending t_ms (map fst (join_events_to_samples unordered_events [])).
Proof.
  split; [reflexivity|]. intros H. simpl in H.
  apply Sorted_inv in H as [_ H]. apply HdRel_inv in H. simpl in H. lia.
Qed.

(** ** The health history parser *)



Lemma item_inr {A} (l : list A) i x : item l i = inr x <-> l !! i = Some x.
Proof. unfold item. destruct (l !! i); split; congruence. Qed.


Lemma samples_from_inr body : forall count i samples,
  samples_from body i count = inr samples ->
  length samples = count /\
  forall k sm, samples !! k = Some sm -> body (i + k)%nat = inr sm.
Proof.
  induction count as [|count IH]; intros i samples; simpl.
  - intros [= <-]. split; [reflexivity|]. intros k sm H. rewrite lookup_nil in H. discriminate.
  - unfold mbind, result_bind, mret, result_ret.
    destruct (body i) as [e|x] eqn:Hx; [discriminate|].
    destruct (samples_from body (S i) count) as [e|rest] eqn:Hrest; [discriminate|].
    intros [= <-]. destruct (IH _ _ Hrest) as [Hlen Hk].
    split; [simpl; congruence|]. intros [|k] sm; simpl.
    + intros [= <-]. rewrite Nat.add_0_r. exact Hx.
    + intros H. replace (i + S k)%nat with (S i + k)%nat by lia. apply Hk, H.
Qed.




(** What an accepted document went through. *)
Lemma parse_health_history_inr hist samples :
  parse_health_history hist = inr samples ->
  exists uptime hf lg ps unsorted,
    hist !! "uptime_ms" = Some (JList uptime) /\
    arr hist (length uptime) "heap_internal_free" = inr hf /\
    arr hist (length uptime) "heap_internal_largest" = inr lg /\
    arr hist (length uptime) "psram_free" = inr ps /\
    samples_from
      (sample_at uptime (cpu_column hist (length uptime)) hf lg ps)
      0 (length uptime) = inr unsorted /\
    samples = sorted_by uptime_ms unsorted.
Proof.
  unfold parse_health_history, mbind, result_bind, mret, result_ret.
  destruct (hist !! "uptime_ms") as [[| | | | |uptime|]|]; try discriminate.
  destruct (arr hist (length uptime) "heap_internal_free") as [e|hf] eqn:H1; [discriminate|].
  destruct (arr hist (length uptime) "heap_internal_largest") as [e|lg] eqn:H2; [discriminate|].
  destruct (arr hist (length uptime) "psram_free") as [e|ps] eqn:H3; [discriminate|].
  destruct (samples_from _ 0 (length uptime)) as [e|unsorted] eqn:Hs; [discriminate|].
  intros [= <-]. exists uptime, hf, lg, ps, unsorted. auto 10.
Qed.


Lemma cpu_column_missing hist n :
  hist !! "cpu_usage" = None -> cpu_column hist n = replicate n JNull.
Proof. intros H. unfold cpu_column. rewrite H. reflexivity. Qed.


(** The parser on a small document: accepted and sorted; rejected when
    one column is an entry short; accepted without cpu_usage, every
    [cpu_usage] unknown. *)
Example parse_health_history_runs :
  parse_health_history sample_history
    = inr [mkHealthSample 0 None 10000 9000 0;
           mkHealthSample 100 (Some 40) 9000 8000 0;
           mkHealthSample 300 (Some 12) 10500 9000 0] /\
  parse_health_history short_history
    = inl (ValueError (arr_message "psram_free")) /\
  parse_health_history no_cpu_history
    = inr [mkHealthSample 0 None 10000 9000 0;
           mkHealthSample 100 None 9000 8000 0;
           mkHealthSample 300 None 10500 9000 0].
Proof. repeat split; vm_compute; reflexivity. Qed.
(** ** The joined table, written and read back *)

Lemma feed_app rd a b :
  feed rd (a ++ b) = rd' ← feed rd a; feed rd' b.
Proof.
  revert rd; induction a as [|c a IH]; intros rd; simpl; [reflexivity|].
  destruct (parse_process_char rd (Some c)) as [rd'|]; simpl; [apply IH|reflexivity].
Qed.

Lemma feed_snoc rd cur rdc c rdc' :
  feed rd cur = Some rdc -> parse_process_char rdc (Some c) = Some rdc' ->
  feed rd (cur ++ [c]) = Some rdc'.
Proof. intros H1 H2. rewrite feed_app, H1. simpl. rewrite H2. reflexivity. Qed.

(** A character that ends no line joins the unfinished line. *)
Lemma run_char c text rd cur :
  is_nl c = false -> run rd cur (c :: text) = run rd (cur ++ [c]) text.
Proof.
  unfold is_nl, run. intros H. apply orb_false_elim in H as [H1 H2].
  simpl. rewrite H1, H2. reflexivity.
Qed.

Lemma file_lines_line_end term text cur :
  line_end term text ->
  file_lines_aux cur (term ++ text) = (cur ++ term) :: file_lines_aux [] text.
Proof.
  intros [t|t|t Hnext]; simpl.
  - reflexivity.
  - reflexivity.
  - destruct t as [|c t]; [reflexivity|]. simpl in Hnext. rewrite Hnext. reflexivity.
Qed.

(** At the end of a line the reader takes the end-of-line mark; the record
    is complete when that leaves it in START_RECORD. *)
Lemma run_line_end term text rd cur rdc rde :
  line_end term text ->
  feed rd (cur ++ term) = Some rdc ->
  parse_process_char rdc None = Some rde ->
  run rd cur (term ++ text) =
  match state rde with
  | START_RECORD => rows ← run reader_reset [] text; Some (fields rde :: rows)
  | _ => run rde [] text
  end.
Proof.
  intros Hend Hfeed Heol. unfold run.
  rewrite (file_lines_line_end _ _ _ Hend). cbn [read_rows].
  unfold feed_line. rewrite Hfeed. simpl. rewrite Heol. reflexivity.
Qed.
Lemma quoted_char f fs c :
  Ascii.eqb c DQUOTE = false ->
  parse_process_char (mkReader IN_QUOTED_FIELD f fs) (Some c)
    = Some (mkReader IN_QUOTED_FIELD (f ++ [c]) fs).
Proof. intros H. unfold parse_process_char. simpl. rewrite H. reflexivity. Qed.

Lemma quoted_quote f fs rd cur :
  feed rd cur = Some (mkReader IN_QUOTED_FIELD f fs) ->
  feed rd (cur ++ [DQUOTE; DQUOTE])
    = Some (mkReader IN_QUOTED_FIELD (f ++ [DQUOTE]) fs).
Proof. intros H. rewrite feed_app, H. reflexivity. Qed.

Lemma csv_escape_cons c v :
  Ascii.eqb c DQUOTE = false -> csv_escape (c :: v) = c :: csv_escape v.
Proof. intros H. simpl. rewrite H. reflexivity. Qed.

Lemma csv_escape_no_LF_next c v text :
  Ascii.eqb c LF = false -> no_LF_next (csv_escape (c :: v) ++ text).
Proof.
  intros H. simpl. destruct (Ascii.eqb c DQUOTE); simpl; [reflexivity|exact H].
Qed.

(** Inside a quoted field the reader takes the escaped body of a field
    back to the field, across the lines it may span. *)
Lemma run_quoted_body n : forall v, (length v <= n)%nat ->
  forall text rd cur f fs,
    no_LF_next text ->
    feed rd cur = Some (mkReader IN_QUOTED_FIELD f fs) ->
    exists rd2 cur2,
      run rd cur (csv_escape v ++ text) = run rd2 cur2 text /\
      feed rd2 cur2 = Some (mkReader IN_QUOTED_FIELD (f ++ v) fs).
Proof.
  induction n as [|n IH]; intros v Hlen text rd cur f fs Hnext Hfeed.
  { destruct v; [|simpl in Hlen; lia]. exists rd, cur. rewrite app_nil_r. auto. }
  destruct v as [|c v].
  { exists rd, cur. rewrite app_nil_r. auto. }
  simpl in Hlen.
  destruct (Ascii.eqb c DQUOTE) eqn:Hq.
  - apply Ascii.eqb_eq in Hq as ->.
    destruct (IH v ltac:(lia) text rd (cur ++ [DQUOTE; DQUOTE]) (f ++ [DQUOTE]) fs
                Hnext (quoted_quote _ _ _ _ Hfeed)) as (rd2 & cur2 & Hrun & Hf2).
    exists rd2, cur2. rewrite <- app_assoc in Hf2. split; [|exact Hf2].
    rewrite <- Hrun. cbn [csv_escape app]. rewrite Ascii.eqb_refl.
    cbn [app]. rewrite !run_char by reflexivity. rewrite <- app_assoc. reflexivity.
  - rewrite (csv_escape_cons _ _ Hq).
    pose proof (feed_snoc _ _ _ _ _ Hfeed (quoted_char f fs c Hq)) as Hfc.
    destruct (Ascii.eqb c LF) eqn:Hlf.
    + apply Ascii.eqb_eq in Hlf as ->.
      destruct (IH v ltac:(lia) text (mkReader IN_QUOTED_FIELD (f ++ [LF]) fs) []
                  (f ++ [LF]) fs Hnext eq_refl) as (rd2 & cur2 & Hrun & Hf2).
      exists rd2, cur2. rewrite <- app_assoc in Hf2. split; [|exact Hf2].
      rewrite <- Hrun.
      change ((LF :: csv_escape v) ++ text) with ([LF] ++ (csv_escape v ++ text)).
      rewrite (run_line_end [LF] _ rd cur _ _ (end_LF _) Hfc eq_refl).
      reflexivity.
    + destruct (Ascii.eqb c CR) eqn:Hcr.
      * apply Ascii.eqb_eq in Hcr as ->.
        destruct v as [|c2 v2].
        -- exists (mkReader IN_QUOTED_FIELD (f ++ [CR]) fs), []. split; [|reflexivity].
           change ((CR :: csv_escape []) ++ text) with ([CR] ++ text).
           rewrite (run_line_end [CR] _ rd cur _ _ (end_CR _ Hnext) Hfc eq_refl).
           reflexivity.
        -- destruct (Ascii.eqb c2 LF) eqn:H2.
           ++ apply Ascii.eqb_eq in H2 as ->. simpl in Hlen.
              destruct (IH v2 ltac:(lia) text
                          (mkReader IN_QUOTED_FIELD (f ++ [CR; LF]) fs) []
                          (f ++ [CR; LF]) fs Hnext eq_refl)
                as (rd2 & cur2 & Hrun & Hf2).
              exists rd2, cur2. rewrite <- app_assoc in Hf2. split; [|exact Hf2].
              rewrite <- Hrun. rewrite (csv_escape_cons LF v2 eq_refl).
              change ((CR :: LF :: csv_escape v2) ++ text)
                with ([CR; LF] ++ (csv_escape v2 ++ text)).
              assert (Hfc2 : feed rd (cur ++ [CR; LF])
                             = Some (mkReader IN_QUOTED_FIELD (f ++ [CR; LF]) fs)).
              { rewrite feed_app, Hfeed. simpl. unfold parse_process_char. simpl.
                char_tests. unfold parse_add_char. simpl.
                rewrite <- app_assoc. reflexivity. }
              rewrite (run_line_end [CR; LF] _ rd cur _ _ (end_CRLF _) Hfc2 eq_refl).
              reflexivity.
           ++ destruct (IH (c2 :: v2) ltac:(simpl in *; lia) text
                          (mkReader IN_QUOTED_FIELD (f ++ [CR]) fs) []
                          (f ++ [CR]) fs Hnext eq_refl)
                as (rd2 & cur2 & Hrun & Hf2).
              exists rd2, cur2. rewrite <- app_assoc in Hf2. split; [|exact Hf2].
              rewrite <- Hrun.
              change ((CR :: csv_escape (c2 :: v2)) ++ text)
                with ([CR] ++ (csv_escape (c2 :: v2) ++ text)).
              rewrite (run_line_end [CR] _ rd cur _ _
                         (end_CR _ (csv_escape_no_LF_next _ _ _ H2)) Hfc eq_refl).
              reflexivity.
      * destruct (IH v ltac:(lia) text rd (cur ++ [c]) (f ++ [c]) fs Hnext Hfc)
          as (rd2 & cur2 & Hrun & Hf2).
        exists rd2, cur2. rewrite <- app_assoc in Hf2. split; [|exact Hf2].
        rewrite <- Hrun. cbn [app]. rewrite run_char; [reflexivity|].
        unfold is_nl. rewrite Hlf, Hcr. reflexivity.
Qed.
Lemma needs_quote_false c :
  needs_quote c = false ->
  Ascii.eqb c COMMA = false /\ Ascii.eqb c DQUOTE = false /\
  Ascii.eqb c CR = false /\ Ascii.eqb c LF = false.
Proof.
  unfold needs_quote. intros H.
  apply orb_false_elim in H as [H H4]. apply orb_false_elim in H as [H H3].
  apply orb_false_elim in H as [H1 H2]. auto.
Qed.

Lemma plain_char_not_nl c : needs_quote c = false -> is_nl c = false.
Proof.
  intros H. apply needs_quote_false in H as (_ & _ & Hcr & Hlf).
  unfold is_nl. rewrite Hcr, Hlf. reflexivity.
Qed.

Lemma unquoted_char f fs c :
  needs_quote c = false ->
  parse_process_char (mkReader IN_FIELD f fs) (Some c)
    = Some (mkReader IN_FIELD (f ++ [c]) fs).
Proof.
  intros H. pose proof (plain_char_not_nl c H) as Hnl.
  apply needs_quote_false in H as (Hc & _).
  unfold parse_process_char. simpl. rewrite Hnl, Hc. reflexivity.
Qed.

(** An unquoted field lies on one line and is taken as it is. *)
Lemma run_unquoted_body v : forall text rd cur f fs,
  existsb needs_quote v = false ->
  feed rd cur = Some (mkReader IN_FIELD f fs) ->
  run rd cur (v ++ text) = run rd (cur ++ v) text /\
  feed rd (cur ++ v) = Some (mkReader IN_FIELD (f ++ v) fs).
Proof.
  induction v as [|c v IH]; intros text rd cur f fs Hv Hfeed.
  - rewrite !app_nil_r. auto.
  - simpl in Hv. apply orb_false_elim in Hv as [Hc Hv].
    pose proof (feed_snoc _ _ _ _ _ Hfeed (unquoted_char f fs c Hc)) as Hfc.
    destruct (IH text rd (cur ++ [c]) (f ++ [c]) fs Hv Hfc) as [Hrun Hf2].
    rewrite <- (app_assoc cur) in Hrun, Hf2. rewrite <- (app_assoc f) in Hf2.
    simpl in Hrun, Hf2.
    split; [|exact Hf2]. rewrite <- Hrun. cbn [app].
    apply run_char, plain_char_not_nl, Hc.
Qed.

(** The first character of a field, from the start of the field. *)
Lemma field_start_quote rdc fs :
  field_start rdc fs ->
  parse_process_char rdc (Some DQUOTE) = Some (mkReader IN_QUOTED_FIELD [] fs).
Proof.
  destruct rdc as [st f fs']. intros (Hf & Hfs & [Hst|[Hst _]]);
    simpl in *; subst; reflexivity.
Qed.

Lemma field_start_plain rdc fs c :
  field_start rdc fs -> needs_quote c = false ->
  parse_process_char rdc (Some c) = Some (mkReader IN_FIELD [c] fs).
Proof.
  intros Hstart Hc. pose proof (plain_char_not_nl c Hc) as Hnl.
  apply needs_quote_false in Hc as (Hcomma & Hq & _).
  destruct rdc as [st f fs']. destruct Hstart as (Hf & Hfs & [Hst|[Hst _]]);
    simpl in *; subst; unfold parse_process_char, start_field; simpl;
    rewrite Hnl; simpl; rewrite ?Hnl, Hq, Hcomma; reflexivity.
Qed.

(** The text of one field takes the reader from the start of the field
    to the field taken. *)
Lemma run_field v text rd cur rdc fs :
  feed rd cur = Some rdc -> field_start rdc fs ->
  exists rd2 cur2 rdc2,
    run rd cur (csv_field v ++ text) = run rd2 cur2 text /\
    feed rd2 cur2 = Some rdc2 /\ field_taken rdc2 fs v /\
    (state rdc2 = START_RECORD -> state rdc = START_RECORD /\ v = []).
Proof.
  intros Hfeed Hstart. unfold csv_field.
  destruct (existsb needs_quote v) eqn:Hv.
  - pose proof (feed_snoc _ _ _ _ _ Hfeed (field_start_quote _ _ Hstart)) as Hfq.
    destruct (run_quoted_body (length v) v (le_n _) (DQUOTE :: text) rd
                (cur ++ [DQUOTE]) [] fs eq_refl Hfq)
      as (rd2 & cur2 & Hrun & Hf2).
    exists rd2, (cur2 ++ [DQUOTE]), (mkReader QUOTE_IN_QUOTED_FIELD v fs).
    split; [|split; [|split]].
    + cbn [app]. rewrite run_char by reflexivity.
      rewrite <- app_assoc. cbn [app]. rewrite Hrun.
      apply run_char. reflexivity.
    + apply (feed_snoc _ _ _ _ _ Hf2). reflexivity.
    + split; [reflexivity|]. right. left. auto.
    + discriminate.
  - destruct v as [|c v].
    + exists rd, cur, rdc. split; [reflexivity|]. split; [exact Hfeed|].
      destruct Hstart as (Hf & Hfs & Hst). split; [|tauto].
      split; [exact Hfs|]. destruct Hst as [Hst|[Hst Hnil]]; auto 10.
    + simpl in Hv. apply orb_false_elim in Hv as [Hc Hv].
      pose proof (feed_snoc _ _ _ _ _ Hfeed (field_start_plain _ _ c Hstart Hc))
        as Hfc.
      destruct (run_unquoted_body v text rd (cur ++ [c]) [c] fs Hv Hfc)
        as [Hrun Hf2].
      exists rd, ((cur ++ [c]) ++ v), (mkReader IN_FIELD ([c] ++ v) fs).
      split; [|split; [exact Hf2|split]].
      * rewrite <- Hrun. cbn [app]. apply run_char, plain_char_not_nl, Hc.
      * split; [reflexivity|]. left. auto.
      * discriminate.
Qed.

(** A comma after a field: the field is saved and the next one starts. *)
Lemma take_comma rdc fs v :
  field_taken rdc fs v ->
  parse_process_char rdc (Some COMMA) = Some (mkReader START_FIELD [] (fs ++ [v])).
Proof.
  destruct rdc as [st f fs'].
  intros (Hfs & [[Hst Hf]|[[Hst Hf]|[(Hf & Hv & Hst)|(Hf & Hv & Hst & _)]]]);
    simpl in *; subst; reflexivity.
Qed.

(** CR LF after the last field: the field is saved and the record is
    complete. *)
Lemma take_end rdc fs v :
  field_taken rdc fs v -> state rdc <> START_RECORD ->
  exists rdc2,
    feed rdc [CR; LF] = Some rdc2 /\
    parse_process_char rdc2 None = Some (mkReader START_RECORD [] (fs ++ [v])).
Proof.
  destruct rdc as [st f fs'].
  intros (Hfs & [[Hst Hf]|[[Hst Hf]|[(Hf & Hv & Hst)|(Hf & Hv & Hst & _)]]]) Hne;
    simpl in *; subst; try congruence;
    (eexists; split; [reflexivity|reflexivity]).
Qed.
(** The fields of a record, joined by commas, are taken one by one. *)
Lemma run_join vs : forall v text rd cur rdc fs,
  feed rd cur = Some rdc -> field_start rdc fs ->
  exists rd2 cur2 rdc2 init last,
    v :: vs = init ++ [last] /\
    run rd cur (csv_join (v :: vs) ++ text) = run rd2 cur2 text /\
    feed rd2 cur2 = Some rdc2 /\ field_taken rdc2 (fs ++ init) last /\
    (state rdc2 = START_RECORD -> vs = [] /\ v = []).
Proof.
  induction vs as [|v2 vs IH]; intros v text rd cur rdc fs Hfeed Hstart.
  - destruct (run_field v text rd cur rdc fs Hfeed Hstart)
      as (rd2 & cur2 & rdc2 & Hrun & Hf2 & Htaken & Hst).
    exists rd2, cur2, rdc2, [], v. rewrite app_nil_r.
    split; [reflexivity|]. split; [exact Hrun|]. split; [exact Hf2|].
    split; [exact Htaken|]. intros H. split; [reflexivity|apply Hst, H].
  - change (csv_join (v :: v2 :: vs))
      with (csv_field v ++ COMMA :: csv_join (v2 :: vs)).
    rewrite <- app_assoc.
    destruct (run_field v ((COMMA :: csv_join (v2 :: vs)) ++ text) rd cur rdc fs
                Hfeed Hstart)
      as (rd2 & cur2 & rdc2 & Hrun & Hf2 & Htaken & _).
    pose proof (feed_snoc _ _ _ _ _ Hf2 (take_comma _ _ _ Htaken)) as Hf3.
    destruct (IH v2 text rd2 (cur2 ++ [COMMA]) _ (fs ++ [v]) Hf3)
      as (rd4 & cur4 & rdc4 & init & last & Hsplit & Hrun4 & Hf4 & Htaken4 & Hst4).
    { split; [reflexivity|]. split; [reflexivity|]. left. reflexivity. }
    exists rd4, cur4, rdc4, (v :: init), last.
    split; [simpl; congruence|]. split.
    + rewrite Hrun. cbn [app]. rewrite run_char by reflexivity. exact Hrun4.
    + split; [exact Hf4|]. rewrite <- app_assoc in Htaken4. split; [exact Htaken4|].
      intros H. destruct Htaken4 as (_ & [[Hs _]|[[Hs _]|[(_ & _ & Hs)|(_ & _ & Hs & Hnil)]]]);
        try congruence.
      destruct fs; discriminate Hnil.
Qed.

(** One record of the file gives back the texts it was written from. *)
Lemma run_record row text :
  run reader_reset [] (csv_record row ++ text) =
  rows ← run reader_reset [] text; Some (row :: rows).
Proof.
  assert (Hgen : forall v vs, (vs <> [] \/ v <> []) ->
            run reader_reset [] ((csv_join (v :: vs) ++ [CR; LF]) ++ text) =
            rows ← run reader_reset [] text; Some ((v :: vs) :: rows)).
  { intros v vs Hne. rewrite <- app_assoc.
    destruct (run_join vs v ([CR; LF] ++ text) reader_reset [] reader_reset []
                eq_refl)
      as (rd2 & cur2 & rdc2 & init & last & Hsplit & Hrun & Hf2 & Htaken & Hst).
    { split; [reflexivity|]. split; [reflexivity|]. right. auto. }
    rewrite Hrun.
    destruct (take_end _ _ _ Htaken) as (rdc3 & Hf3 & Heol).
    { intros H. destruct (Hst H) as [-> ->]. destruct Hne; congruence. }
    assert (Hf : feed rd2 (cur2 ++ [CR; LF]) = Some rdc3).
    { rewrite feed_app, Hf2. exact Hf3. }
    rewrite (run_line_end [CR; LF] text rd2 cur2 _ _ (end_CRLF _) Hf Heol).
    simpl. rewrite <- Hsplit. reflexivity. }
  destruct row as [|[|c v] [|v2 vs]].
  - reflexivity.
  - reflexivity.
  - apply (Hgen [] (v2 :: vs)). left. discriminate.
  - apply (Hgen (c :: v) []). right. discriminate.
  - apply (Hgen (c :: v) (v2 :: vs)). left. discriminate.
Qed.

(** The records of a file give back the rows they were written from. *)
Lemma run_records rows :
  run reader_reset [] (flat_map csv_record rows) = Some rows.
Proof.
  induction rows as [|row rows IH]; [reflexivity|].
  cbn [flat_map]. rewrite run_record, IH. reflexivity.
Qed.

Lemma str_int_not_blank n : str_int n <> [].
Proof.
  unfold str_int. destruct n as [|p|p]; [discriminate| |discriminate].
  simpl. unfold NilZero.string_of_uint.
  pose proof (DecimalPos.Unsigned.to_uint_nonnil p) as Hnil.
  destruct (Pos.to_uint p); [congruence|discriminate..].
Qed.
(** Any table written by the writer is given back by the reader, text for
    text. *)
Lemma csv_round_trip (rows : list (list str)) :
  csv_reader (file_lines (flat_map csv_record rows)) = Some rows.
Proof. apply run_records. Qed.

Lemma write_overlay_csv_records joined :
  write_overlay_csv joined = flat_map csv_record (overlay_texts joined).
Proof.
  unfold write_overlay_csv, overlay_texts, writerow. cbn [flat_map]. f_equal.
  induction joined as [|r joined IH]; [reflexivity|].
  cbn [flat_map map]. rewrite IH. reflexivity.
Qed.

(** C9: [write_overlay_csv] writes the header and then exactly one record
    per joined row.  A row without a sample has empty texts for the sample
    uptime and the four metric values, where a number is never written as
    an empty text (so a blank is not a 0, and a 0 is not a blank).  Read
    back by the reader of the same module and dialect, the file gives the
    same number of rows and, in every column, the text that was written. *)
Theorem write_overlay_csv_round_trip
    (joined : list (LogEvent * option HealthSample)) :
  write_overlay_csv joined = flat_map csv_record (overlay_texts joined) /\
  length (overlay_texts joined) = S (length joined) /\
  read_overlay_csv (write_overlay_csv joined) = Some (overlay_texts joined) /\
  (forall ev,
     map cell_text (overlay_row (ev, None))
       = [str_int (t_ms ev); []; []; []; []; []; module ev; message ev]) /\
  (forall ev sm,
     map cell_text (overlay_row (ev, Some sm))
       = [str_int (t_ms ev); str_int (uptime_ms sm);
          str_int (heap_internal_free sm); str_int (heap_internal_largest sm);
          str_int (psram_free sm);
          match cpu_usage sm with None => [] | Some c => str_int c end;
          module ev; message ev]) /\
  (forall n, str_int n <> []) /\ str_int 0 = txt "0".
Proof.
  split; [apply write_overlay_csv_records|].
  split; [unfold overlay_texts; simpl; rewrite length_map; reflexivity|].
  split.
  - unfold read_overlay_csv. rewrite write_overlay_csv_records.
    apply csv_round_trip.
  - split; [reflexivity|]. split.
    + intros ev sm. simpl. destruct (cpu_usage sm); reflexivity.
    + split; [apply str_int_not_blank|reflexivity].
Qed.

(** The table of two rows, as written and as read back. *)
Example write_overlay_csv_runs :
  write_overlay_csv sample_joined =
    txt "log_t_ms,sample_uptime_ms,heap_internal_free,heap_internal_largest,psram_free,cpu_usage,module,message"
    ++ [CR; LF]
    ++ txt "5,,,,,,Boot," ++ [DQUOTE] ++ txt "a,b " ++ [DQUOTE; DQUOTE] ++ txt "c"
    ++ [CR; LF] ++ txt "d" ++ [DQUOTE] ++ [CR; LF]
    ++ txt "250,100,9000,8000,0,,,ready" ++ [CR; LF] /\
  read_overlay_csv (write_overlay_csv sample_joined) =
    Some [map txt ["log_t_ms"; "sample_uptime_ms"; "heap_internal_free";
                   "heap_internal_largest"; "psram_free"; "cpu_usage";
                   "module"; "message"]%string;
          [txt "5"; []; []; []; []; []; txt "Boot";
           txt "a,b " ++ [DQUOTE] ++ txt "c" ++ [CR; LF] ++ txt "d"];
          [txt "250"; txt "100"; txt "9000"; txt "8000"; txt "0"; []; [];
           txt "ready"]].
Proof. split; vm_compute; reflexivity. Qed.

(** * Further properties of the module *)

(** ** Log context in the report *)

Lemma bisect_right_loop_bounds a x : forall fuel lo hi,
  (lo <= hi)%nat ->
  (lo <= bisect_right_loop a x fuel lo hi <= hi)%nat.
Proof.
  induction fuel as [|fuel IH]; intros lo hi Hle; cbn [bisect_right_loop]; [lia|].
  destruct (Nat.ltb_spec lo hi) as [Hlt|Hge]; [|lia].
  destruct (a !! ((lo + hi) / 2)%nat) as [am|]; [|lia].
  pose proof (Nat.div_mod_eq (lo + hi) 2) as Hdiv.
  pose proof (Nat.mod_upper_bound (lo + hi) 2 ltac:(lia)) as Hmod.
  destruct (x <? am).
  - specialize (IH lo ((lo + hi) / 2)%nat ltac:(lia)). lia.
  - specialize (IH ((lo + hi) / 2 + 1)%nat hi ltac:(lia)). lia.
Qed.

(** On an ascending list the search ends at the insertion point after the
    elements at or below [x]. *)
Lemma bisect_right_loop_sorted a x :
  Sorted Z.le a ->
  forall fuel lo hi,
    (lo <= hi)%nat -> (hi <= length a)%nat -> (hi - lo <= fuel)%nat ->
    (forall j aj, (j < lo)%nat -> a !! j = Some aj -> aj <= x) ->
    (forall j aj, (hi <= j)%nat -> a !! j = Some aj -> x < aj) ->
    (forall j aj, (j < bisect_right_loop a x fuel lo hi)%nat ->
                  a !! j = Some aj -> aj <= x) /\
    (forall j aj, (bisect_right_loop a x fuel lo hi <= j)%nat ->
                  a !! j = Some aj -> x < aj).
Proof.
  intros Hs.
  assert (Hmono : forall i j ai aj, (i <= j)%nat -> a !! i = Some ai ->
                    a !! j = Some aj -> ai <= aj).
  { intros i j ai aj Hij Hi Hj.
    exact (ascending_lookup (fun z => z) a i j ai aj Hs Hij Hi Hj). }
  induction fuel as [|fuel IH]; intros lo hi Hle Hhi Hfuel Hlo Hup;
    cbn [bisect_right_loop].
  - assert (lo = hi) by lia. subst. auto.
  - destruct (Nat.ltb_spec lo hi) as [Hlt|Hge].
    2:{ assert (lo = hi) by lia. subst. auto. }
    pose proof (Nat.div_mod_eq (lo + hi) 2) as Hdiv.
    pose proof (Nat.mod_upper_bound (lo + hi) 2 ltac:(lia)) as Hmod.
    destruct (lookup_lt_is_Some_2 a ((lo + hi) / 2)%nat ltac:(lia)) as [am Ham].
    rewrite Ham. destruct (Z.ltb_spec x am) as [Hx|Hx].
    + apply IH; try lia; [exact Hlo|].
      intros j aj Hj Haj. pose proof (Hmono _ _ _ _ Hj Ham Haj). lia.
    + apply IH; try lia; [|exact Hup].
      intros j aj Hj Haj.
      pose proof (Hmono j ((lo + hi) / 2)%nat aj am ltac:(lia) Haj Ham). lia.
Qed.

Lemma bisect_right_le a x : (bisect_right a x <= length a)%nat.
Proof.
  unfold bisect_right.
  pose proof (bisect_right_loop_bounds a x (length a) 0 (length a) ltac:(lia)).
  lia.
Qed.

Lemma bisect_right_sorted a x :
  Sorted Z.le a ->
  (forall j aj, (j < bisect_right a x)%nat -> a !! j = Some aj -> aj <= x) /\
  (forall j aj, (bisect_right a x <= j)%nat -> a !! j = Some aj -> x < aj).
Proof.
  intros Hs. unfold bisect_right.
  apply (bisect_right_loop_sorted a x Hs (length a) 0 (length a));
    [lia|lia|lia| |].
  - intros j aj Hj. lia.
  - intros j aj Hj Haj. apply lookup_lt_Some in Haj. lia.
Qed.

Lemma ascending_map {A} (key : A -> Z) l :
  ascending key l -> Sorted Z.le (map key l).
Proof.
  unfold ascending. induction 1 as [|x l Hs IH Hhd]; simpl; constructor; [exact IH|].
  destruct Hhd; simpl; constructor. assumption.
Qed.

(** X1: the log context is a contiguous run of the raw lines of the
    events, in their order; with [before] and [after] not negative it has
    at most [before + after + 1] lines, and at least one as soon as there
    is an event. *)
Theorem event_context_window (evs : list LogEvent) (t before after : Z) :
  0 <= before -> 0 <= after ->
  (exists start len,
     _event_context_lines evs t before after
       = map raw (take len (drop start evs)) /\
     (start + len <= length evs)%nat) /\
  Z.of_nat (length (_event_context_lines evs t before after))
    <= before + after + 1 /\
  (evs <> [] -> _event_context_lines evs t before after <> []).
Proof.
  intros Hb Ha. destruct evs as [|e0 evs0].
  { simpl. split; [exists 0%nat, 0%nat; split; [reflexivity|simpl; lia]|].
    split; [lia|congruence]. }
  remember (e0 :: evs0) as evs eqn:Hevs.
  assert (Hn : (1 <= length evs)%nat) by (subst; simpl; lia).
  assert (Hunf : _event_context_lines evs t before after =
            map raw
              (take (Z.to_nat
                       (Z.min (Z.of_nat (length evs))
                          ((if Z.of_nat (bisect_right (map t_ms evs) t) - 1 <? 0
                            then 0 else Z.of_nat (bisect_right (map t_ms evs) t) - 1)
                           + after + 1)
                        - Z.max 0
                            ((if Z.of_nat (bisect_right (map t_ms evs) t) - 1 <? 0
                              then 0 else Z.of_nat (bisect_right (map t_ms evs) t) - 1)
                             - before)))
                 (drop (Z.to_nat
                          (Z.max 0
                             ((if Z.of_nat (bisect_right (map t_ms evs) t) - 1 <? 0
                               then 0 else Z.of_nat (bisect_right (map t_ms evs) t) - 1)
                              - before)))
                    evs))).
  { subst evs. reflexivity. }
  rewrite Hunf. clear Hunf.
  pose proof (bisect_right_le (map t_ms evs) t) as Hr. rewrite length_map in Hr.
  set (r := bisect_right (map t_ms evs) t) in *.
  set (idx := if Z.of_nat r - 1 <? 0 then 0 else Z.of_nat r - 1).
  assert (Hidx : 0 <= idx < Z.of_nat (length evs)).
  { subst idx. destruct (Z.ltb_spec (Z.of_nat r - 1) 0); lia. }
  split; [|split].
  - eexists _, _. split; [reflexivity|]. lia.
  - rewrite length_map, length_take, length_drop. lia.
  - intros _ H. apply (f_equal length) in H.
    rewrite length_map, length_take, length_drop in H. simpl in H. lia.
Qed.

(** The theorem at the events of [late_capture], with the defaults of the
    function. *)
Lemma event_context_window_witness :
  0 <= 2 /\ 0 <= 3 /\
  Z.of_nat (length (_event_context_lines (events late_capture) 49000 2 3))
    <= 2 + 3 + 1.
Proof.
  assert (H2 : 0 <= 2) by lia. assert (H3 : 0 <= 3) by lia.
  split; [exact H2|]. split; [exact H3|].
  exact (proj1 (proj2 (event_context_window (events late_capture) 49000 2 3 H2 H3))).
Defined.

(** The insertion point after the last event at or before [t]. *)
Lemma bisect_right_split pre e post t :
  ascending t_ms (pre ++ e :: post) -> t_ms e <= t ->
  Forall (fun e' => t < t_ms e') post ->
  bisect_right (map t_ms (pre ++ e :: post)) t = S (length pre).
Proof.
  intros Hs He Hpost.
  destruct (bisect_right_sorted _ t (ascending_map t_ms _ Hs)) as [Hlow Hhigh].
  pose proof (bisect_right_le (map t_ms (pre ++ e :: post)) t) as Hle.
  rewrite length_map, length_app in Hle. simpl in Hle.
  remember (bisect_right (map t_ms (pre ++ e :: post)) t) as r eqn:Hrdef.
  clear Hrdef.
  assert (Hat : map t_ms (pre ++ e :: post) !! length pre = Some (t_ms e)).
  { rewrite list_lookup_fmap, lookup_app_r by lia.
    rewrite Nat.sub_diag. reflexivity. }
  destruct (Nat.lt_trichotomy r (S (length pre))) as [Hlt|[Heq|Hgt]]; [|exact Heq|].
  - pose proof (Hhigh (length pre) (t_ms e) ltac:(lia) Hat). lia.
  - destruct post as [|p post]; [simpl in Hle; lia|].
    apply Forall_cons in Hpost as [Hp _].
    assert (Hnext : map t_ms (pre ++ e :: p :: post) !! S (length pre) = Some (t_ms p)).
    { rewrite list_lookup_fmap, lookup_app_r by lia.
      replace (S (length pre) - length pre)%nat with 1%nat by lia. reflexivity. }
    pose proof (Hlow (S (length pre)) (t_ms p) ltac:(lia) Hnext). lia.
Qed.

Lemma bisect_right_all_later evs t :
  ascending t_ms evs -> Forall (fun e' => t < t_ms e') evs ->
  bisect_right (map t_ms evs) t = 0%nat.
Proof.
  intros Hs Hall.
  destruct (bisect_right_sorted _ t (ascending_map t_ms _ Hs)) as [Hlow _].
  destruct (bisect_right (map t_ms evs) t) as [|r] eqn:Hr; [reflexivity|].
  destruct evs as [|e evs].
  { discriminate Hr. }
  apply Forall_cons in Hall as [He _].
  pose proof (Hlow 0%nat (t_ms e) ltac:(lia) eq_refl). lia.
Qed.

(** X2: on events in ascending order of timestamp, the log context is
    centred on the last event at or before [t]: it is made of the raw lines
    of the last [before] events before that one, of that event, and of the
    first [after] events after it.  When every event is later than [t], it
    is made of the first [after + 1] events. *)
Theorem event_context_nearest (evs : list LogEvent) (t before after : Z) :
  ascending t_ms evs -> 0 <= before -> 0 <= after ->
  (forall pre e post,
     evs = pre ++ e :: post -> t_ms e <= t ->
     Forall (fun e' => t < t_ms e') post ->
     _event_context_lines evs t before after
       = map raw (last_n (Z.to_nat before) pre ++ e :: take (Z.to_nat after) post)) /\
  (Forall (fun e' => t < t_ms e') evs ->
   _event_context_lines evs t before after
     = map raw (take (Z.to_nat after + 1) evs)).
Proof.
  intros Hs Hb Ha. split.
  - intros pre e post -> He Hpost.
    pose proof (bisect_right_split pre e post t Hs He Hpost) as Hr.
    unfold _event_context_lines.
    destruct (pre ++ e :: post) as [|x l] eqn:Hevs.
    { destruct pre; discriminate. }
    rewrite <- Hevs in *. clear x l Hevs. cbv zeta. rewrite Hr.
    destruct (Z.ltb_spec (Z.of_nat (S (length pre)) - 1) 0) as [Hneg|_]; [lia|].
    f_equal. rewrite length_app. cbn [length]. unfold last_n.
    replace (Z.to_nat (Z.max 0 (Z.of_nat (S (length pre)) - 1 - before)))
      with (length pre - Z.to_nat before)%nat by lia.
    rewrite drop_app_le by lia.
    set (X := drop (length pre - Z.to_nat before) pre).
    assert (HX : length X = Nat.min (Z.to_nat before) (length pre)).
    { subst X. rewrite length_drop. lia. }
    replace (Z.to_nat _)
      with (length X + S (Nat.min (Z.to_nat after) (length post)))%nat by lia.
    rewrite take_app_add. cbn [take]. do 2 f_equal.
    destruct (Nat.le_ge_cases (Z.to_nat after) (length post)) as [Hle|Hge].
    + rewrite Nat.min_l by lia. reflexivity.
    + rewrite Nat.min_r by lia. rewrite !take_ge by lia. reflexivity.
  - intros Hall. pose proof (bisect_right_all_later evs t Hs Hall) as Hr.
    unfold _event_context_lines.
    destruct evs as [|x l] eqn:Hevs; [rewrite take_nil; reflexivity|].
    rewrite <- Hevs in *. assert (Hn : (1 <= length evs)%nat) by (subst; simpl; lia).
    clear x l Hevs Hs Hall. cbv zeta. rewrite Hr.
    change (Z.of_nat 0 - 1 <? 0) with true. cbv iota. f_equal.
    replace (Z.to_nat (Z.max 0 (0 - before))) with 0%nat by lia.
    rewrite drop_0.
    destruct (Nat.le_ge_cases (Z.to_nat after + 1) (length evs)) as [Hle|Hge].
    + f_equal. lia.
    + rewrite !take_ge by lia. reflexivity.
Qed.

(** The theorem at the events of [late_capture]. *)
Lemma event_context_nearest_witness :
  ascending t_ms (events late_capture) /\ 0 <= 2 /\ 0 <= 3 /\
  _event_context_lines (events late_capture) 49000 2 3
    = map raw (last_n (Z.to_nat 2) [] ++ ev_at 48000 "a"
               :: take (Z.to_nat 3) [ev_at 50000 "b"]).
Proof.
  assert (Hs : ascending t_ms (events late_capture)).
  { unfold ascending. simpl. repeat constructor. simpl. lia. }
  assert (H2 : 0 <= 2) by lia. assert (H3 : 0 <= 3) by lia.
  split; [exact Hs|]. split; [exact H2|]. split; [exact H3|].
  assert (He : t_ms (ev_at 48000 "a") <= 49000) by (simpl; lia).
  assert (Hp : Forall (fun e' => 49000 < t_ms e') [ev_at 50000 "b"]).
  { constructor; [simpl; lia|constructor]. }
  exact (proj1 (event_context_nearest (events late_capture) 49000 2 3 Hs H2 H3)
           [] (ev_at 48000 "a") [ev_at 50000 "b"] eq_refl He Hp).
Defined.

(** ** Top drops and minima in the report *)

Lemma ascending_app_le {A} (key : A -> Z) l1 l2 x y :
  ascending key (l1 ++ l2) -> x ∈ l1 -> y ∈ l2 -> key x <= key y.
Proof.
  intros Hs Hx Hy.
  apply list_elem_of_lookup in Hx as [i Hi]. apply list_elem_of_lookup in Hy as [j Hj].
  apply (ascending_lookup key (l1 ++ l2) i (length l1 + j) x y Hs).
  - apply lookup_lt_Some in Hi. lia.
  - apply lookup_app_l_Some, Hi.
  - rewrite lookup_app_r by lia. rewrite Nat.add_comm, Nat.add_sub. exact Hj.
Qed.

Lemma ascending_take {A} (key : A -> Z) n l :
  ascending key l -> ascending key (take n l).
Proof.
  unfold ascending. revert n. induction l as [|x l IH]; intros n Hs.
  - rewrite take_nil. constructor.
  - destruct n as [|n]; [constructor|]. simpl.
    apply Sorted_inv in Hs as [Hs Hhd]. constructor; [apply IH, Hs|].
    destruct l as [|y l]; destruct n; simpl; constructor.
    apply HdRel_inv in Hhd. exact Hhd.
Qed.

(** The drops collected by the loop are the falls of the free heap between
    neighbouring samples, each with the index of the later sample. *)
Lemma elem_of_drops ss delta j :
  (delta, j) ∈ flat_map (drop_at ss) (seq 1 (length ss - 1)) <->
  (1 <= j)%nat /\ delta < 0 /\
  exists cur prev, ss !! j = Some cur /\ ss !! (j - 1)%nat = Some prev /\
                   delta = heap_internal_free cur - heap_internal_free prev.
Proof.
  rewrite list_elem_of_In, in_flat_map. split.
  - intros (i & Hi & Hin). apply in_seq in Hi. unfold drop_at in Hin.
    destruct (ss !! i) as [cur|] eqn:Hc; [|destruct Hin].
    destruct (ss !! (i - 1)%nat) as [prev|] eqn:Hp; [|destruct Hin].
    destruct (Z.ltb_spec (heap_internal_free cur - heap_internal_free prev) 0);
      [|destruct Hin].
    destruct Hin as [[= <- <-]|[]].
    split; [lia|]. split; [assumption|]. exists cur, prev. auto.
  - intros (Hj & Hneg & cur & prev & Hc & Hp & ->).
    exists j. split.
    + apply in_seq. apply lookup_lt_Some in Hc. lia.
    + unfold drop_at. rewrite Hc, Hp.
      destruct (Z.ltb_spec (heap_internal_free cur - heap_internal_free prev) 0);
        [left; reflexivity|lia].
Qed.

Lemma top_drops_unfold samples top_n :
  top_drops samples top_n =
  take (Z.to_nat (Z.max 1 top_n)) (sorted_drops (sorted_by uptime_ms samples)).
Proof.
  destruct samples as [|s samples]; [|reflexivity].
  unfold top_drops, sorted_drops. simpl. symmetry. apply take_nil.
Qed.

(** X3: the drops that the summary reports are falls of the internal free
    heap between two neighbouring samples (in uptime order), the largest
    fall first.  It reports [max(1, top_n)] of them when there are that
    many, so at least one whatever [top_n]; a fall that is not reported is
    no larger than any reported one. *)
Theorem top_drops_spec (samples : list HealthSample) (top_n : Z) :
  Forall (fun d =>
            (1 <= snd d)%nat /\ fst d < 0 /\
            exists cur prev,
              sorted_by uptime_ms samples !! snd d = Some cur /\
              sorted_by uptime_ms samples !! (snd d - 1)%nat = Some prev /\
              fst d = heap_internal_free cur - heap_internal_free prev)
    (top_drops samples top_n) /\
  ascending fst (top_drops samples top_n) /\
  (length (top_drops samples top_n) <= Z.to_nat (Z.max 1 top_n))%nat /\
  (forall j cur prev,
     (1 <= j)%nat ->
     sorted_by uptime_ms samples !! j = Some cur ->
     sorted_by uptime_ms samples !! (j - 1)%nat = Some prev ->
     heap_internal_free cur - heap_internal_free prev < 0 ->
     (heap_internal_free cur - heap_internal_free prev, j) ∈ top_drops samples top_n
     \/ (length (top_drops samples top_n) = Z.to_nat (Z.max 1 top_n) /\
         Forall (fun d => fst d <= heap_internal_free cur - heap_internal_free prev)
           (top_drops samples top_n))).
Proof.
  rewrite top_drops_unfold. unfold sorted_drops.
  set (ss := sorted_by uptime_ms samples).
  set (D := flat_map (drop_at ss) (seq 1 (length ss - 1))).
  set (k := Z.to_nat (Z.max 1 top_n)).
  pose proof (sorted_by_ascending fst D) as Hasc.
  pose proof (sorted_by_perm fst D) as Hperm.
  split; [|split; [|split]].
  - apply Forall_forall. intros [delta j] Hin.
    apply elem_of_take in Hin as (i & Hin & _).
    apply list_elem_of_lookup_2 in Hin. rewrite Hperm in Hin.
    apply elem_of_drops in Hin as (Hj & Hneg & cur & prev & Hc & Hp & Hd).
    simpl. split; [exact Hj|]. split; [exact Hneg|]. exists cur, prev. auto.
  - apply ascending_take, Hasc.
  - rewrite length_take. lia.
  - intros j cur prev Hj Hc Hp Hneg.
    assert (Hin : (heap_internal_free cur - heap_internal_free prev, j) ∈ sorted_by fst D).
    { rewrite Hperm. apply elem_of_drops. split; [exact Hj|]. split; [exact Hneg|].
      exists cur, prev. auto. }
    rewrite <- (take_drop k (sorted_by fst D)) in Hin.
    apply elem_of_app in Hin as [Hin|Hin]; [left; exact Hin|]. right. split.
    + rewrite length_take. destruct (Nat.le_gt_cases k (length (sorted_by fst D)));
        [lia|]. rewrite drop_ge in Hin by lia. inversion Hin.
    + apply Forall_forall. intros d Hd.
      rewrite <- (take_drop k (sorted_by fst D)) in Hasc.
      exact (ascending_app_le fst _ _ d _ Hasc Hd Hin).
Qed.

Lemma min_from_first {A} (key : A -> Z) (l : list A) (x : A) :
  exists pre post,
    x :: l = pre ++ min_from key x l :: post /\
    Forall (fun y => key (min_from key x l) < key y) pre /\
    Forall (fun y => key (min_from key x l) <= key y) post.
Proof.
  revert x. induction l as [|y l IH]; intros x.
  - exists [], []. simpl. repeat constructor.
  - simpl. destruct (Z.ltb_spec (key y) (key x)) as [Hlt|Hge].
    + destruct (IH y) as (pre & post & Heq & Hpre & Hpost).
      exists (x :: pre), post. split; [simpl; rewrite Heq; reflexivity|].
      split; [|exact Hpost]. constructor; [|exact Hpre].
      assert (Hy : y ∈ pre ++ min_from key y l :: post)
        by (rewrite <- Heq; left).
      apply elem_of_app in Hy as [Hy|Hy].
      * rewrite Forall_forall in Hpre. specialize (Hpre _ Hy). lia.
      * apply elem_of_cons in Hy as [Hy|Hy]; [rewrite <- Hy; lia|].
        rewrite Forall_forall in Hpost. specialize (Hpost _ Hy). lia.
    + destruct (IH x) as (pre & post & Heq & Hpre & Hpost).
      destruct pre as [|x' pre].
      * simpl in Heq. injection Heq as Hx Hl.
        subst post. exists [], (y :: l). rewrite <- Hx in *. simpl.
        split; [reflexivity|]. split; [constructor|].
        constructor; [lia|exact Hpost].
      * simpl in Heq. injection Heq as Hx Hl. subst x'.
        exists (x :: y :: pre), post.
        split; [simpl; rewrite <- Hl; reflexivity|].
        split; [|exact Hpost].
        apply Forall_cons in Hpre as [Hx Hpre].
        constructor; [exact Hx|]. constructor; [lia|exact Hpre].
Qed.

(** The minimum of a list in uptime order: a sample of the list, no sample
    is below it, and among the samples with the same value it has the
    smallest uptime. *)
Lemma min_from_sorted (key : HealthSample -> Z) (x : HealthSample) l :
  ascending uptime_ms (x :: l) ->
  min_from key x l ∈ x :: l /\
  forall s, s ∈ x :: l ->
    key (min_from key x l) <= key s /\
    (key s = key (min_from key x l) -> uptime_ms (min_from key x l) <= uptime_ms s).
Proof.
  intros Hs. destruct (min_from_first key l x) as (pre & post & Heq & Hpre & Hpost).
  rewrite Forall_forall in Hpre. rewrite Forall_forall in Hpost.
  split; [rewrite Heq; apply elem_of_app; right; left|].
  intros s Hin. rewrite Heq in Hin, Hs.
  apply elem_of_app in Hin as [Hin|Hin].
  - specialize (Hpre _ Hin). split; lia.
  - apply elem_of_cons in Hin as [->|Hin]; [split; lia|].
    split; [apply Hpost, Hin|]. intros _.
    apply (ascending_app_le uptime_ms (pre ++ [min_from key x l]) post).
    + rewrite <- app_assoc. exact Hs.
    + apply elem_of_app. right. left.
    + exact Hin.
Qed.

(** X4: the two minima of the summary.  With no sample there is no minimum;
    otherwise the sample reported as the minimum of the internal free heap
    (of the largest free block) is one of the samples, none has a smaller
    value, and of the samples with that value it is one of smallest
    uptime. *)
Theorem summary_minima_spec (samples : list HealthSample) :
  (summary_minima samples = None <-> samples = []) /\
  forall mh ml, summary_minima samples = Some (mh, ml) ->
    (mh ∈ samples /\
     forall s, s ∈ samples ->
       heap_internal_free mh <= heap_internal_free s /\
       (heap_internal_free s = heap_internal_free mh ->
        uptime_ms mh <= uptime_ms s)) /\
    (ml ∈ samples /\
     forall s, s ∈ samples ->
       heap_internal_largest ml <= heap_internal_largest s /\
       (heap_internal_largest s = heap_internal_largest ml ->
        uptime_ms ml <= uptime_ms s)).
Proof.
  pose proof (sorted_by_perm uptime_ms samples) as Hperm.
  pose proof (sorted_by_ascending uptime_ms samples) as Hasc.
  unfold summary_minima.
  destruct samples as [|s0 samples]; [split; [tauto|discriminate]|].
  destruct (sorted_by uptime_ms (s0 :: samples)) as [|x l] eqn:Hss.
  { apply Permutation_nil_cons in Hperm as []. }
  split; [split; discriminate|].
  intros mh ml [= <- <-].
  destruct (min_from_sorted heap_internal_free x l Hasc) as [Hin1 Hmin1].
  destruct (min_from_sorted heap_internal_largest x l Hasc) as [Hin2 Hmin2].
  split; (split; [rewrite <- Hperm; assumption|]);
    intros s Hs; rewrite <- Hperm in Hs; auto.
Qed.

(** ** The colours of the modules *)

Lemma first_index_le k keys : (first_index k keys <= length keys)%nat.
Proof. induction keys as [|k' keys IH]; simpl; [lia|]. destruct (decide (k' = k)); lia. Qed.

Lemma first_index_in k keys :
  k ∈ keys -> (first_index k keys < length keys)%nat.
Proof.
  induction keys as [|k' keys IH]; simpl; intros Hin; [inversion Hin|].
  destruct (decide (k' = k)); [lia|].
  apply elem_of_cons in Hin as [->|Hin]; [congruence|]. specialize (IH Hin). lia.
Qed.

Lemma first_index_notin k keys :
  k ∉ keys -> first_index k keys = length keys.
Proof.
  induction keys as [|k' keys IH]; simpl; intros Hin; [reflexivity|].
  apply not_elem_of_cons in Hin as [Hne Hin].
  destruct (decide (k' = k)); [congruence|]. rewrite IH by assumption. reflexivity.
Qed.

Lemma first_index_app_l k keys more :
  k ∈ keys -> first_index k (keys ++ more) = first_index k keys.
Proof.
  induction keys as [|k' keys IH]; simpl; intros Hin; [inversion Hin|].
  destruct (decide (k' = k)); [reflexivity|].
  apply elem_of_cons in Hin as [->|Hin]; [congruence|]. rewrite IH by assumption.
  reflexivity.
Qed.

Lemma first_index_app_r k keys more :
  k ∉ keys -> first_index k (keys ++ more) = (length keys + first_index k more)%nat.
Proof.
  induction keys as [|k' keys IH]; simpl; intros Hin; [reflexivity|].
  apply not_elem_of_cons in Hin as [Hne Hin].
  destruct (decide (k' = k)); [congruence|]. rewrite IH by assumption. reflexivity.
Qed.

Lemma first_index_lookup k keys :
  k ∈ keys -> keys !! first_index k keys = Some k.
Proof.
  induction keys as [|k' keys IH]; simpl; intros Hin; [inversion Hin|].
  destruct (decide (k' = k)) as [->|Hne]; [reflexivity|].
  apply elem_of_cons in Hin as [->|Hin]; [congruence|]. simpl. apply IH, Hin.
Qed.

Lemma first_index_before k keys :
  k ∉ take (first_index k keys) keys.
Proof.
  induction keys as [|k' keys IH]; simpl; [apply not_elem_of_nil|].
  destruct (decide (k' = k)) as [->|Hne]; [apply not_elem_of_nil|].
  simpl. apply not_elem_of_cons. split; [congruence|exact IH].
Qed.

Lemma rank_app_l k keys more : k ∈ keys -> rank k (keys ++ more) = rank k keys.
Proof.
  intros Hin. unfold rank. rewrite first_index_app_l by assumption.
  rewrite take_app_le by (apply first_index_in in Hin; lia). reflexivity.
Qed.

Lemma rank_new k keys more :
  k ∉ keys -> rank k (keys ++ k :: more) = length (remove_dups keys).
Proof.
  intros Hin. unfold rank. rewrite first_index_app_r by assumption. simpl.
  destruct (decide (k = k)); [|congruence].
  rewrite Nat.add_0_r, take_app_length. reflexivity.
Qed.

Lemma distinct_snoc_old (k : str) keys :
  k ∈ keys -> length (remove_dups (keys ++ [k])) = length (remove_dups keys).
Proof.
  intros Hin. apply Permutation_length.
  apply NoDup_Permutation; [apply NoDup_remove_dups..|].
  intros x. rewrite !elem_of_remove_dups, elem_of_app, list_elem_of_singleton.
  split; [intros [?| ->]; assumption|auto].
Qed.

Lemma distinct_snoc_new (k : str) keys :
  k ∉ keys -> length (remove_dups (keys ++ [k])) = S (length (remove_dups keys)).
Proof.
  intros Hin. change (S (length (remove_dups keys))) with (length (k :: remove_dups keys)).
  apply Permutation_length.
  apply NoDup_Permutation; [apply NoDup_remove_dups| |].
  - constructor; [rewrite elem_of_remove_dups; exact Hin|apply NoDup_remove_dups].
  - intros x. rewrite elem_of_cons, !elem_of_remove_dups, elem_of_app, list_elem_of_singleton.
    tauto.
Qed.

Lemma colors_inv_init : colors_inv [] colors_init.
Proof.
  split; [reflexivity|]. intros k. simpl. rewrite lookup_empty.
  destruct (decide (k ∈ [])) as [Hin|]; [inversion Hin|reflexivity].
Qed.

Lemma color_for_module_inv done st module :
  colors_inv done st ->
  fst (color_for_module st module) =
    colour_of_rank (rank (color_key module) (done ++ [color_key module])) /\
  colors_inv (done ++ [color_key module]) (snd (color_for_module st module)).
Proof.
  intros [Hnext Hmap]. unfold color_for_module.
  set (key := color_key module). pose proof (Hmap key) as Hkey.
  destruct (decide (key ∈ done)) as [Hin|Hout].
  - rewrite Hkey. simpl. split; [rewrite rank_app_l by assumption; reflexivity|].
    split; [rewrite distinct_snoc_old by assumption; exact Hnext|].
    intros k. rewrite Hmap.
    destruct (decide (k ∈ done)) as [Hk|Hk].
    + rewrite decide_True by (apply elem_of_app; left; exact Hk).
      rewrite rank_app_l by assumption. reflexivity.
    + rewrite decide_False; [reflexivity|].
      intros [?| ->%list_elem_of_singleton]%elem_of_app; contradiction.
  - rewrite Hkey. simpl. rewrite rank_new by assumption.
    split; [unfold colour_of_rank; rewrite Hnext; reflexivity|].
    split; [simpl; rewrite distinct_snoc_new by assumption; congruence|].
    intros k. simpl. destruct (decide (k = key)) as [->|Hne].
    + rewrite lookup_insert_eq.
      rewrite decide_True by (apply elem_of_app; right; left).
      rewrite rank_new by assumption. unfold colour_of_rank. rewrite Hnext. reflexivity.
    + rewrite lookup_insert_ne by congruence. rewrite Hmap.
      destruct (decide (k ∈ done)) as [Hk|Hk].
      * rewrite decide_True by (apply elem_of_app; left; exact Hk).
        rewrite rank_app_l by assumption. reflexivity.
      * rewrite decide_False; [reflexivity|].
        intros [?| ->%list_elem_of_singleton]%elem_of_app; contradiction.
Qed.

Lemma ev_colors_from_spec modules : forall done st,
  colors_inv done st ->
  ev_colors_from st modules =
  map (fun m => colour_of_rank (rank (color_key m) (done ++ map color_key modules)))
      modules.
Proof.
  induction modules as [|m modules IH]; intros done st Hinv; [reflexivity|].
  simpl. destruct (color_for_module_inv done st m Hinv) as [Hc Hinv'].
  destruct (color_for_module st m) as [c st']. simpl in Hc, Hinv'.
  rewrite (IH _ _ Hinv'), <- app_assoc. simpl. f_equal.
  rewrite Hc. destruct (decide (color_key m ∈ done)) as [Hin|Hout].
  - rewrite !rank_app_l by assumption. reflexivity.
  - rewrite (rank_new _ _ []), rank_new by assumption. reflexivity.
Qed.

(** X5: the colour that the plot gives to an event depends on the key of
    its module (the module without the white space around it, (none) when
    nothing is left) and on nothing else: it is the palette entry at the
    rank of the key (the number of distinct keys met before its first
    occurrence), taken modulo the ten entries of the palette. *)
Theorem ev_colors_by_rank (modules : list str) :
  ev_colors modules =
  map (fun m => colour_of_rank (rank (color_key m) (map color_key modules))) modules.
Proof. exact (ev_colors_from_spec modules [] colors_init colors_inv_init). Qed.

Lemma distinct_lt (k : str) l1 l2 :
  (forall x, x ∈ l1 -> x ∈ l2) -> k ∈ l2 -> k ∉ l1 ->
  (length (remove_dups l1) < length (remove_dups l2))%nat.
Proof.
  intros Hsub Hin Hout.
  change (length (k :: remove_dups l1) <= length (remove_dups l2))%nat.
  apply submseteq_length, NoDup_submseteq.
  - constructor; [rewrite elem_of_remove_dups; exact Hout|apply NoDup_remove_dups].
  - intros x. rewrite elem_of_cons, !elem_of_remove_dups. intros [->|Hx]; auto.
Qed.

Lemma rank_lt k keys :
  k ∈ keys -> (rank k keys < length (remove_dups keys))%nat.
Proof.
  intros Hin. apply (distinct_lt k); [|exact Hin|apply first_index_before].
  intros x Hx. apply elem_of_take in Hx as (i & Hx & _).
  exact (list_elem_of_lookup_2 _ _ _ Hx).
Qed.

Lemma rank_lt_rank k1 k2 keys :
  k1 ∈ keys -> (first_index k1 keys < first_index k2 keys)%nat ->
  (rank k1 keys < rank k2 keys)%nat.
Proof.
  intros Hin Hlt. apply (distinct_lt k1); [| |apply first_index_before].
  - intros x Hx. apply elem_of_take in Hx as (i & Hx & Hi).
    apply elem_of_take. exists i. split; [exact Hx|lia].
  - apply elem_of_take. exists (first_index k1 keys).
    split; [apply first_index_lookup, Hin|exact Hlt].
Qed.

Lemma rank_inj k1 k2 keys :
  k1 ∈ keys -> k2 ∈ keys -> rank k1 keys = rank k2 keys -> k1 = k2.
Proof.
  intros H1 H2 Hr.
  destruct (Nat.lt_total (first_index k1 keys) (first_index k2 keys)) as [Hlt|[Heq|Hlt]].
  - pose proof (rank_lt_rank k1 k2 keys H1 Hlt). lia.
  - pose proof (first_index_lookup k1 keys H1) as E1.
    pose proof (first_index_lookup k2 keys H2) as E2.
    rewrite Heq in E1. congruence.
  - pose proof (rank_lt_rank k2 k1 keys H2 Hlt). lia.
Qed.

Lemma colour_of_rank_inj a b :
  (a < 10)%nat -> (b < 10)%nat -> colour_of_rank a = colour_of_rank b -> a = b.
Proof.
  intros Ha Hb H.
  do 10 (destruct a as [|a];
         [do 10 (destruct b as [|b];
                 [first [reflexivity|vm_compute in H; discriminate H]|]); lia|]).
  lia.
Qed.

(** X6: as long as the events have at most ten distinct module keys, two
    events get the same colour in the plot exactly when their modules have
    the same key. *)
Theorem ev_colors_distinct (modules : list str) (i j : nat) (mi mj : str) :
  (length (remove_dups (map color_key modules)) <= 10)%nat ->
  modules !! i = Some mi -> modules !! j = Some mj ->
  (ev_colors modules !! i = ev_colors modules !! j <-> color_key mi = color_key mj).
Proof.
  intros Hten Hi Hj. unfold ev_colors.
  rewrite (ev_colors_from_spec modules [] colors_init colors_inv_init).
  simpl. rewrite !list_lookup_fmap, Hi, Hj. simpl.
  split; [|intros ->; reflexivity].
  intros [= H].
  assert (Hki : color_key mi ∈ map color_key modules)
    by (apply list_elem_of_fmap; exists mi; split;
        [reflexivity|exact (list_elem_of_lookup_2 _ _ _ Hi)]).
  assert (Hkj : color_key mj ∈ map color_key modules)
    by (apply list_elem_of_fmap; exists mj; split;
        [reflexivity|exact (list_elem_of_lookup_2 _ _ _ Hj)]).
  pose proof (rank_lt _ _ Hki). pose proof (rank_lt _ _ Hkj).
  apply (rank_inj _ _ _ Hki Hkj), colour_of_rank_inj; [lia|lia|exact H].
Qed.

(** The theorem at three events of the modules wifi, mqtt and wifi with
    white space around it. *)
Lemma ev_colors_distinct_witness :
  (length (remove_dups (map color_key [txt "wifi"; txt "mqtt"; txt " wifi "])) <= 10)%nat /\
  (ev_colors [txt "wifi"; txt "mqtt"; txt " wifi "] !! 0%nat =
   ev_colors [txt "wifi"; txt "mqtt"; txt " wifi "] !! 2%nat <->
   color_key (txt "wifi") = color_key (txt " wifi ")).
Proof.
  assert (H : (length (remove_dups (map color_key [txt "wifi"; txt "mqtt"; txt " wifi "]))
               <= 10)%nat) by (vm_compute; lia).
  split; [exact H|].
  exact (ev_colors_distinct [txt "wifi"; txt "mqtt"; txt " wifi "] 0 2
           (txt "wifi") (txt " wifi ") H eq_refl eq_refl).
Defined.

(** ** The calls to the device *)

Lemma post_reboot_loop_spec post : forall count i last_err,
  match post_reboot_loop post count i last_err with
  | (n, None) =>
      (i < n <= i + count)%nat /\ post (n - 1)%nat = None /\
      forall j, (i <= j < n - 1)%nat -> post j <> None
  | (n, Some last) =>
      n = (i + count)%nat /\
      (forall j, (i <= j < n)%nat -> post j <> None) /\
      last = match count with O => last_err | S _ => post (n - 1)%nat end
  end.
Proof.
  induction count as [|count IH]; intros i last_err; simpl.
  - split; [lia|]. split; [intros; lia|reflexivity].
  - destruct (post i) as [e|] eqn:Hp.
    + specialize (IH (S i) (Some e)).
      destruct (post_reboot_loop post count (S i) (Some e)) as [n [last|]].
      * destruct IH as (-> & Hall & Hlast). split; [lia|]. split.
        -- intros j Hj. destruct (decide (j = i)) as [->|]; [congruence|].
           apply Hall. lia.
        -- rewrite Hlast. destruct count; [|reflexivity].
           replace (S i + 0 - 1)%nat with i by lia. symmetry. exact Hp.
      * destruct IH as (Hn & Hok & Hall). split; [lia|]. split; [exact Hok|].
        intros j Hj. destruct (decide (j = i)) as [->|]; [congruence|].
        apply Hall. lia.
    + split; [lia|]. replace (S i - 1)%nat with i by lia.
      split; [exact Hp|]. intros; lia.
Qed.

(** X7: [http_post_reboot] posts until a call succeeds and then returns:
    the last call made is the first one that did not raise.  It raises
    RuntimeError only after exactly [retries] calls that all raised, and
    then reports the exception of the last call; with [retries] at most 0
    it makes no call and reports None. *)
Theorem http_post_reboot_spec (post : nat -> option exn) (retries : Z) :
  match http_post_reboot post retries with
  | (n, None) =>
      (1 <= n <= Z.to_nat retries)%nat /\ post (n - 1)%nat = None /\
      forall j, (j < n - 1)%nat -> post j <> None
  | (n, Some last) =>
      n = Z.to_nat retries /\
      (forall j, (j < n)%nat -> post j <> None) /\
      last = (if retries <=? 0 then None else post (n - 1)%nat)
  end.
Proof.
  unfold http_post_reboot.
  pose proof (post_reboot_loop_spec post (Z.to_nat retries) 0 None) as H.
  destruct (post_reboot_loop post (Z.to_nat retries) 0 None) as [n [last|]].
  - destruct H as (-> & Hall & Hlast). split; [reflexivity|].
    split; [intros j Hj; apply Hall; lia|]. rewrite Hlast.
    destruct (Z.leb_spec retries 0) as [Hle|Hgt].
    + replace (Z.to_nat retries) with 0%nat by lia. reflexivity.
    + destruct (Z.to_nat retries) eqn:E; [lia|reflexivity].
  - destruct H as (Hn & Hok & Hall). split; [lia|]. split; [exact Hok|].
    intros j Hj. apply Hall. lia.
Qed.

Lemma health_history_loop_spec get : forall count i last_err,
  match health_history_loop get count i last_err with
  | (n, inr hist) =>
      (i < n <= i + count)%nat /\ get (n - 1)%nat = FetchAvailable hist /\
      forall j h, (i <= j < n - 1)%nat -> get j <> FetchAvailable h
  | (n, inl last) =>
      n = (i + count)%nat /\
      (forall j h, (i <= j < n)%nat -> get j <> FetchAvailable h) /\
      ((last = last_err /\ forall j, (i <= j < n)%nat -> get j = FetchUnavailable) \/
       exists j e, (i <= j < n)%nat /\ get j = FetchRaised e /\ last = Some e /\
                   forall j', (j < j' < n)%nat -> get j' = FetchUnavailable)
  end.
Proof.
  induction count as [|count IH]; intros i last_err; simpl.
  - split; [lia|]. split; [intros; lia|]. left. split; [reflexivity|intros; lia].
  - destruct (get i) as [e| |hist] eqn:Hg.
    + specialize (IH (S i) (Some e)).
      destruct (health_history_loop get count (S i) (Some e)) as [n [last|hist]].
      * destruct IH as (-> & Hall & Hlast). split; [lia|]. split.
        -- intros j h Hj. destruct (decide (j = i)) as [->|]; [congruence|].
           apply Hall. lia.
        -- right. destruct Hlast as [[-> Hun]|(j & e' & Hj & Hr & -> & Hun)].
           ++ exists i, e. split; [lia|]. split; [exact Hg|]. split; [reflexivity|].
              intros j' Hj'. apply Hun. lia.
           ++ exists j, e'. split; [lia|]. auto.
      * destruct IH as (Hn & Hok & Hall). split; [lia|]. split; [exact Hok|].
        intros j h Hj. destruct (decide (j = i)) as [->|]; [congruence|].
        apply Hall. lia.
    + specialize (IH (S i) last_err).
      destruct (health_history_loop get count (S i) last_err) as [n [last|hist]].
      * destruct IH as (-> & Hall & Hlast). split; [lia|]. split.
        -- intros j h Hj. destruct (decide (j = i)) as [->|]; [congruence|].
           apply Hall. lia.
        -- destruct Hlast as [[-> Hun]|(j & e' & Hj & Hr & -> & Hun)].
           ++ left. split; [reflexivity|]. intros j Hj.
              destruct (decide (j = i)) as [->|]; [exact Hg|]. apply Hun. lia.
           ++ right. exists j, e'. split; [lia|]. auto.
      * destruct IH as (Hn & Hok & Hall). split; [lia|]. split; [exact Hok|].
        intros j h Hj. destruct (decide (j = i)) as [->|]; [congruence|].
        apply Hall. lia.
    + split; [lia|]. replace (S i - 1)%nat with i by lia.
      split; [exact Hg|]. intros; lia.
Qed.

(** X8: [http_get_health_history] returns the document of the first
    request that gives an available history, and raises RuntimeError only
    after exactly [retries] requests none of which did.  The exception it
    then reports is the one of the last request that raised, however many
    requests answered available false after it, and None when no request
    raised. *)
Theorem http_get_health_history_spec (get : nat -> fetch) (retries : Z) :
  match http_get_health_history get retries with
  | (n, inr hist) =>
      (1 <= n <= Z.to_nat retries)%nat /\ get (n - 1)%nat = FetchAvailable hist /\
      forall j h, (j < n - 1)%nat -> get j <> FetchAvailable h
  | (n, inl last) =>
      n = Z.to_nat retries /\
      (forall j h, (j < n)%nat -> get j <> FetchAvailable h) /\
      match last with
      | None => forall j, (j < n)%nat -> get j = FetchUnavailable
      | Some e =>
          exists j, (j < n)%nat /\ get j = FetchRaised e /\
                    forall j', (j < j' < n)%nat -> get j' = FetchUnavailable
      end
  end.
Proof.
  unfold http_get_health_history.
  pose proof (health_history_loop_spec get (Z.to_nat retries) 0 None) as H.
  destruct (health_history_loop get (Z.to_nat retries) 0 None) as [n [last|hist]].
  - destruct H as (-> & Hall & Hlast). split; [reflexivity|].
    split; [intros j h Hj; apply Hall; lia|].
    destruct Hlast as [[-> Hun]|(j & e & Hj & Hr & -> & Hun)].
    + intros j Hj. apply Hun. lia.
    + exists j. split; [lia|]. auto.
  - destruct H as (Hn & Hok & Hall). split; [lia|]. split; [exact Hok|].
    intros j h Hj. apply Hall. lia.
Qed.

Lemma lstrip_slash_repeat n v :
  lstrip_slash (repeat "/"%char n ++ v) = lstrip_slash v.
Proof. induction n as [|n IH]; [reflexivity|]. simpl. char_tests. exact IH. Qed.

Lemma rev_repeat_same {A} (c : A) n : rev (repeat c n) = repeat c n.
Proof.
  induction n as [|n IH]; [reflexivity|].
  simpl. rewrite IH. symmetry. apply repeat_cons.
Qed.

Lemma lstrip_slash_head v w : lstrip_slash v <> "/"%char :: w.
Proof.
  induction v as [|c v IH]; simpl; [discriminate|].
  destruct (Ascii.eqb c "/") eqn:E; [exact IH|].
  intros [= -> _]. vm_compute in E. discriminate E.
Qed.

Lemma lstrip_slash_suffix v : exists n, v = repeat "/"%char n ++ lstrip_slash v.
Proof.
  induction v as [|c v [n IH]]; [exists 0%nat; reflexivity|]. simpl.
  destruct (Ascii.eqb c "/") eqn:E; [|exists 0%nat; reflexivity].
  apply Ascii.eqb_eq in E as ->. exists (S n). simpl. rewrite <- IH. reflexivity.
Qed.

(** X9: the addresses that [http_post_reboot] and
    [http_get_health_history] call do not depend on the slashes at the end
    of the device address: all of them are taken off, so that the path
    follows what is left, which does not end with a slash. *)
Theorem device_urls_ignore_trailing_slashes (device_url : str) :
  (exists n, device_url = rstrip_slash device_url ++ repeat "/"%char n) /\
  (forall v, rstrip_slash device_url <> v ++ ["/"%char]) /\
  forall n,
    reboot_url (device_url ++ repeat "/"%char n) = reboot_url device_url /\
    health_history_url (device_url ++ repeat "/"%char n) =
      health_history_url device_url.
Proof.
  split; [|split].
  - unfold rstrip_slash. destruct (lstrip_slash_suffix (rev device_url)) as [n Hn].
    exists n. rewrite <- (rev_involutive device_url) at 1. rewrite Hn at 1.
    rewrite rev_app_distr, rev_repeat_same. reflexivity.
  - intros v H. unfold rstrip_slash in H. apply (f_equal (@rev ascii)) in H.
    rewrite rev_involutive, rev_app_distr in H. simpl in H.
    exact (lstrip_slash_head _ _ H).
  - intros n. unfold reboot_url, health_history_url, rstrip_slash.
    rewrite rev_app_distr, rev_repeat_same, lstrip_slash_repeat. split; reflexivity.
Qed.

(** ** Splitting and decoding together *)

Lemma no_newline_app a b : no_newline (a ++ b) <-> no_newline a /\ no_newline b.
Proof. unfold no_newline. rewrite forallb_app, andb_true_iff. reflexivity. Qed.

Lemma no_newline_take n l : no_newline l -> no_newline (take n l).
Proof.
  intros H. rewrite <- (take_drop n l) in H. apply no_newline_app in H. tauto.
Qed.

Lemma no_newline_drop n l : no_newline l -> no_newline (drop n l).
Proof.
  intros H. rewrite <- (take_drop n l) in H. apply no_newline_app in H. tauto.
Qed.

(** Every line of [splitlines] is free of line boundaries. *)
Lemma splitlines_aux_no_newline n : forall text cur,
  (length text <= n)%nat -> no_newline cur ->
  Forall no_newline (splitlines_aux cur text).
Proof.
  induction n as [|n IH]; intros text cur Hlen Hcur.
  - destruct text; [|simpl in Hlen; lia]. simpl.
    destruct cur; repeat constructor. exact Hcur.
  - destruct text as [|c text].
    { simpl. destruct cur; repeat constructor. exact Hcur. }
    simpl in Hlen. simpl.
    assert (Hnil : no_newline []) by reflexivity.
    destruct (Ascii.eqb c CR) eqn:Hcr.
    + destruct text as [|c2 text]; [repeat constructor; exact Hcur|].
      simpl in Hlen.
      destruct (Ascii.eqb c2 LF); constructor; try exact Hcur;
        apply IH; simpl; try lia; exact Hnil.
    + destruct (is_linebreak c) eqn:Hc.
      * constructor; [exact Hcur|]. apply IH; [lia|exact Hnil].
      * apply IH; [lia|]. apply no_newline_app. split; [exact Hcur|].
        unfold no_newline. simpl. rewrite Hc. reflexivity.
Qed.

Lemma splitlines_no_newline text : Forall no_newline (splitlines text).
Proof. apply (splitlines_aux_no_newline (length text)); [lia|reflexivity]. Qed.

(** What one physical line adds to the output is the line, in one piece or
    cut at its timestamp prefixes. *)
Lemma concat_split_line line : concat (split_line line) = line.
Proof.
  destruct (finditer_spec line) as [Hs Hm].
  destruct (split_line_cases line) as [(Hsp & Hlen & ->)|[Hno ->]];
    [|simpl; apply app_nil_r].
  destruct (map m_start (finditer EMBEDDED_LOG_PREFIX_RE line))
    as [|a rest] eqn:Hoffs.
  { apply (f_equal length) in Hoffs. rewrite length_map in Hoffs.
    simpl in Hoffs. lia. }
  rewrite (concat_pieces _ _ _ Hs).
  assert (Ha : a = 0%nat).
  { destruct Hsp as [H0 _]. apply Hm in H0.
    apply elem_of_cons in H0 as [H0|H0]; [congruence|].
    apply StronglySorted_inv in Hs as [_ Hs'].
    rewrite Forall_forall in Hs'. apply Hs' in H0. lia. }
  rewrite Ha. reflexivity.
Qed.

Lemma pieces_no_newline line offs :
  no_newline line -> Forall no_newline (pieces line offs).
Proof.
  intros H. induction offs as [|a rest IH]; [constructor|].
  cbn [pieces]. constructor; [|exact IH].
  unfold slice. apply no_newline_take, no_newline_drop, H.
Qed.

Lemma split_line_no_newline line :
  no_newline line -> Forall no_newline (split_line line).
Proof.
  intros H. destruct (split_line_cases line) as [(_ & _ & ->)|[_ ->]].
  - apply pieces_no_newline, H.
  - repeat constructor. exact H.
Qed.

Lemma split_line_length line : (1 <= length (split_line line))%nat.
Proof.
  destruct (split_line_cases line) as [(_ & Hlen & ->)|[_ ->]]; [|simpl; lia].
  rewrite length_pieces, length_map. lia.
Qed.

(** X10: on every text, of any number of physical lines,
    [split_embedded_timestamp_lines] loses and adds nothing inside the
    lines: its sub-lines put together are the physical lines of the text put
    together.  No sub-line holds a line boundary, and there is at least one
    sub-line per physical line. *)
Theorem split_embedded_timestamp_lines_all_texts (text : str) :
  concat (split_embedded_timestamp_lines text) = concat (splitlines text) /\
  Forall no_newline (split_embedded_timestamp_lines text) /\
  (length (splitlines text) <= length (split_embedded_timestamp_lines text))%nat.
Proof.
  unfold split_embedded_timestamp_lines.
  pose proof (splitlines_no_newline text) as Hnl.
  induction (splitlines text) as [|line lines IH]; [repeat constructor|].
  apply Forall_cons in Hnl as [Hline Hnl].
  destruct (IH Hnl) as (Hcat & Hall & Hlen). simpl.
  rewrite concat_app, concat_split_line, Hcat, length_app.
  split; [reflexivity|]. split.
  - apply Forall_app. split; [apply split_line_no_newline, Hline|exact Hall].
  - pose proof (split_line_length line). lia.
Qed.

Lemma no_newline_no_LF p : no_newline p -> LF ∉ p.
Proof.
  unfold no_newline. induction p as [|c p IH]; simpl; intros H.
  - apply not_elem_of_nil.
  - apply andb_prop in H as [Hc H]. apply not_elem_of_cons. split; [|exact (IH H)].
    intros <-. vm_compute in Hc. discriminate Hc.
Qed.

Lemma no_newline_lstrip_cr p : no_newline p -> lstrip_cr p = p.
Proof.
  unfold no_newline. destruct p as [|c p]; simpl; intros H; [reflexivity|].
  apply andb_prop in H as [Hc _]. apply negb_true_iff in Hc.
  destruct (Ascii.eqb c CR) eqn:Hcr; [|reflexivity].
  apply is_linebreak_CR in Hcr. congruence.
Qed.

(** A line that starts with the timestamp prefix decodes, to its timestamp. *)
Lemma parse_log_line_prefix line ds tail :
  LF ∉ line -> ts_prefix (lstrip_cr line) ds tail ->
  exists ev, parse_log_line line = Some ev /\ t_ms ev = int_of_digits ds /\
             raw ev = lstrip_cr line.
Proof.
  intros HLF Hpre.
  pose proof (no_LF_ts_tail _ _ _ (no_LF_lstrip_cr _ HLF) Hpre) as Htail.
  destruct (log_prefix_complete _ _ _ Hpre Htail) as (m & Hm & Hg1 & Hg2).
  unfold parse_log_line. rewrite strip_leading_cr, Hm, Hg1.
  destruct (re_match MODULE_RE (group m 2));
    eexists; (split; [reflexivity|]); split; reflexivity.
Qed.

Lemma piece_decodes p :
  no_newline p ->
  match parse_log_line p with
  | Some ev =>
      raw ev = p /\ exists ds tail, ts_prefix p ds tail /\ t_ms ev = int_of_digits ds
  | None => forall ds tail, ~ ts_prefix p ds tail
  end.
Proof.
  intros Hnl. pose proof (no_newline_no_LF _ Hnl) as HLF.
  pose proof (no_newline_lstrip_cr _ Hnl) as Hcr.
  destruct (parse_log_line p) as [ev|] eqn:Hev.
  - destruct (parse_log_line_sound _ _ Hev) as (ds & tail & Hpre).
    destruct (parse_log_line_prefix _ _ _ HLF Hpre) as (ev' & Hev' & Ht & Hraw).
    rewrite Hev in Hev'. injection Hev' as <-. rewrite Hcr in Hraw, Hpre.
    split; [exact Hraw|]. exists ds, tail. auto.
  - intros ds tail Hpre. rewrite <- Hcr in Hpre.
    destruct (parse_log_line_prefix _ _ _ HLF Hpre) as (ev' & Hev' & _). congruence.
Qed.

(** X11: the decoder on what the splitter hands to it.  A sub-line decodes
    exactly when it starts with the timestamp prefix; the event then has
    the integer of the prefix as its time and the whole sub-line as its
    raw text (so the line kept in the logs file is the raw text of the
    event with a line feed).  When a physical line is cut at its timestamp
    prefixes, every one of its sub-lines decodes to an event. *)
Theorem split_then_decode (text : str) :
  Forall (fun p =>
            match parse_log_line p with
            | Some ev =>
                raw ev = p /\
                exists ds tail, ts_prefix p ds tail /\ t_ms ev = int_of_digits ds
            | None => forall ds tail, ~ ts_prefix p ds tail
            end)
    (split_embedded_timestamp_lines text) /\
  (text <> [] -> no_newline text -> spliced text ->
   Forall (fun p => is_Some (parse_log_line p))
     (split_embedded_timestamp_lines text)).
Proof.
  split.
  - unfold split_embedded_timestamp_lines.
    pose proof (splitlines_no_newline text) as Hnl.
    induction (splitlines text) as [|line lines IH]; [constructor|].
    apply Forall_cons in Hnl as [Hline Hnl]. simpl. apply Forall_app. split.
    + eapply Forall_impl; [apply split_line_no_newline, Hline|].
      intros p Hp. apply piece_decodes, Hp.
    + apply IH, Hnl.
  - intros Hne Hnl Hsp. rewrite (split_embedded_single _ Hne Hnl).
    destruct (finditer_spec text) as [Hs Hm].
    destruct (split_line_cases text) as [(_ & _ & Heq)|[Hno _]];
      [|destruct (Hno Hsp)].
    pose proof (split_line_no_newline text Hnl) as Hall.
    rewrite Heq in *.
    pose proof (pieces_have_prefix text _ Hs (fun q => proj1 (Hm q))) as Hpre.
    apply Forall_forall. intros p Hp.
    rewrite Forall_forall in Hall, Hpre.
    destruct (Hpre _ Hp) as (ds & tail & Hts).
    pose proof (piece_decodes p (Hall _ Hp)) as Hd.
    destruct (parse_log_line p) as [ev|]; [eexists; reflexivity|].
    destruct (Hd _ _ Hts).
Qed.

(** The theorem at the spliced line of the function's docstring, cut
    short. *)
Lemma split_then_decode_witness :
  txt "[67696ms] WiFi[1075ms] [System Boot] Starting" <> [] /\
  no_newline (txt "[67696ms] WiFi[1075ms] [System Boot] Starting") /\
  spliced (txt "[67696ms] WiFi[1075ms] [System Boot] Starting") /\
  Forall (fun p => is_Some (parse_log_line p))
    (split_embedded_timestamp_lines
       (txt "[67696ms] WiFi[1075ms] [System Boot] Starting")).
Proof.
  assert (H1 : txt "[67696ms] WiFi[1075ms] [System Boot] Starting" <> [])
    by discriminate.
  assert (H2 : no_newline (txt "[67696ms] WiFi[1075ms] [System Boot] Starting"))
    by reflexivity.
  assert (H3 : spliced (txt "[67696ms] WiFi[1075ms] [System Boot] Starting")).
  { split.
    - exists (txt "67696"), (txt " WiFi[1075ms] [System Boot] Starting").
      repeat split. discriminate.
    - exists 14%nat. split; [lia|].
      exists (txt "1075"), (txt " [System Boot] Starting").
      repeat split. discriminate. }
  split; [exact H1|]. split; [exact H2|]. split; [exact H3|].
  exact (proj2 (split_then_decode _) H1 H2 H3).
Defined.

(** ** The capture as a whole *)

Lemma logged_snoc suf line : logged (suf ++ [line]) = logged suf ++ [line ++ [LF]].
Proof. unfold logged. rewrite map_app. reflexivity. Qed.

Lemma omap_snoc {A B} (f : A -> option B) l x :
  omap f (l ++ [x]) = omap f l ++ match f x with Some y => [y] | None => [] end.
Proof.
  rewrite omap_app. simpl. destruct (f x); reflexivity.
Qed.

Lemma process_line_logged w trig st line :
  capture_inv st -> logged_inv st ->
  logged_inv (fst (process_line w trig st line)).
Proof.
  intros (Hoff & Hon & _) (Hboot & pre & suf & Hraw & Hevs).
  unfold logged_inv. rewrite process_line_raw_log, Hraw.
  unfold process_line. destruct (parse_log_line line) as [ev|] eqn:Hev.
  2:{ cbn [fst].
      match goal with
      | |- context [flush_if_full ?s] =>
          destruct (flush_if_full_fields s) as (_ & -> & _ & -> & _)
      end. simpl. split; [exact Hboot|].
      exists pre, (suf ++ [line]).
      rewrite logged_snoc, omap_snoc, Hev, app_nil_r, app_assoc. auto. }
  cbn [boot_started boot_start_t_ms last_t_ms events raw_lines logs_txt].
  destruct (boot_started st) eqn:Hs; cbn [negb].
  - destruct (Hon eq_refl) as (evs & e & Hlast_ev & Hlast & Hb).
    match goal with
    | |- context [window_check w ev ?s] =>
        destruct (window_check_fields w ev s) as (_ & -> & _ & -> & _)
    end.
    rewrite Hlast.
    destruct (Z.ltb_spec (t_ms ev + 5000) (t_ms e)); simpl.
    + split; [reflexivity|]. exists (pre ++ logged suf), [line].
      simpl. rewrite Hev. auto.
    + split.
      * rewrite Hboot, Hlast_ev. destruct evs; reflexivity.
      * exists pre, (suf ++ [line]).
        rewrite logged_snoc, omap_snoc, Hev, app_assoc, Hevs. auto.
  - destruct (Hoff eq_refl) as [Hnil Hnone].
    destruct (trig && (boot_start_max_ms <? t_ms ev)).
    + simpl. split; [exact Hboot|]. exists (pre ++ logged suf ++ [line ++ [LF]]), [].
      simpl. rewrite app_nil_r, app_assoc. auto.
    + match goal with
      | |- context [window_check w ev ?s] =>
          destruct (window_check_fields w ev s) as (_ & -> & _ & -> & _)
      end.
      simpl. rewrite Hnil. split; [reflexivity|].
      exists (pre ++ logged suf), [line]. simpl. rewrite Hev. auto.
Qed.

Lemma flush_raw_logged st : logged_inv st -> logged_inv (flush_raw st).
Proof.
  unfold logged_inv.
  destruct (flush_raw_fields st) as (_ & -> & _ & -> & ->). auto.
Qed.

Lemma reachable_logged w trig st : reachable w trig st -> logged_inv st.
Proof.
  induction 1 as [|st line Hr IH|st _ IH].
  - split; [reflexivity|]. exists [], []. split; reflexivity.
  - apply process_line_logged; [exact (reachable_inv _ _ _ Hr)|exact IH].
  - apply flush_raw_logged, IH.
Qed.

Lemma flush_raw_empties st : raw_lines (flush_raw st) = [].
Proof. unfold flush_raw. destruct (raw_lines st) eqn:H; [exact H|reflexivity]. Qed.

(** The loop ends with a flush, however it ends. *)
Lemma capture_loop_flushed w trig script : forall st,
  raw_lines (snd (fst (capture_loop w trig st script))) = [].
Proof.
  induction script as [|tk script IH]; intros st; [apply flush_raw_empties|].
  destruct tk as [| |text|[|]]; cbn [capture_loop];
    first [apply IH|apply flush_raw_empties].
Qed.

(** X12: however [read_boot_window_events] ends, no raw line is left in
    the buffer, and the events it has are in the logs file: the file ends
    with a run of logical lines, each with its line feed, and the events
    are the decodings of the decodable lines of that run, all of them and
    in order. *)
Theorem returned_events_are_logged (w : Z) (trig : bool) (script : list tick) :
  raw_lines (capture_result w trig script) = [] /\
  exists pre suf,
    logs_txt (capture_result w trig script) = pre ++ logged suf /\
    events (capture_result w trig script) = omap parse_log_line suf.
Proof.
  unfold capture_result, read_boot_window_events.
  pose proof (capture_loop_flushed w trig script capture_init) as Hflush.
  pose proof (reachable_logged _ _ _
                (capture_loop_reachable w trig script _ (reach_init w trig)))
    as (_ & pre & suf & Hraw & Hevs).
  split; [exact Hflush|]. exists pre, suf. split; [|exact Hevs].
  unfold raw_log in Hraw. rewrite Hflush, app_nil_r in Hraw. exact Hraw.
Qed.

(** X13: however [read_boot_window_events] ends, the boot window has
    started exactly when there is an event; the boot start is then the time
    of the first event it has, and [last_t_ms] the time of the last. *)
Theorem boot_start_is_first_event (w : Z) (trig : bool) (script : list tick) :
  (boot_started (capture_result w trig script) = true <->
   events (capture_result w trig script) <> []) /\
  boot_start_t_ms (capture_result w trig script) =
    option_map t_ms (head (events (capture_result w trig script))) /\
  (events (capture_result w trig script) <> [] ->
   last_t_ms (capture_result w trig script) =
     option_map t_ms (last (events (capture_result w trig script)))).
Proof.
  unfold capture_result, read_boot_window_events.
  pose proof (capture_loop_reachable w trig script _ (reach_init w trig)) as Hr.
  destruct (reachable_logged _ _ _ Hr) as [Hboot _].
  destruct (reachable_inv _ _ _ Hr) as (Hoff & Hon & _).
  set (st := snd (fst (capture_loop w trig capture_init script))) in *.
  assert (Hiff : boot_started st = true <-> events st <> []).
  { destruct (boot_started st).
    - destruct (Hon eq_refl) as (evs & e & -> & _).
      split; [intros _; destruct evs; discriminate|reflexivity].
    - destruct (Hoff eq_refl) as [-> _]. split; [discriminate|congruence]. }
  split; [exact Hiff|]. split; [exact Hboot|].
  intros Hne. apply Hiff in Hne. destruct (Hon Hne) as (evs & e & -> & -> & _).
  rewrite last_snoc. reflexivity.
Qed.

(** ** The documents that the parser accepts *)

Lemma sample_at_columns uptime cpu heap_free largest psram i sm :
  sample_at uptime cpu heap_free largest psram i = inr sm <->
  exists u c f l p,
    uptime !! i = Some u /\ py_int u = inr (uptime_ms sm) /\
    cpu !! i = Some c /\ cpu_usage sm = cpu_value c /\
    heap_free !! i = Some f /\ py_int f = inr (heap_internal_free sm) /\
    largest !! i = Some l /\ py_int l = inr (heap_internal_largest sm) /\
    psram !! i = Some p /\ py_int p = inr (psram_free sm).
Proof.
  unfold sample_at, mbind, result_bind, mret, result_ret. split.
  - destruct (item uptime i) as [e|u] eqn:Hu; [discriminate|].
    destruct (py_int u) as [e|t] eqn:Ht; [discriminate|].
    destruct (item cpu i) as [e|c] eqn:Hc; [discriminate|].
    destruct (item heap_free i) as [e|hf] eqn:Hhf; [discriminate|].
    destruct (py_int hf) as [e|f] eqn:Hf; [discriminate|].
    destruct (item largest i) as [e|lg] eqn:Hlg; [discriminate|].
    destruct (py_int lg) as [e|l] eqn:Hl; [discriminate|].
    destruct (item psram i) as [e|ps] eqn:Hps; [discriminate|].
    destruct (py_int ps) as [e|p] eqn:Hp; [discriminate|].
    intros [= <-]. apply item_inr in Hu, Hc, Hhf, Hlg, Hps.
    exists u, c, hf, lg, ps. simpl. auto 12.
  - intros (u & c & f & l & p & Hu & Ht & Hc & Hcv & Hf & Hfv & Hl & Hlv & Hp & Hpv).
    apply item_inr in Hu, Hc, Hf, Hl, Hp.
    rewrite Hu, Ht, Hc, Hf, Hfv, Hl, Hlv, Hp, Hpv.
    destruct sm as [t cu fr la psr]. simpl in *. rewrite Hcv. reflexivity.
Qed.




Lemma arr_delete_cpu hist n name :
  name <> "cpu_usage"%string ->
  arr (delete "cpu_usage" hist) n name = arr hist n name.
Proof. intros Hne. unfold arr. rewrite lookup_delete_ne by congruence. reflexivity. Qed.

Lemma cpu_column_mismatch hist n :
  not_array_of hist n "cpu_usage" -> cpu_column hist n = replicate n JNull.
Proof.
  unfold not_array_of, cpu_column. intros H.
  destruct (hist !! "cpu_usage") as [[| | | | |v|]|]; try reflexivity.
  destruct (Nat.eqb_spec (length v) n) as [Hv|]; [|reflexivity].
  destruct (H v eq_refl Hv).
Qed.

(** X15: a cpu_usage that is not an array, or an array of another length
    than uptime_ms, is taken as if the document had none: the outcome is
    the one of the document without the field, and when it is accepted
    every sample has its cpu usage unknown. *)
Theorem cpu_usage_mismatch_ignored (hist : gmap string json) (uptime : list json) :
  hist !! "uptime_ms" = Some (JList uptime) ->
  not_array_of hist (length uptime) "cpu_usage" ->
  parse_health_history hist = parse_health_history (delete "cpu_usage" hist) /\
  forall samples,
    parse_health_history hist = inr samples ->
    Forall (fun sm => cpu_usage sm = None) samples.
Proof.
  intros Hup Hbad. split.
  - unfold parse_health_history. rewrite lookup_delete_ne by discriminate.
    rewrite Hup, !arr_delete_cpu by discriminate.
    rewrite (cpu_column_mismatch _ _ Hbad), cpu_column_missing;
      [reflexivity|apply lookup_delete_eq].
  - intros samples Hok.
    destruct (parse_health_history_inr _ _ Hok)
      as (uptime' & hf & lg & ps & unsorted & Hup' & _ & _ & _ & Hs & ->).
    rewrite Hup in Hup'. injection Hup' as <-.
    rewrite (cpu_column_mismatch _ _ Hbad) in Hs.
    rewrite (sorted_by_perm uptime_ms unsorted).
    destruct (samples_from_inr _ _ _ _ Hs) as [_ Hk].
    apply Forall_lookup. intros k sm Hsm.
    apply Hk, sample_at_columns in Hsm as (u & c & f & l & p & _ & _ & Hc & -> & _).
    apply lookup_replicate in Hc as [-> _]. reflexivity.
Qed.

(** The theorem at a document whose cpu_usage is one entry short. *)
Lemma cpu_usage_mismatch_ignored_witness :
  short_cpu_history !! "uptime_ms"%string = Some (JList [JInt 300; JInt 0; JInt 100]) /\
  not_array_of short_cpu_history 3 "cpu_usage" /\
  parse_health_history short_cpu_history
    = parse_health_history (delete "cpu_usage"%string short_cpu_history).
Proof.
  assert (H1 : short_cpu_history !! "uptime_ms"%string
               = Some (JList [JInt 300; JInt 0; JInt 100])) by reflexivity.
  assert (H2 : not_array_of short_cpu_history 3 "cpu_usage").
  { intros v Hv. assert (Hv' : short_cpu_history !! "cpu_usage"%string
                               = Some (JList [JInt 12; JInt 40])) by reflexivity.
    rewrite Hv' in Hv. injection Hv as <-. simpl. lia. }
  split; [exact H1|]. split; [exact H2|].
  exact (proj1 (cpu_usage_mismatch_ignored short_cpu_history _ H1 H2)).
Defined.

(** ** From the decoder to the table *)

Lemma plain_app a b : plain (a ++ b) <-> plain a /\ plain b.
Proof. unfold plain. rewrite forallb_app, andb_true_iff. reflexivity. Qed.

Lemma plain_cons c v : plain (c :: v) <-> is_nl c = false /\ plain v.
Proof.
  unfold plain. simpl. rewrite andb_true_iff, negb_true_iff. reflexivity.
Qed.

Lemma no_newline_plain v : no_newline v -> plain v.
Proof.
  unfold no_newline, plain. induction v as [|c v IH]; simpl; [reflexivity|].
  intros H. apply andb_prop in H as [Hc H]. rewrite (IH H), andb_true_r.
  apply negb_true_iff in Hc. apply negb_true_iff. unfold is_nl.
  destruct (Ascii.eqb_spec c LF) as [->|]; [vm_compute in Hc; discriminate Hc|].
  destruct (Ascii.eqb_spec c CR) as [->|]; [vm_compute in Hc; discriminate Hc|].
  reflexivity.
Qed.

Lemma str_int_plain n : plain (str_int n).
Proof.
  assert (Hd : forall d, plain (list_ascii_of_string (NilEmpty.string_of_uint d))).
  { induction d; simpl; try reflexivity; apply plain_cons; split;
      solve [reflexivity|exact IHd]. }
  assert (Hu : forall d, plain (list_ascii_of_string (NilZero.string_of_uint d))).
  { intros d. unfold NilZero.string_of_uint. destruct d; try apply Hd. reflexivity. }
  unfold str_int. destruct (Z.to_int n) as [d|d]; simpl; [apply Hu|].
  apply plain_cons. split; [reflexivity|apply Hu].
Qed.

Lemma csv_escape_plain v : plain v -> plain (csv_escape v).
Proof.
  induction v as [|c v IH]; simpl; [auto|]. intros H.
  apply plain_cons in H as [Hc H].
  destruct (Ascii.eqb c DQUOTE).
  - apply plain_cons. split; [reflexivity|]. apply plain_cons. split; [reflexivity|auto].
  - apply plain_cons. auto.
Qed.

Lemma csv_field_plain v : plain v -> plain (csv_field v).
Proof.
  intros H. unfold csv_field. destruct (existsb needs_quote v); [|exact H].
  apply plain_cons. split; [reflexivity|]. apply plain_app.
  split; [apply csv_escape_plain, H|reflexivity].
Qed.

Lemma csv_join_plain fields : Forall plain fields -> plain (csv_join fields).
Proof.
  induction fields as [|f fields IH]; intros H; [reflexivity|].
  apply Forall_cons in H as [Hf H]. cbn [csv_join].
  destruct fields as [|f2 fields]; [apply csv_field_plain, Hf|].
  apply plain_app. split; [apply csv_field_plain, Hf|].
  apply plain_cons. split; [reflexivity|apply IH, H].
Qed.

(** A record of plain fields is one line: a plain text and CR LF. *)
Lemma csv_record_line fields :
  Forall plain fields ->
  exists body, csv_record fields = body ++ [CR; LF] /\ plain body.
Proof.
  intros H. destruct fields as [|[|c v] [|v2 vs]];
    try (eexists; split; [reflexivity|apply csv_join_plain, H]).
  exists [DQUOTE; DQUOTE]. split; reflexivity.
Qed.

Lemma file_lines_aux_plain body : forall cur text,
  plain body ->
  file_lines_aux cur (body ++ CR :: LF :: text)
    = (cur ++ body ++ [CR; LF]) :: file_lines_aux [] text.
Proof.
  induction body as [|c body IH]; intros cur text H; [reflexivity|].
  apply plain_cons in H as [Hc H]. unfold is_nl in Hc.
  apply orb_false_elim in Hc as [H1 H2].
  simpl. rewrite H1, H2, (IH _ _ H), <- app_assoc. reflexivity.
Qed.

Lemma file_lines_records rows :
  Forall (Forall plain) rows ->
  file_lines (flat_map csv_record rows) = map csv_record rows.
Proof.
  unfold file_lines. induction rows as [|row rows IH]; intros H; [reflexivity|].
  apply Forall_cons in H as [Hrow H]. cbn [flat_map map].
  destruct (csv_record_line row Hrow) as (body & -> & Hbody).
  rewrite <- app_assoc. cbn [app].
  rewrite (file_lines_aux_plain body [] _ Hbody), (IH H). reflexivity.
Qed.

(** Module and message of a decoded line are cut out of the line. *)
Lemma decoded_plain line ev :
  no_newline line -> parse_log_line line = Some ev ->
  no_newline (module ev) /\ no_newline (message ev).
Proof.
  intros Hnl Hev.
  pose proof (no_newline_no_LF _ Hnl) as HLF.
  destruct (parse_log_line_sound _ _ Hev) as (ds & tail & Hpre).
  rewrite (no_newline_lstrip_cr _ Hnl) in Hpre.
  pose proof (no_LF_ts_tail _ _ _ HLF Hpre) as Htail.
  destruct (log_prefix_complete _ _ _ Hpre Htail) as (m & Hm & _ & Hg2).
  unfold parse_log_line in Hev.
  rewrite strip_leading_cr, (no_newline_lstrip_cr _ Hnl), Hm, Hg2 in Hev.
  assert (Hrest : no_newline (lstrip_space tail)).
  { destruct Hpre as (-> & _). destruct (lstrip_space_split tail) as (ws & Hws & _).
    change (no_newline (["["%char] ++ ds ++ txt "ms]" ++ tail)) in Hnl.
    rewrite Hws in Hnl. rewrite !no_newline_app in Hnl. tauto. }
  destruct (re_match MODULE_RE (lstrip_space tail)) as [mm|] eqn:Hmm.
  - destruct (module_sound _ _ Hmm (lstrip_space_stops tail)) as (md & msg & Htag).
    pose proof (no_LF_module_msg _ _ _ (no_LF_lstrip_space _ Htail) Htag) as Hmsg.
    destruct (module_complete _ _ _ Htag Hmsg) as (mm' & Hmm' & H1 & H2).
    rewrite Hmm in Hmm'. injection Hmm' as <-.
    injection Hev as <-. simpl. rewrite H1, H2.
    destruct Htag as (Hbody & _). rewrite Hbody in Hrest.
    change (no_newline (["["%char] ++ md ++ ["]"%char] ++ msg)) in Hrest.
    destruct (lstrip_space_split msg) as (ws & Hws & _).
    rewrite Hws in Hrest. rewrite !no_newline_app in Hrest. tauto.
  - injection Hev as <-. simpl. split; [reflexivity|exact Hrest].
Qed.

(** X16: when the events of the joined rows are decoded from logical
    lines (lines without line boundaries, as the capture hands them to the
    decoder), the table that [write_overlay_csv] writes has one line per
    record: the lines of the file are the header and one line for each
    joined row, no field is carried over a line end. *)
Theorem overlay_csv_one_line_per_row
    (joined : list (LogEvent * option HealthSample)) :
  Forall (fun r => exists line,
            no_newline line /\ parse_log_line line = Some (fst r)) joined ->
  file_lines (write_overlay_csv joined) = map csv_record (overlay_texts joined) /\
  length (file_lines (write_overlay_csv joined)) = S (length joined).
Proof.
  intros Hdec.
  assert (Hlines : file_lines (write_overlay_csv joined)
                   = map csv_record (overlay_texts joined)).
  { rewrite write_overlay_csv_records. apply file_lines_records.
    unfold overlay_texts. constructor.
    - repeat constructor.
    - apply Forall_fmap. eapply Forall_impl; [exact Hdec|].
      intros [ev sm] (line & Hnl & Hev). simpl in Hev.
      destruct (decoded_plain _ _ Hnl Hev) as [Hmod Hmsg].
      apply no_newline_plain in Hmod, Hmsg.
      destruct sm as [sm|]; simpl;
        repeat (constructor; [first [apply str_int_plain|assumption|reflexivity
                                    |destruct (cpu_usage sm); [apply str_int_plain|reflexivity]]|]);
        constructor. }
  split; [exact Hlines|].
  rewrite Hlines, length_map. unfold overlay_texts. simpl.
  rewrite length_map. reflexivity.
Qed.

(** The theorem at one row, of the event of a line with a module. *)
Lemma overlay_csv_one_line_per_row_witness :
  Forall (fun r : LogEvent * option HealthSample =>
            exists line, no_newline line /\ parse_log_line line = Some (fst r))
    [(mkLogEvent 100 (txt "WiFi") (txt "a,b") (txt "[100ms] [WiFi] a,b"), None)] /\
  length (file_lines (write_overlay_csv
    [(mkLogEvent 100 (txt "WiFi") (txt "a,b") (txt "[100ms] [WiFi] a,b"), None)]))
  = 2%nat.
Proof.
  assert (H : Forall (fun r : LogEvent * option HealthSample =>
            exists line, no_newline line /\ parse_log_line line = Some (fst r))
    [(mkLogEvent 100 (txt "WiFi") (txt "a,b") (txt "[100ms] [WiFi] a,b"), None)]).
  { constructor; [|constructor]. exists (txt "[100ms] [WiFi] a,b").
    split; reflexivity. }
  split; [exact H|]. exact (proj2 (overlay_csv_one_line_per_row _ H)).
Defined.

(** ** The join on samples in any order *)

Lemma advance_ge samples t : forall fuel idx,
  (idx <= advance samples t fuel idx)%nat.
Proof.
  induction fuel as [|fuel IH]; intros idx; simpl; [lia|].
  destruct (samples !! (idx + 1)%nat) as [sm|]; [|lia].
  destruct (uptime_ms sm <=? t); [|lia].
  specialize (IH (idx + 1)%nat). lia.
Qed.

Lemma join_loop_any samples : forall evs idx,
  map fst (join_loop samples evs idx) = evs /\
  exists idxs,
    Forall (fun i => (idx <= i)%nat) idxs /\ Sorted le idxs /\
    Forall2 (fun r i =>
               match snd r with
               | Some sm => samples !! i = Some sm /\ uptime_ms sm <= t_ms (fst r)
               | None => True
               end) (join_loop samples evs idx) idxs.
Proof.
  induction evs as [|ev evs IH]; intros idx.
  - split; [reflexivity|]. exists []. repeat constructor.
  - cbn [join_loop]. cbv zeta.
    pose proof (advance_ge samples (t_ms ev) (length samples) idx) as Hge.
    set (idx' := advance samples (t_ms ev) (length samples) idx) in *.
    destruct (IH idx') as (Hfst & idxs & Hlow & Hsorted & Hrows).
    split.
    + cbn [map]. rewrite Hfst. f_equal.
      destruct (samples !! idx') as [sm|]; [|reflexivity].
      destruct (uptime_ms sm <=? t_ms ev); reflexivity.
    + exists (idx' :: idxs). split; [|split].
      * constructor; [exact Hge|]. eapply Forall_impl; [exact Hlow|].
        simpl. intros i Hi. lia.
      * constructor; [exact Hsorted|].
        destruct idxs as [|i idxs]; constructor.
        apply Forall_cons in Hlow as [Hi _]. exact Hi.
      * constructor; [|exact Hrows].
        destruct (samples !! idx') as [sm|] eqn:Hsm; [|exact I].
        destruct (Z.leb_spec (uptime_ms sm) (t_ms ev)); simpl; auto.
Qed.

(** X17: whatever the order of the samples, [join_events_to_samples]
    gives one row per event, never pairs an event with a sample later than
    the event, and takes the samples in the order of the list: the sample
    of a row is never before the sample of an earlier row. *)
Theorem join_events_to_samples_any_order (evs : list LogEvent)
    (samples : list HealthSample) :
  map fst (join_events_to_samples evs samples)
    = match samples with [] => evs | _ => sorted_by t_ms evs end /\
  exists idxs,
    Sorted le idxs /\
    Forall2 (fun r i =>
               match snd r with
               | Some sm => samples !! i = Some sm /\ uptime_ms sm <= t_ms (fst r)
               | None => True
               end) (join_events_to_samples evs samples) idxs.
Proof.
  destruct samples as [|sm0 samples].
  - simpl. rewrite map_map, map_id. split; [reflexivity|].
    exists (map (fun _ => 0%nat) evs). split.
    + induction evs as [|e evs IH]; simpl; constructor; [exact IH|].
      destruct evs; constructor. lia.
    + induction evs as [|e evs IH]; simpl; constructor; [exact I|exact IH].
  - cbn [join_events_to_samples].
    destruct (join_loop_any (sm0 :: samples) (sorted_by t_ms evs) 0)
      as (Hfst & idxs & _ & Hsorted & Hrows).
    split; [exact Hfst|]. exists idxs. auto.
Qed.

(** ** The warning of an early boot lost *)

Lemma periods_agree hist : summary_period_ms hist = main_period_ms hist.
Proof.
  unfold summary_period_ms, main_period_ms.
  destruct (hist !! "period_ms") as [v|]; [|reflexivity].
  destruct v as [|[|]|n|[[|p|p]|]|[|c v]|[|x l]|[|x l]]; try reflexivity.
  simpl. destruct (Z.eqb_spec n 0) as [->|]; reflexivity.
Qed.

Lemma ascending_head_least {A} (key : A -> Z) x l y :
  ascending key (x :: l) -> y ∈ x :: l -> key x <= key y.
Proof.
  intros Hs Hin. apply list_elem_of_lookup in Hin as [i Hi].
  exact (ascending_lookup key (x :: l) 0 i x y Hs ltac:(lia) eq_refl Hi).
Qed.

(** X18: on the samples that [parse_health_history] returns, [main] and
    [build_boot_summary] give the warning of an early boot lost together,
    although they read period_ms in two ways: both warn exactly when
    period_ms converts to a positive integer and every sample is later
    than ten periods. *)
Theorem early_boot_warnings_agree (hist : gmap string json)
    (samples : list HealthSample) :
  parse_health_history hist = inr samples ->
  summary_period_ms hist = main_period_ms hist /\
  main_warning hist samples = summary_warning hist samples /\
  (main_warning hist samples = true <->
   samples <> [] /\ 0 < main_period_ms hist /\
   forall s, s ∈ samples -> 10 * main_period_ms hist < uptime_ms s).
Proof.
  intros Hok.
  destruct (parse_health_history_inr _ _ Hok)
    as (uptime & hf & lg & ps & unsorted & _ & _ & _ & _ & _ & Hsorted).
  assert (Hasc : ascending uptime_ms samples)
    by (rewrite Hsorted; apply sorted_by_ascending).
  clear Hsorted Hok. split; [apply periods_agree|].
  unfold main_warning, summary_warning. rewrite periods_agree.
  destruct samples as [|s0 samples].
  { split; [reflexivity|]. split; [discriminate|]. intros [H _]. congruence. }
  pose proof (sorted_by_perm uptime_ms (s0 :: samples)) as Hperm.
  pose proof (sorted_by_ascending uptime_ms (s0 :: samples)) as Hasc'.
  destruct (sorted_by uptime_ms (s0 :: samples)) as [|s1 rest] eqn:Hss.
  { apply Permutation_nil_cons in Hperm as []. }
  assert (Heq : uptime_ms s1 = uptime_ms s0).
  { apply Z.le_antisymm.
    - apply (ascending_head_least uptime_ms s1 rest s0 Hasc').
      rewrite Hperm. left.
    - apply (ascending_head_least uptime_ms s0 samples s1 Hasc).
      rewrite <- Hperm. left. }
  rewrite Heq. split; [reflexivity|].
  unfold early_boot_lost. rewrite andb_true_iff, Z.ltb_lt, Z.ltb_lt. split.
  - intros [Hp Hold]. split; [discriminate|]. split; [exact Hp|].
    intros s Hs. pose proof (ascending_head_least uptime_ms s0 samples s Hasc Hs). lia.
  - intros (_ & Hp & Hall). split; [exact Hp|].
    specialize (Hall s0 ltac:(left)). lia.
Qed.

(** The theorem at a document of period 100 ms whose first sample is at
    5000 ms. *)
Lemma early_boot_warnings_agree_witness :
  parse_health_history late_history
    = inr [mkHealthSample 5000 None 10500 9000 0;
           mkHealthSample 5100 None 10000 9000 0] /\
  main_warning late_history
    [mkHealthSample 5000 None 10500 9000 0; mkHealthSample 5100 None 10000 9000 0]
  = summary_warning late_history
      [mkHealthSample 5000 None 10500 9000 0; mkHealthSample 5100 None 10000 9000 0].
Proof.
  assert (H : parse_health_history late_history
              = inr [mkHealthSample 5000 None 10500 9000 0;
                     mkHealthSample 5100 None 10000 9000 0]) by reflexivity.
  split; [exact H|].
  exact (proj1 (proj2 (early_boot_warnings_agree _ _ H))).
Defined.

(** ** The table of a run *)

(** X19: what [main] writes to overlay.csv from the events of the capture
    and the history document.  When the parser rejects the document its
    error is the outcome and no table is made.  Otherwise the samples
    handed to the join are in ascending order of uptime, as the join needs
    them: the table has one row per event, each with the nearest sample at
    or before the event, and reads back as the texts that were written. *)
Theorem overlay_of_run (events : list LogEvent) (hist : gmap string json) :
  (forall e, parse_health_history hist = inl e -> overlay_of events hist = inl e) /\
  forall samples,
    parse_health_history hist = inr samples ->
    ascending uptime_ms samples /\
    overlay_of events hist
      = inr (write_overlay_csv (join_events_to_samples events samples)) /\
    length (join_events_to_samples events samples) = length events /\
    Forall (fun r => nearest_previous samples (t_ms (fst r)) (snd r))
      (join_events_to_samples events samples) /\
    read_overlay_csv (write_overlay_csv (join_events_to_samples events samples))
      = Some (overlay_texts (join_events_to_samples events samples)).
Proof.
  unfold overlay_of, mbind, result_bind, mret, result_ret. split.
  - intros e ->. reflexivity.
  - intros samples Hok. rewrite Hok.
    destruct (parse_health_history_inr _ _ Hok)
      as (uptime & hf & lg & ps & unsorted & _ & _ & _ & _ & _ & Hsorted).
    assert (Hasc : ascending uptime_ms samples)
      by (rewrite Hsorted; apply sorted_by_ascending).
    split; [exact Hasc|]. split; [reflexivity|].
    split; [|split].
    + destruct samples as [|s0 samples]; [simpl; apply length_map|].
      cbn [join_events_to_samples].
      destruct (join_loop_spec _ Hasc (sorted_by t_ms events) 0%nat) as [Hfst _].
      { apply Sorted_StronglySorted; [intros a b c; lia|apply sorted_by_ascending]. }
      { simpl. lia. }
      { left. reflexivity. }
      rewrite <- (length_map fst), Hfst. apply sorted_by_length.
    + destruct samples as [|s0 samples].
      * simpl. apply Forall_forall. intros r Hr.
        apply list_elem_of_fmap in Hr as (e & -> & _). simpl.
        intros sm' Hin. inversion Hin.
      * cbn [join_events_to_samples].
        destruct (join_loop_spec _ Hasc (sorted_by t_ms events) 0%nat) as [_ Hrows].
        { apply Sorted_StronglySorted; [intros a b c; lia|apply sorted_by_ascending]. }
        { simpl. lia. }
        { left. reflexivity. }
        exact Hrows.
    + unfold read_overlay_csv. rewrite write_overlay_csv_records.
      apply csv_round_trip.
Qed.
